(** * Layout engine of the roadmap graph (utils/layoutHelper.ts)

    A shallow embedding of [calculateLayout]: the date sort, the rank
    fixpoint loop with its fallback, the lane-assignment pass, the
    coordinates, the edges and the canvas bounds, followed by the
    properties of the engine.

    Conventions of the embedding.
    - JavaScript numbers: every number the engine computes is an integer
      (far below 2^53) or, for the bounds of an empty drawing, -Infinity;
      integers are [Z], and [number] adds -Infinity.
    - [date] is the time value [new Date(node.date).getTime()] of the ISO
      string, for well-formed dates.
    - [Array.prototype.sort] is stable; with a comparator that is a total
      preorder its result is unique, and it is the stable insertion sort
      below.
    - [ranks] (a [Map] read only by key) is a [gmap]; [nodeMap] (a [Map]
      whose iteration order is observed through [Array.from]) is an
      insertion-ordered association list; [laneAllocation] (an object
      with numeric keys and [string | null] values) is a [gmap] to
      [option string], [Some None] standing for [null].
    - Loops without a syntactic bound take fuel and return [None] when
      it runs out; totality theorems show that enough fuel always gives
      a result. *)

From Stdlib Require Import ZArith Lia Sorted.
From stdpp Require Import base option list strings gmap fin_maps relations sorting.

Local Open Scope Z_scope.

(** ** Data model (types.ts) *)

Inductive NodeStatus := active | completed | abandoned | standby.

Inductive LayoutOrientation := vertical | horizontal | timeline.

Record WorkflowNode := {
  id : string;
  title : string;
  description : string;
  date : Z;
  status : NodeStatus;
  parentIds : list string
}.

(** [RenderedNode extends WorkflowNode]: the spread [{ ...node, x, y, lane,
    color }].  [color] is [None] when [COLORS[i]] is [undefined]. *)
Record RenderedNode := {
  base : WorkflowNode;
  x : Z;
  y : Z;
  lane : Z;
  color : option string
}.

Record RenderedEdge := {
  edge_id : string;
  sourceX : Z;
  sourceY : Z;
  targetX : Z;
  targetY : Z;
  edge_color : option string;
  edge_status : NodeStatus
}.

Inductive number := NegInfinity | Num (z : Z).

Record Layout := {
  nodes : list RenderedNode;
  edges : list RenderedEdge;
  width : number;
  height : number
}.

Global Instance NodeStatus_eq_dec : EqDecision NodeStatus.
Proof. solve_decision. Defined.

(** ** Constants (constants.ts) *)

Definition COLORS : list string :=
  ["#3b82f6"; "#10b981"; "#8b5cf6"; "#f59e0b"; "#ec4899"; "#06b6d4"; "#f43f5e"]%string.

Definition NODE_WIDTH : Z := 180.
Definition NODE_HEIGHT : Z := 80.
Definition GAP_X : Z := 50.
Definition GAP_Y : Z := 120.
Definition H_NODE_WIDTH : Z := 200.
Definition H_NODE_HEIGHT : Z := 100.
Definition H_GAP_X : Z := 250.
Definition H_GAP_Y : Z := 80.

(** ** Numbers with -Infinity *)

Definition number_max (a b : number) : number :=
  match a, b with
  | NegInfinity, _ => b
  | _, NegInfinity => a
  | Num u, Num v => Num (Z.max u v)
  end.

Definition number_add (a : number) (b : Z) : number :=
  match a with
  | NegInfinity => NegInfinity
  | Num u => Num (u + b)
  end.

(** [Math.max(...l)]: -Infinity on the empty list. *)
Definition Math_max (l : list Z) : number :=
  foldl (fun acc v => number_max acc (Num v)) NegInfinity l.

(** ** Stable sort by a comparator *)

Section Sort.
Context {A : Type} (cmp : A -> A -> Z).

Fixpoint sort_insert (a : A) (l : list A) : list A :=
  match l with
  | [] => [a]
  | b :: l' => if cmp a b <=? 0 then a :: b :: l' else b :: sort_insert a l'
  end.

Definition stable_sort (l : list A) : list A := foldr sort_insert [] l.
End Sort.

(** ** Insertion-ordered map (the JavaScript [Map] behind [nodeMap]) *)

Fixpoint nm_get (m : list (string * RenderedNode)) (k : string) : option RenderedNode :=
  match m with
  | [] => None
  | (k', v) :: m' => if decide (k' = k) then Some v else nm_get m' k
  end.

(** [set] on a present key replaces the value in place; a new key goes
    to the end. *)
Fixpoint nm_set (m : list (string * RenderedNode)) (k : string) (v : RenderedNode)
  : list (string * RenderedNode) :=
  match m with
  | [] => [(k, v)]
  | (k', v') :: m' => if decide (k' = k) then (k, v) :: m' else (k', v') :: nm_set m' k v
  end.

Definition nm_values (m : list (string * RenderedNode)) : list RenderedNode := m.*2.

(** ** Step 1: baseline ordering *)

Definition by_date (a b : WorkflowNode) : Z := date a - date b.

Definition sortedNodes (input : list WorkflowNode) : list WorkflowNode :=
  stable_sort by_date input.

(** ** Step 2: ranks *)

(** Roots get rank 0. *)
Definition init_roots (sorted : list WorkflowNode) : gmap string Z :=
  foldl (fun ranks node =>
           match parentIds node with
           | [] => <[id node := 0]> ranks
           | _ :: _ => ranks
           end) ∅ sorted.

(** The inner [forEach] over [parentIds]: [(maxParentRank, hasParentRank)]. *)
Definition scan_parents (ranks : gmap string Z) (pids : list string) : Z * bool :=
  foldl (fun acc pid =>
           match ranks !! pid with
           | Some r => (Z.max acc.1 r, true)
           | None => acc
           end) (-1, false) pids.

(** The body of the [forEach] of one pass, on [(ranks, changed)]. *)
Definition rank_visit (st : gmap string Z * bool) (node : WorkflowNode)
  : gmap string Z * bool :=
  match parentIds node with
  | [] => st
  | _ :: _ =>
      let '(maxParentRank, hasParentRank) := scan_parents st.1 (parentIds node) in
      if hasParentRank then
        let newRank := maxParentRank + 1 in
        if default (-1) (st.1 !! id node) <? newRank
        then (<[id node := newRank]> st.1, true)
        else st
      else st
  end.

Definition rank_pass (sorted : list WorkflowNode) (ranks : gmap string Z)
  : gmap string Z * bool :=
  foldl rank_visit (ranks, false) sorted.

(** [while (changed && iterations < maxIterations)]; returns the final
    [iterations] and [ranks]. *)
Fixpoint rank_while (fuel : nat) (sorted : list WorkflowNode) (maxIterations : nat)
    (changed : bool) (iterations : nat) (ranks : gmap string Z)
  : option (nat * gmap string Z) :=
  if changed && (iterations <? maxIterations)%nat then
    match fuel with
    | O => None
    | S fuel' =>
        let '(ranks', changed') := rank_pass sorted ranks in
        rank_while fuel' sorted maxIterations changed' (S iterations) ranks'
    end
  else Some (iterations, ranks).

(** Fallback: a node without a rank gets its index in date order. *)
Fixpoint rank_fallback (sorted : list WorkflowNode) (index : nat) (ranks : gmap string Z)
  : gmap string Z :=
  match sorted with
  | [] => ranks
  | node :: rest =>
      rank_fallback rest (S index)
        (match ranks !! id node with
         | Some _ => ranks
         | None => <[id node := Z.of_nat index]> ranks
         end)
  end.

(** Lines 14-66: the number of passes made and the final [ranks]. *)
Definition compute_ranks (fuel : nat) (input : list WorkflowNode)
  : option (nat * gmap string Z) :=
  let sorted := sortedNodes input in
  let maxIterations := (length input + 2)%nat in
  '(iterations, ranks) ← rank_while fuel sorted maxIterations true O (init_roots sorted);
  Some (iterations, rank_fallback sorted O ranks).

(** ** Step 3: lanes, colors and coordinates *)

Definition by_rank_date (ranks : gmap string Z) (a b : WorkflowNode) : Z :=
  let rA := default 0 (ranks !! id a) in
  let rB := default 0 (ranks !! id b) in
  if decide (rA = rB) then date a - date b else rA - rB.

Definition layoutNodes (ranks : gmap string Z) (sorted : list WorkflowNode)
  : list WorkflowNode :=
  stable_sort (by_rank_date ranks) sorted.

(** Lines 85-96: the lane inherited from the first parent, or -1. *)
Definition inherit_lane (nodeMap : list (string * RenderedNode))
    (laneAllocation : gmap Z (option string)) (node : WorkflowNode) : Z :=
  match parentIds node with
  | [] => -1
  | firstParentId :: _ =>
      match nm_get nodeMap firstParentId with
      | Some firstParent =>
          if decide (laneAllocation !! lane firstParent = Some (Some (id (base firstParent))))
          then lane firstParent
          else -1
      | None => -1
      end
  end.

Definition lane_is_free (laneAllocation : gmap Z (option string)) (l : Z) : bool :=
  match laneAllocation !! l with
  | None | Some None => true
  | Some (Some _) => false
  end.

(** Lines 100-109: [while (true)] from [l]. *)
Fixpoint first_free_lane (fuel : nat) (laneAllocation : gmap Z (option string)) (l : Z)
  : option Z :=
  match fuel with
  | O => None
  | S fuel' =>
      if lane_is_free laneAllocation l then Some l
      else first_free_lane fuel' laneAllocation (l + 1)
  end.

Definition choose_lane (fuel : nat) (nodeMap : list (string * RenderedNode))
    (laneAllocation : gmap Z (option string)) (node : WorkflowNode) : option Z :=
  let assignedLane := inherit_lane nodeMap laneAllocation node in
  if decide (assignedLane = -1) then first_free_lane fuel laneAllocation 0
  else Some assignedLane.

(** [COLORS[assignedLane % COLORS.length]], with JavaScript's remainder. *)
Definition lane_color (assignedLane : Z) : option string :=
  let i := Z.rem assignedLane (Z.of_nat (length COLORS)) in
  if i <? 0 then None else COLORS !! Z.to_nat i.

Definition node_color (assignedLane : Z) (st : NodeStatus) : option string :=
  match st with
  | abandoned => Some "#64748b"%string
  | standby => Some "#f59e0b"%string
  | _ => lane_color assignedLane
  end.

Definition coord_x (orientation : LayoutOrientation) (rank assignedLane : Z) : Z :=
  match orientation with
  | vertical => assignedLane * (NODE_WIDTH + GAP_X) + 50
  | _ => rank * H_GAP_X + 50
  end.

Definition coord_y (orientation : LayoutOrientation) (rank assignedLane : Z) : Z :=
  match orientation with
  | vertical => rank * (NODE_HEIGHT + GAP_Y) + 50
  | _ => assignedLane * (H_NODE_HEIGHT + H_GAP_Y) + 50
  end.

Definition render (orientation : LayoutOrientation) (rank assignedLane : Z)
    (node : WorkflowNode) : RenderedNode :=
  {| base := node;
     x := coord_x orientation rank assignedLane;
     y := coord_y orientation rank assignedLane;
     lane := assignedLane;
     color := node_color assignedLane (status node) |}.

(** The body of [layoutNodes.forEach], on [(nodeMap, laneAllocation)].
    The non-null assertion [ranks.get(node.id)!] fails on a missing rank. *)
Definition lane_step (fuel : nat) (ranks : gmap string Z) (orientation : LayoutOrientation)
    (st : list (string * RenderedNode) * gmap Z (option string)) (node : WorkflowNode)
  : option (list (string * RenderedNode) * gmap Z (option string)) :=
  rank ← ranks !! id node;
  assignedLane ← choose_lane fuel st.1 st.2 node;
  Some (nm_set st.1 (id node) (render orientation rank assignedLane node),
        <[assignedLane := Some (id node)]> st.2).

Fixpoint lane_pass (fuel : nat) (ranks : gmap string Z) (orientation : LayoutOrientation)
    (st : list (string * RenderedNode) * gmap Z (option string)) (l : list WorkflowNode)
  : option (list (string * RenderedNode) * gmap Z (option string)) :=
  match l with
  | [] => Some st
  | node :: rest =>
      st' ← lane_step fuel ranks orientation st node;
      lane_pass fuel ranks orientation st' rest
  end.

(** ** Edges and canvas bounds *)

Definition edge_color_of (parent : RenderedNode) (st : NodeStatus) : option string :=
  match st with
  | abandoned => Some "#94a3b8"%string
  | standby => Some "#fbbf24"%string
  | _ => color parent
  end.

(** The edges pushed while visiting one rendered node (lines 151-168). *)
Definition edges_of (nodeMap : list (string * RenderedNode)) (node : RenderedNode)
  : list RenderedEdge :=
  omap (fun parentId =>
          parent ← nm_get nodeMap parentId;
          Some {| edge_id := (id (base parent) +:+ "-" +:+ id (base node))%string;
                  sourceX := x parent;
                  sourceY := y parent;
                  targetX := x node;
                  targetY := y node;
                  edge_color := edge_color_of parent (status (base node));
                  edge_status := status (base node) |})
       (parentIds (base node)).

Definition node_extent_x (orientation : LayoutOrientation) : Z :=
  match orientation with vertical => NODE_WIDTH | _ => H_NODE_WIDTH end.

Definition node_extent_y (orientation : LayoutOrientation) : Z :=
  match orientation with vertical => NODE_HEIGHT | _ => H_NODE_HEIGHT end.

(** ** calculateLayout *)

Definition calculateLayout (fuel : nat) (innerWidth innerHeight : Z)
    (input : list WorkflowNode) (orientation : LayoutOrientation) : option Layout :=
  '(_, ranks) ← compute_ranks fuel input;
  '(nodeMap, _) ← lane_pass fuel ranks orientation ([], ∅)
                    (layoutNodes ranks (sortedNodes input));
  let renderedNodes := nm_values nodeMap in
  let renderedEdges := concat (edges_of nodeMap <$> renderedNodes) in
  let maxX := number_add (Math_max (x <$> renderedNodes)) (node_extent_x orientation + 100) in
  let maxY := number_add (Math_max (y <$> renderedNodes)) (node_extent_y orientation + 100) in
  Some {| nodes := renderedNodes;
          edges := renderedEdges;
          width := number_max maxX (Num innerWidth);
          height := number_max maxY (Num innerHeight) |}.

(** ** The scenario of the specification *)

Definition mk (i : string) (d : Z) (ps : list string) : WorkflowNode :=
  {| id := i; title := ""%string; description := ""%string; date := d;
     status := active; parentIds := ps |}.

Definition diamond : list WorkflowNode :=
  [mk "D" 3 ["B"; "C"]; mk "C" 2 ["A"]; mk "A" 0 []; mk "B" 1 ["A"]]%string.

(** * Properties *)

(** ** Sorting *)

Section SortFacts.
Context {A : Type} (cmp : A -> A -> Z).

Lemma sort_insert_perm a l : sort_insert cmp a l ≡ₚ a :: l.
Proof.
  induction l as [|b l IH]; simpl; [done|].
  destruct (cmp a b <=? 0); [done|].
  rewrite IH. apply perm_swap.
Qed.

Lemma stable_sort_perm l : stable_sort cmp l ≡ₚ l.
Proof.
  induction l as [|a l IH]; simpl; [done|].
  rewrite sort_insert_perm. by f_equiv.
Qed.

Lemma stable_sort_elem a l : a ∈ stable_sort cmp l ↔ a ∈ l.
Proof. by rewrite stable_sort_perm. Qed.

Lemma stable_sort_length l : length (stable_sort cmp l) = length l.
Proof. by rewrite stable_sort_perm. Qed.
End SortFacts.

(** For a comparator that is a total preorder the result is ordered. *)
Section SortOrdered.
Context {A : Type} (cmp : A -> A -> Z).
Hypothesis cmp_total : forall a b, 0 < cmp a b -> cmp b a <= 0.
Hypothesis cmp_trans : forall a b c, cmp a b <= 0 -> cmp b c <= 0 -> cmp a c <= 0.

Lemma sort_insert_sorted a l :
  StronglySorted (fun u v => cmp u v <= 0) l ->
  StronglySorted (fun u v => cmp u v <= 0) (sort_insert cmp a l).
Proof.
  induction 1 as [|b l Hl IH Hb]; simpl.
  - constructor; [constructor|constructor].
  - destruct (Z.leb_spec (cmp a b) 0) as [Hab|Hab].
    + constructor; [by constructor|].
      constructor; [done|].
      eapply Forall_impl; [exact Hb|]. intros c Hc. by apply (cmp_trans a b c).
    + constructor; [done|].
      rewrite sort_insert_perm. constructor; [by apply cmp_total|done].
Qed.

Lemma stable_sort_sorted l :
  StronglySorted (fun u v => cmp u v <= 0) (stable_sort cmp l).
Proof.
  induction l as [|a l IH]; simpl; [constructor|]. by apply sort_insert_sorted.
Qed.
End SortOrdered.

Lemma sortedNodes_sorted input :
  StronglySorted (fun a b => date a <= date b) (sortedNodes input).
Proof.
  assert (StronglySorted (fun a b => by_date a b <= 0) (sortedNodes input)) as H.
  { apply stable_sort_sorted; unfold by_date; intros; lia. }
  induction H as [|a l Hl IH Ha]; constructor; [done|].
  eapply Forall_impl; [exact Ha|]. unfold by_date. intros b. simpl. lia.
Qed.

Lemma sortedNodes_elem n input : n ∈ sortedNodes input ↔ n ∈ input.
Proof. apply stable_sort_elem. Qed.

Lemma layoutNodes_elem ranks n input :
  n ∈ layoutNodes ranks (sortedNodes input) ↔ n ∈ input.
Proof. unfold layoutNodes. by rewrite stable_sort_elem, sortedNodes_elem. Qed.

Lemma layoutNodes_length ranks input :
  length (layoutNodes ranks (sortedNodes input)) = length input.
Proof. unfold layoutNodes, sortedNodes. by rewrite !stable_sort_length. Qed.

(** ** The rank loop stops within its bound *)

Lemma rank_while_total fuel sorted maxIterations changed iterations ranks :
  (maxIterations - iterations <= fuel)%nat ->
  exists iterations' ranks',
    rank_while fuel sorted maxIterations changed iterations ranks
      = Some (iterations', ranks')
    /\ (iterations' <= Nat.max iterations maxIterations)%nat.
Proof.
  revert changed iterations ranks.
  induction fuel as [|fuel IH]; intros changed iterations ranks Hfuel; simpl.
  - destruct changed; simpl.
    + destruct (Nat.ltb_spec iterations maxIterations); [lia|].
      eexists _, _. split; [done|lia].
    + eexists _, _. split; [done|lia].
  - destruct changed; simpl.
    + destruct (Nat.ltb_spec iterations maxIterations).
      * destruct (rank_pass sorted ranks) as [ranks' changed'].
        destruct (IH changed' (S iterations) ranks') as (i & r & -> & Hle); [lia|].
        eexists _, _. split; [done|lia].
      * eexists _, _. split; [done|lia].
    + eexists _, _. split; [done|lia].
Qed.

(** ** The fallback gives every node a rank *)

Lemma rank_fallback_keep sorted index ranks k r :
  ranks !! k = Some r -> rank_fallback sorted index ranks !! k = Some r.
Proof.
  revert index ranks. induction sorted as [|node rest IH]; intros index ranks Hk; simpl.
  - done.
  - apply IH. destruct (ranks !! id node) eqn:E; [done|].
    rewrite lookup_insert_ne; [done|]. intros Heq. rewrite Heq in E. congruence.
Qed.

Lemma rank_fallback_is_Some sorted index ranks n :
  n ∈ sorted -> is_Some (rank_fallback sorted index ranks !! id n).
Proof.
  revert index ranks. induction sorted as [|node rest IH]; intros index ranks Hn.
  - by apply elem_of_nil in Hn.
  - apply elem_of_cons in Hn as [->|Hn]; simpl; [|by apply IH].
    destruct (ranks !! id node) as [r|] eqn:E.
    + exists r. by apply rank_fallback_keep.
    + eexists. apply rank_fallback_keep. apply lookup_insert_eq.
Qed.

Lemma compute_ranks_total fuel input :
  (length input + 2 <= fuel)%nat ->
  exists iterations ranks,
    compute_ranks fuel input = Some (iterations, ranks)
    /\ (iterations <= length input + 2)%nat
    /\ forall n, n ∈ input -> is_Some (ranks !! id n).
Proof.
  intros Hfuel. unfold compute_ranks.
  destruct (rank_while_total fuel (sortedNodes input) (length input + 2) true O
              (init_roots (sortedNodes input))) as (i & r & -> & Hle); [lia|].
  simpl. eexists _, _. split; [done|]. split; [lia|].
  intros n Hn. apply rank_fallback_is_Some. by apply sortedNodes_elem.
Qed.

Definition mutual_cycle : list WorkflowNode :=
  [mk "a" 0 ["b"]; mk "b" 1 ["a"]]%string.

(** C2. For every input node list (a two-node mutual-parent cycle included)
    the rank loop returns after at most N+2 passes, N the number of nodes,
    and after the fallback every node has a rank. *)
Theorem C2_rank_loop_bounded_and_total fuel input :
  (length input + 2 <= fuel)%nat ->
  exists iterations ranks,
    compute_ranks fuel input = Some (iterations, ranks)
    /\ (iterations <= length input + 2)%nat
    /\ forall n, n ∈ input -> exists r, ranks !! id n = Some r.
Proof. apply compute_ranks_total. Qed.

Lemma C2_witness_mutual_cycle :
  (length mutual_cycle + 2 <= 4)%nat /\
  exists iterations ranks,
    compute_ranks 4 mutual_cycle = Some (iterations, ranks)
    /\ (iterations <= length mutual_cycle + 2)%nat
    /\ forall n, n ∈ mutual_cycle -> exists r, ranks !! id n = Some r.
Proof.
  split; [simpl; lia|].
  apply (C2_rank_loop_bounded_and_total 4 mutual_cycle). simpl. lia.
Defined.

Example mutual_cycle_ranks :
  compute_ranks 4 mutual_cycle
  = Some (1%nat, <["b"%string := 1]> (<["a"%string := 0]> ∅)).
Proof. vm_compute. reflexivity. Qed.

(** ** The insertion-ordered map *)

Lemma nm_get_elem m k v : nm_get m k = Some v -> (k, v) ∈ m.
Proof.
  induction m as [|[k' v'] m IH]; simpl; [done|].
  destruct (decide (k' = k)) as [->|Hne].
  - intros [= ->]. apply elem_of_cons. by left.
  - intros H. apply elem_of_cons. right. by apply IH.
Qed.

Lemma nm_get_None m k : nm_get m k = None <-> k ∉ m.*1.
Proof.
  induction m as [|[k' v'] m IH]; simpl.
  - split; [intros _; apply not_elem_of_nil|done].
  - rewrite not_elem_of_cons. destruct (decide (k' = k)) as [->|Hne].
    + split; [done|]. intros [? _]. done.
    + rewrite IH. split; [|tauto]. intros ?. split; [congruence|done].
Qed.

Lemma nm_get_set m k v k' :
  nm_get (nm_set m k v) k' = if decide (k = k') then Some v else nm_get m k'.
Proof.
  induction m as [|[k0 v0] m IH]; simpl.
  - destruct (decide (k = k')); done.
  - destruct (decide (k0 = k)) as [->|Hne]; simpl.
    + destruct (decide (k = k')); done.
    + destruct (decide (k0 = k')) as [->|Hne'].
      * destruct (decide (k = k')); [congruence|done].
      * apply IH.
Qed.

Lemma nm_set_elem m k v k' v' :
  (k', v') ∈ nm_set m k v -> (k', v') = (k, v) \/ (k', v') ∈ m.
Proof.
  induction m as [|[k0 v0] m IH]; simpl.
  - intros H. apply list_elem_of_singleton in H. by left.
  - destruct (decide (k0 = k)) as [->|Hne]; rewrite !elem_of_cons; intuition.
Qed.

Lemma nm_set_keys_in m k v : k ∈ m.*1 -> (nm_set m k v).*1 = m.*1.
Proof.
  induction m as [|[k0 v0] m IH]; simpl.
  - intros H. by apply elem_of_nil in H.
  - destruct (decide (k0 = k)) as [->|Hne]; simpl; [done|].
    rewrite elem_of_cons. intros [?|Hin]; [congruence|]. f_equal. by apply IH.
Qed.

Lemma nm_set_notin m k v : k ∉ m.*1 -> nm_set m k v = m ++ [(k, v)].
Proof.
  induction m as [|[k0 v0] m IH]; simpl; [done|].
  rewrite not_elem_of_cons. intros [Hne Hnin].
  destruct (decide (k0 = k)); [congruence|]. f_equal. by apply IH.
Qed.

Lemma nm_set_keys_elem m k v k' : k' ∈ (nm_set m k v).*1 <-> k' = k \/ k' ∈ m.*1.
Proof.
  destruct (decide (k ∈ m.*1)) as [Hin|Hnin].
  - rewrite nm_set_keys_in by done. split; [tauto|]. intros [->|?]; done.
  - rewrite nm_set_notin by done. rewrite fmap_app, elem_of_app. simpl.
    rewrite list_elem_of_singleton. tauto.
Qed.

Lemma nm_set_NoDup m k v : NoDup m.*1 -> NoDup (nm_set m k v).*1.
Proof.
  intros Hnd. destruct (decide (k ∈ m.*1)) as [Hin|Hnin].
  - by rewrite nm_set_keys_in.
  - rewrite nm_set_notin by done. rewrite fmap_app. apply NoDup_app.
    split; [done|]. split; [|apply NoDup_singleton].
    intros k' Hk' Hk. simpl in Hk. apply list_elem_of_singleton in Hk. congruence.
Qed.

(** ** Scanning for a free lane *)

Definition claimed (laneAllocation : gmap Z (option string)) (l : Z) : Prop :=
  exists s, laneAllocation !! l = Some (Some s).

Lemma lane_is_free_false la l : lane_is_free la l = false <-> claimed la l.
Proof.
  unfold lane_is_free, claimed. destruct (la !! l) as [[s|]|]; split; try done.
  - eauto.
  - intros [s ?]. done.
  - intros [s ?]. done.
Qed.

Lemma lane_is_free_true la l : lane_is_free la l = true <-> ~ claimed la l.
Proof.
  rewrite <- lane_is_free_false. destruct (lane_is_free la l); split; congruence.
Qed.

(** What the scan returns: the first unclaimed index from [l0] on. *)
Lemma first_free_lane_spec fuel la l0 l :
  first_free_lane fuel la l0 = Some l ->
  l0 <= l /\ ~ claimed la l /\ forall j, l0 <= j < l -> claimed la j.
Proof.
  revert l0. induction fuel as [|fuel IH]; intros l0; simpl; [done|].
  destruct (lane_is_free la l0) eqn:E.
  - intros [= <-]. split; [lia|]. split; [by apply lane_is_free_true|]. lia.
  - intros H. apply IH in H as (Hle & Hfree & Hbelow).
    split; [lia|]. split; [done|]. intros j Hj.
    destruct (decide (j = l0)) as [->|Hne]; [by apply lane_is_free_false|].
    apply Hbelow. lia.
Qed.

Lemma first_free_lane_delete fuel la l j :
  j < l -> first_free_lane fuel (delete j la) l = first_free_lane fuel la l.
Proof.
  revert l. induction fuel as [|fuel IH]; intros l Hj; simpl; [done|].
  rewrite IH by lia. unfold lane_is_free.
  rewrite lookup_delete_ne by lia. done.
Qed.

(** The scan ends: among more indices than claims, one is unclaimed. *)
Lemma first_free_lane_total fuel la l0 :
  (size la < fuel)%nat -> is_Some (first_free_lane fuel la l0).
Proof.
  revert la l0. induction fuel as [|fuel IH]; intros la l0 Hsz; [lia|]. simpl.
  destruct (lane_is_free la l0) eqn:E; [by eexists|].
  apply lane_is_free_false in E as [s Hs].
  rewrite <- (first_free_lane_delete fuel la (l0 + 1) l0) by lia.
  apply IH. erewrite map_size_delete_Some by done. 
  assert (size la <> 0%nat); [|lia].
  apply map_size_ne_0_lookup_2 with l0. by eexists.
Qed.

Lemma first_free_lane_contiguous fuel la (K : nat) l0 :
  (forall l, 0 <= l < Z.of_nat K -> claimed la l) ->
  la !! Z.of_nat K = None ->
  0 <= l0 <= Z.of_nat K ->
  (Z.to_nat (Z.of_nat K - l0) < fuel)%nat ->
  first_free_lane fuel la l0 = Some (Z.of_nat K).
Proof.
  intros Hcl Hfree. revert l0. induction fuel as [|fuel IH]; intros l0 Hl0 Hfuel; [lia|].
  simpl. destruct (decide (l0 = Z.of_nat K)) as [->|Hne].
  - unfold lane_is_free. by rewrite Hfree.
  - assert (lane_is_free la l0 = false) as ->.
    { apply lane_is_free_false, Hcl. lia. }
    apply IH; lia.
Qed.

(** ** Invariant of the lane-assignment pass *)

(** [lane_inv ranks o processed K st]: after the nodes [processed], the
    claimed lanes are exactly [0 .. K-1], and [nodeMap] holds one entry
    per id seen, rendered from the last node processed under that id. *)
Record lane_inv (ranks : gmap string Z) (o : LayoutOrientation)
    (processed : list WorkflowNode) (K : nat)
    (st : list (string * RenderedNode) * gmap Z (option string)) : Prop := {
  inv_nodup : NoDup st.1.*1;
  inv_keys : forall k, k ∈ st.1.*1 <-> k ∈ id <$> processed;
  inv_entry : forall k rn, (k, rn) ∈ st.1 ->
      id (base rn) = k /\ base rn ∈ processed /\ 0 <= lane rn < Z.of_nat K /\
      exists rank, ranks !! k = Some rank /\ rn = render o rank (lane rn) (base rn);
  inv_bound : (K <= length processed)%nat;
  inv_claimed : forall l, 0 <= l < Z.of_nat K -> claimed st.2 l;
  inv_unclaimed : forall l, ~ (0 <= l < Z.of_nat K) -> st.2 !! l = None
}.

Lemma lane_inv_init ranks o : lane_inv ranks o [] 0 ([], ∅).
Proof.
  split; simpl.
  - apply NoDup_nil_2.
  - done.
  - intros k rn H. by apply elem_of_nil in H.
  - lia.
  - intros l Hl. lia.
  - intros l _. apply lookup_empty.
Qed.

Lemma inherit_lane_cases nodeMap la node :
  inherit_lane nodeMap la node = -1 \/
  exists p ps P, parentIds node = p :: ps /\ nm_get nodeMap p = Some P
                 /\ la !! lane P = Some (Some (id (base P)))
                 /\ inherit_lane nodeMap la node = lane P.
Proof.
  unfold inherit_lane. destruct (parentIds node) as [|p ps]; [by left|].
  destruct (nm_get nodeMap p) as [P|] eqn:E; [|by left].
  destruct (decide (la !! lane P = Some (Some (id (base P))))); [|by left].
  right. by exists p, ps, P.
Qed.

Lemma choose_lane_range fuel ranks o processed K st node l :
  lane_inv ranks o processed K st ->
  choose_lane fuel st.1 st.2 node = Some l ->
  0 <= l <= Z.of_nat K.
Proof.
  intros Hinv. unfold choose_lane.
  destruct (decide (inherit_lane st.1 st.2 node = -1)) as [_|Hne].
  - intros H. apply first_free_lane_spec in H as (H0 & Hfree & Hbelow).
    split; [done|]. destruct (Z.le_gt_cases l (Z.of_nat K)) as [|Hgt]; [done|].
    destruct (Hbelow (Z.of_nat K)) as [s Hs]; [lia|].
    rewrite (inv_unclaimed _ _ _ _ _ Hinv) in Hs by lia. done.
  - destruct (inherit_lane_cases st.1 st.2 node) as [?|(p & ps & P & _ & HP & _ & ->)]; [done|].
    intros [= <-].
    apply nm_get_elem in HP. apply (inv_entry _ _ _ _ _ Hinv) in HP. lia.
Qed.

Lemma choose_lane_total fuel ranks o processed K st node :
  lane_inv ranks o processed K st -> (K < fuel)%nat ->
  is_Some (choose_lane fuel st.1 st.2 node).
Proof.
  intros Hinv Hfuel. unfold choose_lane.
  destruct (decide (inherit_lane st.1 st.2 node = -1)); [|by eexists].
  exists (Z.of_nat K).
  apply first_free_lane_contiguous; [apply Hinv| |lia|lia].
  apply (inv_unclaimed _ _ _ _ _ Hinv). lia.
Qed.

Lemma claimed_insert la l s l' :
  claimed la l' -> claimed (<[l := Some s]> la) l'.
Proof.
  intros [s' Hs']. unfold claimed. destruct (decide (l = l')) as [->|Hne].
  - rewrite lookup_insert_eq. eauto.
  - rewrite lookup_insert_ne by done. eauto.
Qed.

(** Lane width after a node took lane [l]. *)
Definition next_width (K : nat) (l : Z) : nat :=
  if decide (l = Z.of_nat K) then S K else K.

Lemma lane_inv_extend ranks o processed K st node rank l :
  lane_inv ranks o processed K st ->
  ranks !! id node = Some rank ->
  0 <= l <= Z.of_nat K ->
  lane_inv ranks o (processed ++ [node]) (next_width K l)
    (nm_set st.1 (id node) (render o rank l node), <[l := Some (id node)]> st.2).
Proof.
  intros Hinv Hrank Hrange.
  assert (0 <= l < Z.of_nat (next_width K l)) as Hl'.
  { unfold next_width. destruct (decide (l = Z.of_nat K)); lia. }
  assert (K <= next_width K l <= S K)%nat as HK'.
  { unfold next_width. destruct (decide (l = Z.of_nat K)); lia. }
  split; simpl.
  - apply nm_set_NoDup, Hinv.
  - intros k. rewrite nm_set_keys_elem, fmap_app, elem_of_app. simpl.
    rewrite list_elem_of_singleton, (inv_keys _ _ _ _ _ Hinv). tauto.
  - intros k rn Hin. apply nm_set_elem in Hin as [[= -> ->]|Hin].
    + simpl. split; [done|]. split; [apply elem_of_app; right; by apply list_elem_of_singleton|].
      split; [done|]. by exists rank.
    + apply (inv_entry _ _ _ _ _ Hinv) in Hin as (? & ? & ? & ?).
      split; [done|]. split; [apply elem_of_app; by left|]. split; [lia|done].
  - rewrite length_app. simpl. pose proof (inv_bound _ _ _ _ _ Hinv). lia.
  - intros l' Hl'range. destruct (decide (l = l')) as [->|Hne].
    + exists (id node). apply lookup_insert_eq.
    + apply claimed_insert, (inv_claimed _ _ _ _ _ Hinv).
      unfold next_width in Hl'range. destruct (decide (l = Z.of_nat K)); lia.
  - intros l' Hout. rewrite lookup_insert_ne by lia.
    apply (inv_unclaimed _ _ _ _ _ Hinv). lia.
Qed.

Lemma next_width_bounds K l : (K <= next_width K l <= S K)%nat.
Proof. unfold next_width. destruct (decide (l = Z.of_nat K)); lia. Qed.

(** A step that succeeds keeps the invariant. *)
Lemma lane_step_preserves fuel ranks o processed K st node st' :
  lane_inv ranks o processed K st ->
  lane_step fuel ranks o st node = Some st' ->
  exists l rank,
    ranks !! id node = Some rank
    /\ choose_lane fuel st.1 st.2 node = Some l
    /\ st' = (nm_set st.1 (id node) (render o rank l node), <[l := Some (id node)]> st.2)
    /\ lane_inv ranks o (processed ++ [node]) (next_width K l) st'.
Proof.
  intros Hinv. unfold lane_step.
  destruct (ranks !! id node) as [rank|] eqn:Hrank; simpl; [|done].
  destruct (choose_lane fuel st.1 st.2 node) as [l|] eqn:Hl; simpl; [|done].
  intros [= <-]. exists l, rank. split; [done|]. split; [done|]. split; [done|].
  apply lane_inv_extend; [done|done|].
  by eapply choose_lane_range.
Qed.

(** With a rank and enough fuel a step succeeds. *)
Lemma lane_step_total fuel ranks o processed K st node :
  lane_inv ranks o processed K st ->
  is_Some (ranks !! id node) ->
  (K < fuel)%nat ->
  is_Some (lane_step fuel ranks o st node).
Proof.
  intros Hinv [rank Hrank] Hfuel.
  destruct (choose_lane_total fuel ranks o processed K st node Hinv Hfuel) as [l Hl].
  unfold lane_step. rewrite Hrank. simpl. rewrite Hl. simpl. by eexists.
Qed.

Lemma lane_pass_preserves fuel ranks o l :
  forall processed K st st',
    lane_inv ranks o processed K st ->
    lane_pass fuel ranks o st l = Some st' ->
    exists K', lane_inv ranks o (processed ++ l) K' st' /\ (K <= K')%nat.
Proof.
  induction l as [|n l IH]; intros processed K st st' Hinv; simpl.
  - intros [= <-]. exists K. by rewrite app_nil_r.
  - destruct (lane_step fuel ranks o st n) as [st1|] eqn:Hstep; simpl; [|done].
    intros Hpass.
    apply (lane_step_preserves _ _ _ _ _ _ _ _ Hinv) in Hstep
      as (a & rank & _ & _ & _ & Hinv1).
    destruct (IH _ _ _ _ Hinv1 Hpass) as (K' & Hinv' & HK').
    exists K'. rewrite <- app_assoc in Hinv'. split; [done|].
    pose proof (next_width_bounds K a). lia.
Qed.

(** Every state reached from the empty one satisfies the invariant. *)
Lemma lane_pass_reachable fuel ranks o processed st :
  lane_pass fuel ranks o ([], ∅) processed = Some st ->
  exists K, lane_inv ranks o processed K st.
Proof.
  intros H.
  destruct (lane_pass_preserves fuel ranks o processed [] 0%nat _ _
              (lane_inv_init ranks o) H) as (K & Hinv & _).
  by exists K.
Qed.

Lemma lane_pass_total fuel ranks o l :
  forall processed K st,
    lane_inv ranks o processed K st ->
    (forall n, n ∈ l -> is_Some (ranks !! id n)) ->
    (K + length l <= fuel)%nat ->
    exists st' K',
      lane_pass fuel ranks o st l = Some st'
      /\ lane_inv ranks o (processed ++ l) K' st'
      /\ (K <= K' <= K + length l)%nat.
Proof.
  induction l as [|n l IH]; intros processed K st Hinv Hranks Hfuel; simpl.
  - exists st, K. rewrite app_nil_r. split; [done|]. split; [done|lia].
  - simpl in Hfuel.
    destruct (lane_step_total fuel ranks o processed K st n Hinv) as [st1 Hstep].
    { apply Hranks, elem_of_cons. by left. }
    { lia. }
    rewrite Hstep. simpl.
    apply (lane_step_preserves _ _ _ _ _ _ _ _ Hinv) in Hstep
      as (a & rank & _ & _ & _ & Hinv1).
    pose proof (next_width_bounds K a) as HK1.
    destruct (IH (processed ++ [n]) _ _ Hinv1) as (st' & K' & -> & Hinv' & HK').
    + intros m Hm. apply Hranks. apply elem_of_cons. by right.
    + lia.
    + exists st', K'. split; [done|]. rewrite <- app_assoc in Hinv'. split; [done|lia].
Qed.

(** Every prefix of the pass ends in a state satisfying the invariant. *)
Lemma lane_pass_prefix fuel ranks o pre post :
  (forall n, n ∈ pre ++ post -> is_Some (ranks !! id n)) ->
  (length (pre ++ post) <= fuel)%nat ->
  exists st K,
    lane_pass fuel ranks o ([], ∅) pre = Some st /\ lane_inv ranks o pre K st.
Proof.
  intros Hranks Hfuel. rewrite length_app in Hfuel.
  destruct (lane_pass_total fuel ranks o pre [] 0%nat ([], ∅) (lane_inv_init ranks o))
    as (st & K & Hst & Hinv & _).
  - intros n Hn. apply Hranks, elem_of_app. by left.
  - lia.
  - by exists st, K.
Qed.

(** ** calculateLayout returns *)

Definition layout_of (o : LayoutOrientation) (innerWidth innerHeight : Z)
    (nodeMap : list (string * RenderedNode)) : Layout :=
  {| nodes := nm_values nodeMap;
     edges := concat (edges_of nodeMap <$> nm_values nodeMap);
     width := number_max
                (number_add (Math_max (x <$> nm_values nodeMap)) (node_extent_x o + 100))
                (Num innerWidth);
     height := number_max
                 (number_add (Math_max (y <$> nm_values nodeMap)) (node_extent_y o + 100))
                 (Num innerHeight) |}.

Lemma calculateLayout_total fuel innerWidth innerHeight input o :
  (length input + 2 <= fuel)%nat ->
  exists iterations ranks nodeMap la K,
    compute_ranks fuel input = Some (iterations, ranks)
    /\ (forall n, n ∈ input -> is_Some (ranks !! id n))
    /\ lane_pass fuel ranks o ([], ∅) (layoutNodes ranks (sortedNodes input))
       = Some (nodeMap, la)
    /\ lane_inv ranks o (layoutNodes ranks (sortedNodes input)) K (nodeMap, la)
    /\ calculateLayout fuel innerWidth innerHeight input o
       = Some (layout_of o innerWidth innerHeight nodeMap).
Proof.
  intros Hfuel.
  destruct (compute_ranks_total fuel input Hfuel) as (its & ranks & Hranks & _ & Hall).
  destruct (lane_pass_total fuel ranks o (layoutNodes ranks (sortedNodes input)) [] 0%nat
              ([], ∅) (lane_inv_init ranks o)) as ([nodeMap la] & K & Hpass & Hinv & _).
  - intros n Hn. apply Hall. by apply layoutNodes_elem in Hn.
  - rewrite layoutNodes_length. lia.
  - exists its, ranks, nodeMap, la, K. split; [done|]. split; [done|].
    split; [done|]. split; [done|].
    unfold calculateLayout. rewrite Hranks. simpl. rewrite Hpass. done.
Qed.

Lemma nm_values_elem nodeMap rn :
  rn ∈ nm_values nodeMap <-> exists k, (k, rn) ∈ nodeMap.
Proof.
  unfold nm_values. rewrite list_elem_of_fmap. split.
  - intros ([k v] & -> & Hin). by exists k.
  - intros (k & Hin). by exists (k, rn).
Qed.

(** C8. The coordinates of every rendered node: under vertical
    orientation x = lane * (NODE_WIDTH + GAP_X) + 50 and
    y = rank * (NODE_HEIGHT + GAP_Y) + 50; under horizontal orientation
    x = rank * H_GAP_X + 50 and y = lane * (H_NODE_HEIGHT + H_GAP_Y) + 50. *)
Theorem C8_coordinates fuel innerWidth innerHeight input o :
  (length input + 2 <= fuel)%nat ->
  exists iterations ranks L,
    compute_ranks fuel input = Some (iterations, ranks)
    /\ calculateLayout fuel innerWidth innerHeight input o = Some L
    /\ forall rn, rn ∈ nodes L ->
         exists rank,
           ranks !! id (base rn) = Some rank
           /\ (o = vertical ->
               x rn = lane rn * (NODE_WIDTH + GAP_X) + 50
               /\ y rn = rank * (NODE_HEIGHT + GAP_Y) + 50)
           /\ (o = horizontal ->
               x rn = rank * H_GAP_X + 50
               /\ y rn = lane rn * (H_NODE_HEIGHT + H_GAP_Y) + 50).
Proof.
  intros Hfuel.
  destruct (calculateLayout_total fuel innerWidth innerHeight input o Hfuel)
    as (its & ranks & nodeMap & la & K & Hranks & _ & _ & Hinv & HL).
  exists its, ranks, (layout_of o innerWidth innerHeight nodeMap).
  split; [done|]. split; [done|]. simpl.
  intros rn Hrn. apply nm_values_elem in Hrn as [k Hk].
  apply (inv_entry _ _ _ _ _ Hinv) in Hk as (<- & _ & _ & rank & Hrank & Hrn).
  exists rank. split; [done|].
  split; intros ->; rewrite Hrn; simpl; done.
Qed.

Lemma C8_witness_diamond :
  (length diamond + 2 <= 6)%nat /\
  exists iterations ranks L,
    compute_ranks 6 diamond = Some (iterations, ranks)
    /\ calculateLayout 6 800 600 diamond vertical = Some L
    /\ forall rn, rn ∈ nodes L ->
         exists rank,
           ranks !! id (base rn) = Some rank
           /\ (vertical = vertical ->
               x rn = lane rn * (NODE_WIDTH + GAP_X) + 50
               /\ y rn = rank * (NODE_HEIGHT + GAP_Y) + 50)
           /\ (vertical = horizontal ->
               x rn = rank * H_GAP_X + 50
               /\ y rn = lane rn * (H_NODE_HEIGHT + H_GAP_Y) + 50).
Proof.
  split; [simpl; lia|].
  apply (C8_coordinates 6 800 600 diamond vertical). simpl. lia.
Defined.

(** C9. On the empty node list, under any orientation, calculateLayout
    returns no node, no edge, and the viewport's width and height. *)
Theorem C9_empty_input fuel innerWidth innerHeight o :
  calculateLayout (S fuel) innerWidth innerHeight [] o
  = Some {| nodes := []; edges := [];
            width := Num innerWidth; height := Num innerHeight |}.
Proof. destruct fuel; reflexivity. Qed.

(** C3. When the node C is processed after the nodes [processed], its
    first listed parent P is in [nodeMap] and [laneAllocation] still
    names P at P's lane, then C gets P's lane. *)
Theorem C3_inherits_first_parent_lane fuel ranks o processed st C p ps P :
  lane_pass fuel ranks o ([], ∅) processed = Some st ->
  is_Some (ranks !! id C) ->
  parentIds C = p :: ps ->
  nm_get st.1 p = Some P ->
  st.2 !! lane P = Some (Some p) ->
  exists st' rC,
    lane_step fuel ranks o st C = Some st'
    /\ nm_get st'.1 (id C) = Some rC
    /\ base rC = C
    /\ lane rC = lane P
    /\ st'.2 !! lane P = Some (Some (id C)).
Proof.
  intros Hreach [rank Hrank] Hparents HP Hclaim.
  apply lane_pass_reachable in Hreach as [K Hinv].
  pose proof (nm_get_elem _ _ _ HP) as Hin.
  apply (inv_entry _ _ _ _ _ Hinv) in Hin as (Hid & _ & Hlane & _).
  assert (choose_lane fuel st.1 st.2 C = Some (lane P)) as Hchoose.
  { unfold choose_lane, inherit_lane. rewrite Hparents, HP, Hid.
    destruct (decide (st.2 !! lane P = Some (Some p))); [|done].
    rewrite decide_False by lia. done. }
  eexists _, _. unfold lane_step. rewrite Hrank. simpl. rewrite Hchoose. simpl.
  split; [done|]. simpl. rewrite nm_get_set, decide_True by done.
  split; [done|]. split; [done|]. split; [done|]. apply lookup_insert_eq.
Qed.

Definition diamond_ranks : gmap string Z :=
  <["D"%string := 2]> (<["C"%string := 1]> (<["B"%string := 1]> (<["A"%string := 0]> ∅))).

Definition rendered_A : RenderedNode := render vertical 0 0 (mk "A" 0 []).
Definition rendered_B : RenderedNode := render vertical 1 0 (mk "B" 1 ["A"%string]).

Lemma C3_witness_diamond_B :
  lane_pass 6 diamond_ranks vertical ([], ∅) [mk "A" 0 []]
    = Some ([("A"%string, rendered_A)], <[0 := Some "A"%string]> ∅)
  /\ exists st' rC,
       lane_step 6 diamond_ranks vertical
         ([("A"%string, rendered_A)], <[0 := Some "A"%string]> ∅)
         (mk "B" 1 ["A"%string]) = Some st'
       /\ nm_get st'.1 "B"%string = Some rC
       /\ base rC = mk "B" 1 ["A"%string]
       /\ lane rC = lane rendered_A
       /\ st'.2 !! lane rendered_A = Some (Some "B"%string).
Proof.
  assert (lane_pass 6 diamond_ranks vertical ([], ∅) [mk "A" 0 []]
          = Some ([("A"%string, rendered_A)], <[0 := Some "A"%string]> ∅)) as Hreach.
  { vm_compute. reflexivity. }
  split; [exact Hreach|].
  apply (C3_inherits_first_parent_lane 6 diamond_ranks vertical [mk "A" 0 []]
           ([("A"%string, rendered_A)], <[0 := Some "A"%string]> ∅)
           (mk "B" 1 ["A"%string]) "A"%string [] rendered_A Hreach).
  - exists 1. vm_compute. reflexivity.
  - reflexivity.
  - vm_compute. reflexivity.
  - vm_compute. reflexivity.
Defined.

(** Lane inheritance does not apply: no parent, a first parent not yet
    in [nodeMap], or a first parent no longer named at its lane. *)
Definition no_inheritance (st : list (string * RenderedNode) * gmap Z (option string))
    (node : WorkflowNode) : Prop :=
  match parentIds node with
  | [] => True
  | firstParentId :: _ =>
      match nm_get st.1 firstParentId with
      | None => True
      | Some firstParent =>
          st.2 !! lane firstParent <> Some (Some (id (base firstParent)))
      end
  end.

Lemma no_inheritance_inherit_lane st node :
  no_inheritance st node -> inherit_lane st.1 st.2 node = -1.
Proof.
  unfold no_inheritance, inherit_lane.
  destruct (parentIds node) as [|p ps]; [done|].
  destruct (nm_get st.1 p) as [P|]; [|done].
  intros H. by rewrite decide_False.
Qed.

(** C4. When inheritance does not apply, the node takes the smallest
    lane index from 0 that no node claims and becomes its claimant: all
    smaller indices are claimed, so lanes are packed from 0, and a freed
    ([null]) lane is taken before any index above it. *)
Theorem C4_fallback_takes_first_unclaimed_lane fuel ranks o st node :
  (size st.2 < fuel)%nat ->
  is_Some (ranks !! id node) ->
  no_inheritance st node ->
  exists l st' rn,
    lane_step fuel ranks o st node = Some st'
    /\ 0 <= l
    /\ ~ claimed st.2 l
    /\ (forall j, 0 <= j < l -> claimed st.2 j)
    /\ (forall f, 0 <= f -> st.2 !! f = Some None -> l <= f)
    /\ st'.2 = <[l := Some (id node)]> st.2
    /\ nm_get st'.1 (id node) = Some rn
    /\ base rn = node
    /\ lane rn = l.
Proof.
  intros Hfuel [rank Hrank] Hno.
  destruct (first_free_lane_total fuel st.2 0 Hfuel) as [l Hl].
  pose proof (first_free_lane_spec _ _ _ _ Hl) as (H0 & Hfree & Hbelow).
  assert (choose_lane fuel st.1 st.2 node = Some l) as Hchoose.
  { unfold choose_lane. rewrite no_inheritance_inherit_lane by done.
    rewrite decide_True by done. done. }
  exists l. eexists _, _. unfold lane_step. rewrite Hrank. simpl. rewrite Hchoose. simpl.
  split; [done|]. split; [done|]. split; [done|]. split; [done|]. split.
  { intros f Hf Hnull. destruct (Z.le_gt_cases l f) as [|Hlt]; [done|].
    destruct (Hbelow f) as [s Hs]; [lia|]. congruence. }
  split; [done|]. simpl. rewrite nm_get_set, decide_True by done. done.
Qed.

Definition after_A_B : list (string * RenderedNode) * gmap Z (option string) :=
  ([("A"%string, rendered_A); ("B"%string, rendered_B)], <[0 := Some "B"%string]> ∅).

Lemma C4_witness_diamond_C :
  (size after_A_B.2 < 6)%nat
  /\ no_inheritance after_A_B (mk "C" 2 ["A"%string])
  /\ exists l st' rn,
       lane_step 6 diamond_ranks vertical after_A_B (mk "C" 2 ["A"%string]) = Some st'
       /\ 0 <= l
       /\ ~ claimed after_A_B.2 l
       /\ (forall j, 0 <= j < l -> claimed after_A_B.2 j)
       /\ (forall f, 0 <= f -> after_A_B.2 !! f = Some None -> l <= f)
       /\ st'.2 = <[l := Some "C"%string]> after_A_B.2
       /\ nm_get st'.1 "C"%string = Some rn
       /\ base rn = mk "C" 2 ["A"%string]
       /\ lane rn = l.
Proof.
  assert (size after_A_B.2 < 6)%nat as Hsize.
  { vm_compute. lia. }
  assert (no_inheritance after_A_B (mk "C" 2 ["A"%string])) as Hno.
  { vm_compute. discriminate. }
  split; [exact Hsize|]. split; [exact Hno|].
  apply (C4_fallback_takes_first_unclaimed_lane 6 diamond_ranks vertical after_A_B
           (mk "C" 2 ["A"%string]) Hsize).
  - exists 1. vm_compute. reflexivity.
  - exact Hno.
Defined.

Example after_A_B_reached :
  lane_pass 6 diamond_ranks vertical ([], ∅) [mk "A" 0 []; mk "B" 1 ["A"%string]]
  = Some after_A_B.
Proof. vm_compute. reflexivity. Qed.

(** A freed lane between two claimed ones is taken first. *)
Example freed_lane_reused :
  choose_lane 6 [] (<[2 := Some "c"%string]> (<[1 := None]> (<[0 := Some "a"%string]> ∅)))
    (mk "n" 0 []) = Some 1.
Proof. vm_compute. reflexivity. Qed.

(** ** One rendered node per id *)

Lemma lane_color_is_Some l : 0 <= l -> is_Some (lane_color l).
Proof.
  intros Hl. unfold lane_color.
  assert (0 <= Z.rem l (Z.of_nat (length COLORS)) < Z.of_nat (length COLORS)) as Hrem.
  { apply Z.rem_bound_pos; [done|]. simpl. lia. }
  destruct (Z.ltb_spec (Z.rem l (Z.of_nat (length COLORS))) 0); [lia|].
  apply lookup_lt_is_Some_2. lia.
Qed.

Lemma node_color_is_Some l s : 0 <= l -> is_Some (node_color l s).
Proof.
  intros Hl. destruct s; simpl; try (by eexists); by apply lane_color_is_Some.
Qed.

Lemma NoDup_fmap_eq {A B} (f : A -> B) (l : list A) a b :
  NoDup (f <$> l) -> a ∈ l -> b ∈ l -> f a = f b -> a = b.
Proof.
  induction l as [|c l IH]; simpl; intros Hnd Ha Hb Hab.
  - by apply elem_of_nil in Ha.
  - apply NoDup_cons in Hnd as [Hc Hnd].
    apply elem_of_cons in Ha as [->|Ha]; apply elem_of_cons in Hb as [->|Hb].
    + done.
    + exfalso. apply Hc. rewrite Hab. by apply list_elem_of_fmap_2.
    + exfalso. apply Hc. rewrite <- Hab. by apply list_elem_of_fmap_2.
    + by apply IH.
Qed.

Lemma nm_values_ids nodeMap :
  (forall k rn, (k, rn) ∈ nodeMap -> id (base rn) = k) ->
  (fun rn => id (base rn)) <$> nm_values nodeMap = nodeMap.*1.
Proof.
  unfold nm_values. induction nodeMap as [|[k rn] m IH]; intros H; simpl; [done|].
  f_equal.
  - apply H. apply elem_of_cons. by left.
  - apply IH. intros k' rn' Hin. apply H. apply elem_of_cons. by right.
Qed.

Definition same_id_twice : list WorkflowNode :=
  [mk "a" 0 []; mk "a" 1 []]%string.

(** C6, as stated, fails on duplicate ids: two input nodes, one rendered. *)
Lemma C6_counterexample_duplicate_ids :
  exists L,
    calculateLayout 4 800 600 same_id_twice vertical = Some L
    /\ length (nodes L) = 1%nat
    /\ length same_id_twice = 2%nat.
Proof. eexists. split; [vm_compute; reflexivity|]. split; reflexivity. Qed.

(** C6 (amended). calculateLayout always returns, with exactly one
    RenderedNode per distinct input id, each built from an input node and
    carrying a rank, a lane from 0 up, coordinates and a color; when the
    input ids are pairwise distinct that is exactly one RenderedNode per
    input node. *)
Theorem C6_one_rendered_node_per_id fuel innerWidth innerHeight input o :
  (length input + 2 <= fuel)%nat ->
  exists iterations ranks L,
    compute_ranks fuel input = Some (iterations, ranks)
    /\ calculateLayout fuel innerWidth innerHeight input o = Some L
    /\ NoDup ((fun rn => id (base rn)) <$> nodes L)
    /\ (forall i, i ∈ (fun rn => id (base rn)) <$> nodes L <-> i ∈ id <$> input)
    /\ (forall rn, rn ∈ nodes L ->
          base rn ∈ input
          /\ 0 <= lane rn
          /\ exists rank c,
               ranks !! id (base rn) = Some rank
               /\ color rn = Some c
               /\ x rn = coord_x o rank (lane rn)
               /\ y rn = coord_y o rank (lane rn))
    /\ (NoDup (id <$> input) -> base <$> nodes L ≡ₚ input).
Proof.
  intros Hfuel.
  destruct (calculateLayout_total fuel innerWidth innerHeight input o Hfuel)
    as (its & ranks & nodeMap & la & K & Hranks & _ & _ & Hinv & HL).
  exists its, ranks, (layout_of o innerWidth innerHeight nodeMap).
  split; [done|]. split; [done|]. simpl.
  assert ((fun rn => id (base rn)) <$> nm_values nodeMap = nodeMap.*1) as Hids.
  { apply nm_values_ids. intros k rn Hin.
    by apply (inv_entry _ _ _ _ _ Hinv) in Hin as (? & _). }
  assert (forall i, i ∈ nodeMap.*1 <-> i ∈ id <$> input) as Hkeys.
  { intros i. rewrite (inv_keys _ _ _ _ _ Hinv i). simpl.
    rewrite !list_elem_of_fmap. split; intros (n & -> & Hn); exists n; split; try done.
    - by apply layoutNodes_elem in Hn.
    - by apply layoutNodes_elem. }
  assert (forall rn, rn ∈ nm_values nodeMap -> base rn ∈ input) as Hbase.
  { intros rn Hrn. apply nm_values_elem in Hrn as [k Hk].
    apply (inv_entry _ _ _ _ _ Hinv) in Hk as (_ & Hin & _).
    by apply layoutNodes_elem in Hin. }
  rewrite Hids. split; [apply Hinv|]. split; [done|]. split.
  - intros rn Hrn. split; [by apply Hbase|].
    apply nm_values_elem in Hrn as [k Hk].
    apply (inv_entry _ _ _ _ _ Hinv) in Hk as (<- & _ & Hlane & rank & Hrank & Hrn).
    split; [lia|].
    destruct (node_color_is_Some (lane rn) (status (base rn))) as [c Hc]; [lia|].
    exists rank, c. split; [done|]. rewrite Hrn. simpl. done.
  - intros Hnd. apply NoDup_Permutation; [|by apply (NoDup_fmap_1 id)|].
    + apply (NoDup_fmap_1 id). rewrite <- list_fmap_compose.
      change (id ∘ base) with (fun rn => id (base rn)). rewrite Hids. apply Hinv.
    + intros n. split.
      * intros (rn & -> & Hrn)%list_elem_of_fmap. by apply Hbase.
      * intros Hn.
        assert (id n ∈ (fun rn => id (base rn)) <$> nm_values nodeMap) as Hidn.
        { rewrite Hids. apply Hkeys. by apply list_elem_of_fmap_2. }
        apply list_elem_of_fmap in Hidn as (rn & Heq & Hrn).
        assert (base rn = n) as <-.
        { apply (NoDup_fmap_eq id input); [done|by apply Hbase|done|done]. }
        by apply list_elem_of_fmap_2.
Qed.

Lemma C6_witness_diamond :
  (length diamond + 2 <= 6)%nat /\
  exists iterations ranks L,
    compute_ranks 6 diamond = Some (iterations, ranks)
    /\ calculateLayout 6 800 600 diamond vertical = Some L
    /\ NoDup ((fun rn => id (base rn)) <$> nodes L)
    /\ (forall i, i ∈ (fun rn => id (base rn)) <$> nodes L <-> i ∈ id <$> diamond)
    /\ (forall rn, rn ∈ nodes L ->
          base rn ∈ diamond
          /\ 0 <= lane rn
          /\ exists rank c,
               ranks !! id (base rn) = Some rank
               /\ color rn = Some c
               /\ x rn = coord_x vertical rank (lane rn)
               /\ y rn = coord_y vertical rank (lane rn))
    /\ (NoDup (id <$> diamond) -> base <$> nodes L ≡ₚ diamond).
Proof.
  split; [simpl; lia|].
  apply (C6_one_rendered_node_per_id 6 800 600 diamond vertical). simpl. lia.
Defined.

(** ** Claimed lanes form an initial segment *)

(** C10. In the lane pass a claimed lane stays claimed (a step only
    overwrites a claimant), after every prefix of the pass the claimed
    lanes are exactly the indices 0 .. K-1 for some K at most the number
    of nodes processed, and every rendered node's lane is at least 0 and
    below the number of input nodes. *)
Theorem C10_lanes_contiguous_and_bounded fuel innerWidth innerHeight input o :
  (length input + 2 <= fuel)%nat ->
  exists iterations ranks L,
    compute_ranks fuel input = Some (iterations, ranks)
    /\ calculateLayout fuel innerWidth innerHeight input o = Some L
    /\ (forall pre post,
          layoutNodes ranks (sortedNodes input) = pre ++ post ->
          exists nodeMap la (K : nat),
            lane_pass fuel ranks o ([], ∅) pre = Some (nodeMap, la)
            /\ (K <= length pre)%nat
            /\ (forall l, claimed la l <-> 0 <= l < Z.of_nat K)
            /\ (forall l, is_Some (la !! l) -> claimed la l)
            /\ (forall node post', post = node :: post' ->
                  exists st',
                    lane_step fuel ranks o (nodeMap, la) node = Some st'
                    /\ forall l, claimed la l -> claimed st'.2 l))
    /\ (forall rn, rn ∈ nodes L -> 0 <= lane rn < Z.of_nat (length input)).
Proof.
  intros Hfuel.
  destruct (calculateLayout_total fuel innerWidth innerHeight input o Hfuel)
    as (its & ranks & nodeMap & la & K & Hranks & Hall & _ & Hinv & HL).
  exists its, ranks, (layout_of o innerWidth innerHeight nodeMap).
  split; [done|]. split; [done|]. split.
  - intros pre post Hsplit.
    assert (forall n, n ∈ pre ++ post -> is_Some (ranks !! id n)) as Hranked.
    { intros n Hn. rewrite <- Hsplit in Hn. apply Hall. by apply layoutNodes_elem in Hn. }
    assert (length (pre ++ post) <= fuel)%nat as Hlen.
    { rewrite <- Hsplit, layoutNodes_length. lia. }
    destruct (lane_pass_prefix fuel ranks o pre post Hranked Hlen)
      as ([nodeMap' la'] & K' & Hpre & Hinv').
    exists nodeMap', la', K'. split; [done|].
    split; [apply Hinv'|].
    assert (forall l, claimed la' l <-> 0 <= l < Z.of_nat K') as Hcontig.
    { intros l. split; [|apply (inv_claimed _ _ _ _ _ Hinv')].
      intros [s Hs]. destruct (decide (0 <= l < Z.of_nat K')) as [|Hout]; [done|].
      apply (inv_unclaimed _ _ _ _ _ Hinv') in Hout. simpl in Hout. congruence. }
    split; [done|]. split.
    + intros l [v Hv]. apply Hcontig.
      destruct (decide (0 <= l < Z.of_nat K')) as [|Hout]; [done|].
      apply (inv_unclaimed _ _ _ _ _ Hinv') in Hout. simpl in Hout. congruence.
    + intros node post' ->.
      destruct (lane_step_total fuel ranks o pre K' (nodeMap', la') node Hinv')
        as [st' Hstep].
      * apply Hranked, elem_of_app. right. apply elem_of_cons. by left.
      * pose proof (inv_bound _ _ _ _ _ Hinv'). rewrite length_app in Hlen.
        simpl in Hlen. lia.
      * exists st'. split; [done|].
        apply (lane_step_preserves _ _ _ _ _ _ _ _ Hinv') in Hstep
          as (a & rank & _ & _ & -> & _).
        intros l Hl. simpl. by apply claimed_insert.
  - simpl. intros rn Hrn. apply nm_values_elem in Hrn as [k Hk].
    apply (inv_entry _ _ _ _ _ Hinv) in Hk as (_ & _ & Hlane & _).
    pose proof (inv_bound _ _ _ _ _ Hinv) as Hb.
    rewrite layoutNodes_length in Hb. lia.
Qed.

Lemma C10_witness_diamond :
  (length diamond + 2 <= 6)%nat /\
  exists iterations ranks L,
    compute_ranks 6 diamond = Some (iterations, ranks)
    /\ calculateLayout 6 800 600 diamond horizontal = Some L
    /\ (forall pre post,
          layoutNodes ranks (sortedNodes diamond) = pre ++ post ->
          exists nodeMap la (K : nat),
            lane_pass 6 ranks horizontal ([], ∅) pre = Some (nodeMap, la)
            /\ (K <= length pre)%nat
            /\ (forall l, claimed la l <-> 0 <= l < Z.of_nat K)
            /\ (forall l, is_Some (la !! l) -> claimed la l)
            /\ (forall node post', post = node :: post' ->
                  exists st',
                    lane_step 6 ranks horizontal (nodeMap, la) node = Some st'
                    /\ forall l, claimed la l -> claimed st'.2 l))
    /\ (forall rn, rn ∈ nodes L -> 0 <= lane rn < Z.of_nat (length diamond)).
Proof.
  split; [simpl; lia|].
  apply (C10_lanes_contiguous_and_bounded 6 800 600 diamond horizontal). simpl. lia.
Defined.

(** ** Status does not influence the layout *)

Definition same_except_status (a b : WorkflowNode) : Prop :=
  id a = id b /\ title a = title b /\ description a = description b
  /\ date a = date b /\ parentIds a = parentIds b.

Definition same_geometry (a b : RenderedNode) : Prop :=
  same_except_status (base a) (base b)
  /\ x a = x b /\ y a = y b /\ lane a = lane b.

Definition same_entry (a b : string * RenderedNode) : Prop :=
  a.1 = b.1 /\ same_geometry a.2 b.2.

Section StatusIndependence.
Context {A : Type} (R : A -> A -> Prop) (cmp1 cmp2 : A -> A -> Z).
Hypothesis cmp_rel :
  forall a a' b b', R a a' -> R b b' -> cmp1 a b = cmp2 a' b'.

Lemma sort_insert_rel a a' l l' :
  R a a' -> Forall2 R l l' ->
  Forall2 R (sort_insert cmp1 a l) (sort_insert cmp2 a' l').
Proof.
  intros Ha Hl. induction Hl as [|b b' l l' Hb Hl IH]; simpl.
  - by repeat constructor.
  - rewrite (cmp_rel a a' b b' Ha Hb).
    destruct (cmp2 a' b' <=? 0); by repeat constructor.
Qed.

Lemma stable_sort_rel l l' :
  Forall2 R l l' -> Forall2 R (stable_sort cmp1 l) (stable_sort cmp2 l').
Proof.
  induction 1 as [|a a' l l' Ha Hl IH]; simpl; [constructor|].
  by apply sort_insert_rel.
Qed.
End StatusIndependence.

Lemma sortedNodes_rel l l' :
  Forall2 same_except_status l l' ->
  Forall2 same_except_status (sortedNodes l) (sortedNodes l').
Proof.
  apply stable_sort_rel. intros a a' b b' (_ & _ & _ & Ha & _) (_ & _ & _ & Hb & _).
  unfold by_date. by rewrite Ha, Hb.
Qed.

Lemma layoutNodes_rel ranks l l' :
  Forall2 same_except_status l l' ->
  Forall2 same_except_status (layoutNodes ranks l) (layoutNodes ranks l').
Proof.
  apply stable_sort_rel. intros a a' b b' (Ha1 & _ & _ & Ha & _) (Hb1 & _ & _ & Hb & _).
  unfold by_rank_date. by rewrite Ha1, Hb1, Ha, Hb.
Qed.

Lemma rank_visit_rel st n n' :
  same_except_status n n' -> rank_visit st n = rank_visit st n'.
Proof.
  intros (Hid & _ & _ & _ & Hps). unfold rank_visit. by rewrite Hid, Hps.
Qed.

Lemma init_roots_rel l l' :
  Forall2 same_except_status l l' -> init_roots l = init_roots l'.
Proof.
  unfold init_roots. generalize (∅ : gmap string Z).
  intros g H. revert g. induction H as [|n n' l l' Hn Hl IH]; intros g; simpl; [done|].
  destruct Hn as (Hid & _ & _ & _ & Hps). rewrite Hid, Hps. apply IH.
Qed.

Lemma rank_pass_rel l l' ranks :
  Forall2 same_except_status l l' -> rank_pass l ranks = rank_pass l' ranks.
Proof.
  unfold rank_pass. generalize (ranks, false).
  intros st H. revert st. induction H as [|n n' l l' Hn Hl IH]; intros st; simpl; [done|].
  rewrite (rank_visit_rel st n n' Hn). apply IH.
Qed.

Lemma rank_while_rel fuel l l' maxIterations changed iterations ranks :
  Forall2 same_except_status l l' ->
  rank_while fuel l maxIterations changed iterations ranks
  = rank_while fuel l' maxIterations changed iterations ranks.
Proof.
  intros H. revert changed iterations ranks.
  induction fuel as [|fuel IH]; intros changed iterations ranks; simpl; [done|].
  rewrite (rank_pass_rel l l' ranks H).
  destruct (changed && (iterations <? maxIterations)%nat); [|done].
  destruct (rank_pass l' ranks). apply IH.
Qed.

Lemma rank_fallback_rel l l' index ranks :
  Forall2 same_except_status l l' ->
  rank_fallback l index ranks = rank_fallback l' index ranks.
Proof.
  intros H. revert index ranks.
  induction H as [|n n' l l' Hn Hl IH]; intros index ranks; simpl; [done|].
  destruct Hn as (Hid & _). rewrite Hid. apply IH.
Qed.

Lemma compute_ranks_rel fuel l l' :
  Forall2 same_except_status l l' -> compute_ranks fuel l = compute_ranks fuel l'.
Proof.
  intros H. unfold compute_ranks.
  pose proof (sortedNodes_rel l l' H) as Hs.
  rewrite (Forall2_length _ _ _ H), (init_roots_rel _ _ Hs), (rank_while_rel _ _ _ _ _ _ _ Hs).
  destruct (rank_while fuel (sortedNodes l') _ true 0 _) as [[i r]|]; simpl; [|done].
  by rewrite (rank_fallback_rel _ _ _ _ Hs).
Qed.

Lemma nm_get_rel m m' k :
  Forall2 same_entry m m' ->
  option_Forall2 same_geometry (nm_get m k) (nm_get m' k).
Proof.
  induction 1 as [|[k1 v1] [k2 v2] m m' [Hk Hv] Hm IH]; simpl; [constructor|].
  simpl in Hk, Hv. subst k2.
  destruct (decide (k1 = k)); [by constructor|done].
Qed.

Lemma nm_set_rel m m' k v v' :
  Forall2 same_entry m m' -> same_geometry v v' ->
  Forall2 same_entry (nm_set m k v) (nm_set m' k v').
Proof.
  intros Hm Hv. induction Hm as [|[k1 v1] [k2 v2] m m' [Hk Hv12] Hm IH]; simpl.
  - constructor; [by split|constructor].
  - simpl in Hk, Hv12. subst k2.
    destruct (decide (k1 = k)); constructor; try done; by split.
Qed.

Lemma inherit_lane_rel m m' la n n' :
  Forall2 same_entry m m' -> same_except_status n n' ->
  inherit_lane m la n = inherit_lane m' la n'.
Proof.
  intros Hm (_ & _ & _ & _ & Hps). unfold inherit_lane. rewrite Hps.
  destruct (parentIds n') as [|p ps]; [done|].
  destruct (nm_get_rel m m' p Hm) as [P P' ((HidP & _) & _ & _ & HlaneP)|]; [|done].
  by rewrite HidP, HlaneP.
Qed.

Definition same_state (a b : list (string * RenderedNode) * gmap Z (option string)) : Prop :=
  Forall2 same_entry a.1 b.1 /\ a.2 = b.2.

Lemma lane_step_rel fuel ranks o st st' n n' :
  same_state st st' -> same_except_status n n' ->
  option_Forall2 same_state (lane_step fuel ranks o st n) (lane_step fuel ranks o st' n').
Proof.
  intros [Hm Hla] Hn. unfold lane_step, choose_lane.
  rewrite (inherit_lane_rel _ _ st.2 n n' Hm Hn), Hla.
  destruct Hn as (Hid & Hrest). rewrite Hid.
  destruct (ranks !! id n') as [rank|]; simpl; [|constructor].
  destruct (if decide (inherit_lane st'.1 st'.2 n' = -1)
            then first_free_lane fuel st'.2 0
            else Some (inherit_lane st'.1 st'.2 n')) as [l|]; simpl; [|constructor].
  constructor. split; simpl; [|done].
  apply nm_set_rel; [done|]. repeat split; simpl; tauto.
Qed.

Lemma lane_pass_rel fuel ranks o l l' :
  Forall2 same_except_status l l' ->
  forall st st', same_state st st' ->
  option_Forall2 same_state (lane_pass fuel ranks o st l) (lane_pass fuel ranks o st' l').
Proof.
  induction 1 as [|n n' l l' Hn Hl IH]; intros st st' Hst; simpl; [by constructor|].
  destruct (lane_step_rel fuel ranks o st st' n n' Hst Hn) as [s s' Hs|]; simpl.
  - by apply IH.
  - constructor.
Qed.

Lemma nm_values_rel m m' :
  Forall2 same_entry m m' -> Forall2 same_geometry (nm_values m) (nm_values m').
Proof.
  unfold nm_values. induction 1 as [|e e' m m' [_ He] Hm IH]; simpl; by constructor.
Qed.

(** C7. Two node lists that differ at most in the status fields get the
    same ranks, and their rendered nodes agree, position by position, on
    id, lane, x and y. *)
Theorem C7_status_does_not_affect_layout fuel innerWidth innerHeight input1 input2 o :
  (length input1 + 2 <= fuel)%nat ->
  Forall2 same_except_status input1 input2 ->
  exists iterations ranks L1 L2,
    compute_ranks fuel input1 = Some (iterations, ranks)
    /\ compute_ranks fuel input2 = Some (iterations, ranks)
    /\ calculateLayout fuel innerWidth innerHeight input1 o = Some L1
    /\ calculateLayout fuel innerWidth innerHeight input2 o = Some L2
    /\ Forall2 (fun a b => id (base a) = id (base b) /\ lane a = lane b
                           /\ x a = x b /\ y a = y b)
         (nodes L1) (nodes L2).
Proof.
  intros Hfuel Hrel.
  destruct (calculateLayout_total fuel innerWidth innerHeight input1 o Hfuel)
    as (its & ranks & nodeMap1 & la1 & K1 & Hranks1 & _ & Hpass1 & _ & HL1).
  assert (length input2 + 2 <= fuel)%nat as Hfuel2.
  { rewrite <- (Forall2_length _ _ _ Hrel). done. }
  destruct (calculateLayout_total fuel innerWidth innerHeight input2 o Hfuel2)
    as (its2 & ranks2 & nodeMap2 & la2 & K2 & Hranks2 & _ & Hpass2 & _ & HL2).
  rewrite (compute_ranks_rel fuel input1 input2 Hrel), Hranks2 in Hranks1.
  injection Hranks1 as <- <-.
  exists its2, ranks2, (layout_of o innerWidth innerHeight nodeMap1),
    (layout_of o innerWidth innerHeight nodeMap2).
  rewrite <- (compute_ranks_rel fuel input1 input2 Hrel) in Hranks2.
  split; [done|]. split; [by rewrite <- (compute_ranks_rel fuel input1 input2 Hrel)|].
  split; [done|]. split; [done|]. simpl.
  assert (same_state (nodeMap1, la1) (nodeMap2, la2)) as [Hm _].
  { pose proof (lane_pass_rel fuel ranks2 o
                  (layoutNodes ranks2 (sortedNodes input1))
                  (layoutNodes ranks2 (sortedNodes input2))
                  (layoutNodes_rel ranks2 _ _ (sortedNodes_rel _ _ Hrel))
                  ([], ∅) ([], ∅)) as H.
    rewrite Hpass1, Hpass2 in H.
    assert (same_state ([], ∅) ([], ∅)) as H0 by (split; [constructor|done]).
    specialize (H H0). by inversion H. }
  simpl in Hm. apply nm_values_rel in Hm.
  eapply Forall2_impl; [exact Hm|].
  intros a b ((Hid & _) & Hx & Hy & Hlane). done.
Qed.

Definition diamond_other_status : list WorkflowNode :=
  [ {| id := "D"; title := ""; description := ""; date := 3;
       status := standby; parentIds := ["B"; "C"] |};
    {| id := "C"; title := ""; description := ""; date := 2;
       status := abandoned; parentIds := ["A"] |};
    {| id := "A"; title := ""; description := ""; date := 0;
       status := completed; parentIds := [] |};
    {| id := "B"; title := ""; description := ""; date := 1;
       status := active; parentIds := ["A"] |} ]%string.

Lemma C7_witness_diamond :
  (length diamond + 2 <= 6)%nat
  /\ Forall2 same_except_status diamond diamond_other_status
  /\ exists iterations ranks L1 L2,
       compute_ranks 6 diamond = Some (iterations, ranks)
       /\ compute_ranks 6 diamond_other_status = Some (iterations, ranks)
       /\ calculateLayout 6 800 600 diamond vertical = Some L1
       /\ calculateLayout 6 800 600 diamond_other_status vertical = Some L2
       /\ Forall2 (fun a b => id (base a) = id (base b) /\ lane a = lane b
                              /\ x a = x b /\ y a = y b)
            (nodes L1) (nodes L2).
Proof.
  assert (Forall2 same_except_status diamond diamond_other_status) as Hrel.
  { repeat (constructor; [repeat split|]). constructor. }
  split; [simpl; lia|]. split; [exact Hrel|].
  apply (C7_status_does_not_affect_layout 6 800 600 diamond diamond_other_status vertical);
    [simpl; lia|exact Hrel].
Defined.

(** ** The parent relation and its depth *)

Definition parent_of (input : list WorkflowNode) (p c : string) : Prop :=
  exists n, n ∈ input /\ id n = c /\ p ∈ parentIds n.

Definition acyclic (input : list WorkflowNode) : Prop :=
  forall i, ~ tc (parent_of input) i i.

Definition parents_present (input : list WorkflowNode) : Prop :=
  forall n p, n ∈ input -> p ∈ parentIds n -> p ∈ id <$> input.

(** [r] is one more than the greatest rank of the parents [ps]. *)
Definition one_plus_max_rank (ranks : gmap string Z) (ps : list string) (r : Z) : Prop :=
  (forall p, p ∈ ps -> exists rp, ranks !! p = Some rp /\ rp + 1 <= r)
  /\ (exists p rp, p ∈ ps /\ ranks !! p = Some rp /\ r = rp + 1).

Fixpoint node_with_id (input : list WorkflowNode) (i : string) : option WorkflowNode :=
  match input with
  | [] => None
  | n :: rest => if decide (id n = i) then Some n else node_with_id rest i
  end.

(** Length of the longest chain of parents above [i], cut at [fuel]. *)
Fixpoint depth (input : list WorkflowNode) (fuel : nat) (i : string) : nat :=
  match fuel with
  | O => O
  | S fuel' =>
      match node_with_id input i with
      | Some n =>
          match parentIds n with
          | [] => O
          | _ :: _ => S (max_list (depth input fuel' <$> parentIds n))
          end
      | None => O
      end
  end.

Inductive chain (input : list WorkflowNode) : list string -> Prop :=
  | chain_one i : chain input [i]
  | chain_cons c p l :
      parent_of input p c -> chain input (p :: l) -> chain input (c :: p :: l).

Lemma node_with_id_Some input i n :
  node_with_id input i = Some n -> n ∈ input /\ id n = i.
Proof.
  induction input as [|m rest IH]; simpl; [done|].
  destruct (decide (id m = i)) as [Hm|Hm].
  - intros [= ->]. split; [apply elem_of_cons; by left|done].
  - intros H. apply IH in H as [? ?]. split; [apply elem_of_cons; by right|done].
Qed.

Lemma node_with_id_unique input n :
  NoDup (id <$> input) -> n ∈ input -> node_with_id input (id n) = Some n.
Proof.
  induction input as [|m rest IH]; simpl; intros Hnd Hn.
  - by apply elem_of_nil in Hn.
  - apply NoDup_cons in Hnd as [Hm Hnd].
    apply elem_of_cons in Hn as [->|Hn].
    + by rewrite decide_True.
    + rewrite decide_False; [by apply IH|].
      intros Heq. apply Hm. rewrite Heq. by apply list_elem_of_fmap_2.
Qed.

Lemma depth_chain input fuel i :
  exists l, chain input (i :: l) /\ length l = depth input fuel i.
Proof.
  revert i. induction fuel as [|fuel IH]; intros i; simpl.
  - exists []. split; [constructor|done].
  - destruct (node_with_id input i) as [n|] eqn:Hn; [|exists []; split; [constructor|done]].
    destruct (parentIds n) as [|p0 ps] eqn:Hps; [exists []; split; [constructor|done]|].
    apply node_with_id_Some in Hn as [Hin Hid].
    assert (depth input fuel <$> p0 :: ps <> []) as Hne by done.
    apply max_list_elem_of in Hne.
    apply list_elem_of_fmap in Hne as (p & Hmax & Hp).
    destruct (IH p) as (l & Hchain & Hlen).
    exists (p :: l). split.
    + constructor; [|done]. exists n. rewrite Hps. done.
    + cbn [length]. rewrite Hlen, <- Hmax. done.
Qed.

Lemma chain_ancestors input c l :
  chain input (c :: l) -> forall a, a ∈ l -> tc (parent_of input) a c.
Proof.
  revert c. induction l as [|p l IH]; intros c Hchain a Ha.
  - by apply elem_of_nil in Ha.
  - inversion Hchain as [|c' p' l' Hpar Hrest]; subst.
    apply elem_of_cons in Ha as [->|Ha].
    + by apply tc_once.
    + eapply tc_r; [|exact Hpar]. by apply IH.
Qed.

Lemma chain_tail input c l : chain input (c :: l) -> l = [] \/ chain input l.
Proof. inversion 1; subst; [by left|by right]. Qed.

Lemma chain_NoDup input l : acyclic input -> chain input l -> NoDup l.
Proof.
  intros Hacyc. induction l as [|c l IH]; intros Hchain; [constructor|].
  apply NoDup_cons. split.
  - intros Hin. apply (Hacyc c). by apply (chain_ancestors input c l).
  - destruct (chain_tail _ _ _ Hchain) as [->|?]; [constructor|by apply IH].
Qed.

Lemma chain_present input c l :
  parents_present input -> chain input (c :: l) ->
  forall a, a ∈ l -> a ∈ id <$> input.
Proof.
  intros Hpres. revert c. induction l as [|p l IH]; intros c Hchain a Ha.
  - by apply elem_of_nil in Ha.
  - inversion Hchain as [|c' p' l' (n & Hn & _ & Hp) Hrest]; subst.
    apply elem_of_cons in Ha as [->|Ha]; [by apply (Hpres n)|].
    by apply (IH p).
Qed.

(** Without cycles a chain visits each id once, so it is short. *)
Lemma depth_lt input fuel i :
  acyclic input -> parents_present input -> i ∈ id <$> input ->
  (depth input fuel i < length input)%nat.
Proof.
  intros Hacyc Hpres Hi.
  destruct (depth_chain input fuel i) as (l & Hchain & <-).
  assert (length (i :: l) <= length (id <$> input))%nat as Hle.
  { apply submseteq_length, NoDup_submseteq; [by apply (chain_NoDup input)|].
    intros a Ha. apply elem_of_cons in Ha as [->|Ha]; [done|].
    by apply (chain_present input i l). }
  rewrite length_fmap in Hle. simpl in Hle. lia.
Qed.

Lemma depth_stable input fuel i :
  (depth input fuel i < fuel)%nat -> depth input (S fuel) i = depth input fuel i.
Proof.
  revert i. induction fuel as [|fuel IH]; intros i; [simpl; lia|].
  intros Hlt. change (depth input (S (S fuel)) i) with
    (match node_with_id input i with
     | Some n => match parentIds n with
                 | [] => O
                 | _ :: _ => S (max_list (depth input (S fuel) <$> parentIds n))
                 end
     | None => O
     end).
  simpl in Hlt |- *.
  destruct (node_with_id input i) as [n|]; [|done].
  destruct (parentIds n) as [|p0 ps] eqn:Hps; [done|].
  f_equal. f_equal. apply list_fmap_ext. intros k p Hp.
  apply IH. apply list_elem_of_lookup_2 in Hp.
  assert (depth input fuel p <= max_list (depth input fuel <$> p0 :: ps))%nat.
  { apply max_list_elem_of_le. by apply list_elem_of_fmap_2. }
  lia.
Qed.

(** ** What the root initialisation and the fallback write *)

Lemma init_roots_root l n :
  n ∈ l -> parentIds n = [] -> init_roots l !! id n = Some 0.
Proof.
  unfold init_roots. intros Hn Hroot.
  assert (forall acc : gmap string Z,
            acc !! id n = Some 0 \/ n ∈ l ->
            foldl (fun ranks node =>
                     match parentIds node with
                     | [] => <[id node := 0]> ranks
                     | _ :: _ => ranks
                     end) acc l !! id n = Some 0) as Hgen.
  { clear Hn. induction l as [|m l IH]; intros acc [Hacc|Hin]; simpl.
    - done.
    - by apply elem_of_nil in Hin.
    - apply IH. left. destruct (parentIds m); [|done].
      destruct (decide (id m = id n)) as [->|Hne].
      + apply lookup_insert_eq.
      + by rewrite lookup_insert_ne.
    - apply elem_of_cons in Hin as [<-|Hin]; apply IH; [left|by right].
      rewrite Hroot. apply lookup_insert_eq. }
  apply Hgen. by right.
Qed.

Lemma init_roots_inv l i r :
  init_roots l !! i = Some r ->
  r = 0 /\ exists n, n ∈ l /\ id n = i /\ parentIds n = [].
Proof.
  unfold init_roots.
  assert (forall acc : gmap string Z,
            foldl (fun ranks node =>
                     match parentIds node with
                     | [] => <[id node := 0]> ranks
                     | _ :: _ => ranks
                     end) acc l !! i = Some r ->
            acc !! i = Some r
            \/ (r = 0 /\ exists n, n ∈ l /\ id n = i /\ parentIds n = [])) as Hgen.
  { induction l as [|m l IH]; intros acc; simpl; [by left|].
    intros H. apply IH in H as [H|(-> & n & Hn & Hid & Hroot)].
    - destruct (parentIds m) as [|q qs] eqn:Hm; [|by left].
      destruct (decide (id m = i)) as [Heq|Hne].
      + rewrite <- Heq, lookup_insert_eq in H. injection H as <-.
        right. split; [done|]. exists m. split; [apply elem_of_cons; by left|done].
      + rewrite lookup_insert_ne in H by done. by left.
    - right. split; [done|]. exists n. split; [apply elem_of_cons; by right|done]. }
  intros H. apply Hgen in H as [H|H]; [|done]. by rewrite lookup_empty in H.
Qed.

Lemma rank_fallback_id sorted index ranks :
  (forall n, n ∈ sorted -> is_Some (ranks !! id n)) ->
  rank_fallback sorted index ranks = ranks.
Proof.
  revert index. induction sorted as [|n rest IH]; intros index Hall; simpl; [done|].
  destruct (Hall n) as [r ->]; [apply elem_of_cons; by left|].
  apply IH. intros m Hm. apply Hall, elem_of_cons. by right.
Qed.

(** The first node carrying an id without a rank gets its index. *)
Lemma rank_fallback_index sorted index ranks i n :
  sorted !! i = Some n ->
  ranks !! id n = None ->
  (forall j m, (j < i)%nat -> sorted !! j = Some m -> id m <> id n) ->
  rank_fallback sorted index ranks !! id n = Some (Z.of_nat (index + i)).
Proof.
  revert index ranks i. induction sorted as [|m rest IH]; intros index ranks i Hi Hnone Hfirst.
  - done.
  - destruct i as [|i]; simpl in Hi |- *.
    + injection Hi as ->. rewrite Hnone. apply rank_fallback_keep.
      rewrite lookup_insert_eq. f_equal. lia.
    + replace (index + S i)%nat with (S index + i)%nat by lia. apply IH.
      * done.
      * assert (id m <> id n) as Hne by (apply (Hfirst O m); [lia|done]).
        destruct (ranks !! id m); [done|]. by rewrite lookup_insert_ne.
      * intros j m' Hj Hm'. apply (Hfirst (S j) m'); [lia|done].
Qed.

(** ** Ranks of a well-formed input *)

Definition final_depth (input : list WorkflowNode) (i : string) : nat :=
  depth input (length input) i.

Section RankInvariant.
Variable input : list WorkflowNode.
Hypothesis Hnd : NoDup (id <$> input).
Hypothesis Hpres : parents_present input.
Hypothesis Hacyc : acyclic input.

Local Abbreviation D := (final_depth input).

Lemma D_unfold n :
  n ∈ input ->
  D (id n) = match parentIds n with
             | [] => O
             | _ :: _ => S (max_list (D <$> parentIds n))
             end.
Proof.
  intros Hn. unfold final_depth at 1.
  rewrite <- depth_stable.
  - simpl. by rewrite node_with_id_unique.
  - apply depth_lt; [done|done|]. by apply list_elem_of_fmap_2.
Qed.

Lemma D_lt n : n ∈ input -> (D (id n) < length input)%nat.
Proof.
  intros Hn. apply depth_lt; [done|done|]. by apply list_elem_of_fmap_2.
Qed.

Lemma D_parent n p :
  n ∈ input -> p ∈ parentIds n -> (D p < D (id n))%nat.
Proof.
  intros Hn Hp. rewrite (D_unfold n Hn).
  destruct (parentIds n) as [|p0 ps] eqn:Hps; [by apply elem_of_nil in Hp|].
  assert (D p <= max_list (D <$> p0 :: ps))%nat; [|lia].
  apply max_list_elem_of_le. by apply list_elem_of_fmap_2.
Qed.

Definition bounded (ranks : gmap string Z) : Prop :=
  forall i r, ranks !! i = Some r -> r <= Z.of_nat (D i).

Definition settled (ranks : gmap string Z) (i : string) : Prop :=
  ranks !! i = Some (Z.of_nat (D i)).

Definition settled_upto (k : nat) (ranks : gmap string Z) : Prop :=
  forall n, n ∈ input -> (D (id n) <= k)%nat -> settled ranks (id n).

Lemma scan_parents_bounded ranks ps :
  bounded ranks -> (scan_parents ranks ps).1 <= Z.max (-1) (Z.of_nat (max_list (D <$> ps))).
Proof.
  intros Hb. unfold scan_parents.
  assert (forall acc,
    (foldl (fun acc pid => match ranks !! pid with
                           | Some r => (Z.max acc.1 r, true)
                           | None => acc
                           end) acc ps).1
    <= Z.max acc.1 (Z.of_nat (max_list (D <$> ps)))) as Hgen; [|apply Hgen].
  induction ps as [|p ps IH]; intros acc.
  - simpl. lia.
  - cbn [foldl]. etransitivity; [apply IH|].
    change (max_list (D <$> p :: ps)) with (Nat.max (D p) (max_list (D <$> ps))).
    destruct (ranks !! p) as [r|] eqn:Hr; simpl; [|lia].
    apply Hb in Hr. lia.
Qed.

Lemma scan_parents_settled ranks ps :
  (forall p, p ∈ ps -> settled ranks p) -> ps <> [] ->
  scan_parents ranks ps = (Z.of_nat (max_list (D <$> ps)), true).
Proof.
  intros Hs Hne. unfold scan_parents.
  assert (forall acc,
    foldl (fun acc pid => match ranks !! pid with
                          | Some r => (Z.max acc.1 r, true)
                          | None => acc
                          end) acc ps
    = match ps with
      | [] => acc
      | _ :: _ => (Z.max acc.1 (Z.of_nat (max_list (D <$> ps))), true)
      end) as Hgen.
  { clear Hne. induction ps as [|p ps IH]; intros acc; [done|].
    cbn [foldl]. rewrite IH.
    2:{ intros q Hq. apply Hs, elem_of_cons. by right. }
    rewrite (Hs p) by (apply elem_of_cons; by left).
    change (max_list (D <$> p :: ps)) with (Nat.max (D p) (max_list (D <$> ps))).
    destruct ps as [|q ps]; simpl; f_equal; lia. }
  rewrite Hgen. destruct ps as [|p ps]; [done|]. simpl. f_equal. lia.
Qed.

Lemma rank_visit_cases (st : gmap string Z * bool) n :
  rank_visit st n = st
  \/ exists m, scan_parents st.1 (parentIds n) = (m, true)
               /\ parentIds n <> []
               /\ default (-1) (st.1 !! id n) < m + 1
               /\ rank_visit st n = (<[id n := m + 1]> st.1, true).
Proof.
  unfold rank_visit. destruct (parentIds n) as [|p0 ps] eqn:Hps; [by left|].
  destruct (scan_parents st.1 (p0 :: ps)) as [m h] eqn:Hscan.
  destruct h; [|by left].
  destruct (Z.ltb_spec (default (-1) (st.1 !! id n)) (m + 1)); [|by left].
  right. exists m. done.
Qed.

Lemma rank_visit_new_rank (st : gmap string Z * bool) n m :
  bounded st.1 -> n ∈ input ->
  scan_parents st.1 (parentIds n) = (m, true) -> parentIds n <> [] ->
  m + 1 <= Z.of_nat (D (id n)).
Proof.
  intros Hb Hn Hscan Hne.
  pose proof (scan_parents_bounded st.1 (parentIds n) Hb) as Hle.
  rewrite Hscan in Hle. simpl in Hle.
  rewrite (D_unfold n Hn). destruct (parentIds n) as [|p0 ps]; [done|]. lia.
Qed.

Lemma rank_visit_bounded (st : gmap string Z * bool) n :
  bounded st.1 -> n ∈ input -> bounded (rank_visit st n).1.
Proof.
  intros Hb Hn.
  destruct (rank_visit_cases st n) as [->|(m & Hscan & Hne & _ & ->)]; [done|].
  simpl. intros i r. destruct (decide (id n = i)) as [<-|Hi].
  - rewrite lookup_insert_eq. intros [= <-]. by apply (rank_visit_new_rank st).
  - rewrite lookup_insert_ne by done. apply Hb.
Qed.

Lemma rank_visit_settled (st : gmap string Z * bool) n i :
  bounded st.1 -> n ∈ input -> settled st.1 i -> settled (rank_visit st n).1 i.
Proof.
  intros Hb Hn Hi.
  destruct (rank_visit_cases st n) as [->|(m & Hscan & Hne & Hlt & ->)]; [done|].
  simpl. unfold settled. destruct (decide (id n = i)) as [<-|Hne'].
  - pose proof (rank_visit_new_rank st n m Hb Hn Hscan Hne).
    unfold settled in Hi. rewrite Hi in Hlt. simpl in Hlt. lia.
  - by rewrite lookup_insert_ne.
Qed.

Lemma rank_visit_settles (st : gmap string Z * bool) n :
  bounded st.1 -> n ∈ input -> parentIds n <> [] ->
  (forall p, p ∈ parentIds n -> settled st.1 p) ->
  settled (rank_visit st n).1 (id n).
Proof.
  intros Hb Hn Hne Hps.
  pose proof (scan_parents_settled st.1 (parentIds n) Hps Hne) as Hscan.
  assert (Z.of_nat (max_list (D <$> parentIds n)) + 1 = Z.of_nat (D (id n))) as HD.
  { rewrite (D_unfold n Hn). destruct (parentIds n); [done|]. lia. }
  unfold rank_visit. destruct (parentIds n) as [|p0 ps] eqn:Hpar; [done|].
  rewrite Hscan, HD.
  destruct (Z.ltb_spec (default (-1) (st.1 !! id n)) (Z.of_nat (D (id n)))) as [Hlt|Hge].
  - simpl. unfold settled. apply lookup_insert_eq.
  - unfold settled. destruct (st.1 !! id n) as [r|] eqn:Hr; simpl in Hge; [|lia].
    apply Hb in Hr as Hr'. f_equal. lia.
Qed.

Lemma rank_fold_bounded l (st : gmap string Z * bool) :
  (forall n, n ∈ l -> n ∈ input) -> bounded st.1 ->
  bounded (foldl rank_visit st l).1.
Proof.
  revert st. induction l as [|n l IH]; intros st Hl Hb; simpl; [done|].
  apply IH.
  - intros m Hm. apply Hl, elem_of_cons. by right.
  - apply rank_visit_bounded; [done|]. apply Hl, elem_of_cons. by left.
Qed.

Lemma rank_fold_settled l (st : gmap string Z * bool) i :
  (forall n, n ∈ l -> n ∈ input) -> bounded st.1 -> settled st.1 i ->
  settled (foldl rank_visit st l).1 i.
Proof.
  revert st. induction l as [|n l IH]; intros st Hl Hb Hi; simpl; [done|].
  assert (n ∈ input) as Hn by (apply Hl, elem_of_cons; by left).
  apply IH.
  - intros m Hm. apply Hl, elem_of_cons. by right.
  - by apply rank_visit_bounded.
  - by apply rank_visit_settled.
Qed.

Lemma rank_fold_unchanged l (st : gmap string Z * bool) :
  (foldl rank_visit st l).2 = false -> foldl rank_visit st l = st.
Proof.
  revert st. induction l as [|n l IH]; intros st; simpl; [done|].
  intros H. rewrite (IH _ H) in H |- *.
  destruct (rank_visit_cases st n) as [->|(m & _ & _ & _ & Heq)]; [done|].
  rewrite Heq in H. done.
Qed.

Lemma settled_upto_mono j k ranks :
  (j <= k)%nat -> settled_upto k ranks -> settled_upto j ranks.
Proof. intros Hjk Hk n Hn Hd. apply Hk; [done|lia]. Qed.

(** One pass settles the next depth. *)
Lemma rank_pass_settles sorted ranks k :
  (forall n, n ∈ sorted <-> n ∈ input) ->
  bounded ranks -> settled_upto k ranks ->
  settled_upto (S k) (rank_pass sorted ranks).1.
Proof.
  intros Hsorted Hb Hk n Hn Hd. unfold rank_pass.
  assert (forall m, m ∈ sorted -> m ∈ input) as Hsub by (intros m; apply Hsorted).
  destruct (decide (D (id n) <= k)%nat) as [Hle|Hgt].
  { apply rank_fold_settled; [done|done|]. by apply Hk. }
  assert (parentIds n <> []) as Hne.
  { intros Hroot. rewrite (D_unfold n Hn), Hroot in Hgt. lia. }
  apply Hsorted in Hn as Hn'.
  apply list_elem_of_split in Hn' as (l1 & l2 & Hsplit).
  rewrite Hsplit, foldl_app. simpl.
  assert (forall m, m ∈ l1 -> m ∈ input) as Hsub1.
  { intros m Hm. apply Hsub. rewrite Hsplit. apply elem_of_app. by left. }
  assert (forall m, m ∈ l2 -> m ∈ input) as Hsub2.
  { intros m Hm. apply Hsub. rewrite Hsplit. apply elem_of_app. right.
    apply elem_of_cons. by right. }
  pose proof (rank_fold_bounded l1 (ranks, false) Hsub1 Hb) as Hb1.
  apply rank_fold_settled; [done|by apply rank_visit_bounded|].
  apply rank_visit_settles; [done|done|done|].
  intros p Hp.
  pose proof (Hpres n p Hn Hp) as Hpin.
  apply list_elem_of_fmap in Hpin as (m & -> & Hm).
  apply rank_fold_settled; [done|done|].
  apply Hk; [done|]. pose proof (D_parent n (id m) Hn Hp). lia.
Qed.

Lemma rank_while_settles sorted maxIterations fuel :
  (forall n, n ∈ sorted <-> n ∈ input) ->
  forall changed iterations ranks iterations' ranks',
    bounded ranks ->
    settled_upto iterations ranks ->
    (changed = false -> forall k, settled_upto k ranks) ->
    rank_while fuel sorted maxIterations changed iterations ranks
      = Some (iterations', ranks') ->
    settled_upto maxIterations ranks'.
Proof.
  intros Hsorted.
  assert (forall m, m ∈ sorted -> m ∈ input) as Hsub by (intros m; apply Hsorted).
  induction fuel as [|fuel IH];
    intros changed iterations ranks iterations' ranks' Hb Hits Hfix; simpl.
  - destruct changed; simpl.
    + destruct (Nat.ltb_spec iterations maxIterations); [done|].
      intros [= <- <-]. by apply (settled_upto_mono _ iterations).
    + intros [= <- <-]. by apply Hfix.
  - destruct changed; simpl.
    + destruct (Nat.ltb_spec iterations maxIterations).
      * destruct (rank_pass sorted ranks) as [ranks1 changed1] eqn:Hpass.
        apply IH.
        -- change ranks1 with (ranks1, changed1).1. rewrite <- Hpass.
           by apply rank_fold_bounded.
        -- change ranks1 with (ranks1, changed1).1. rewrite <- Hpass.
           by apply rank_pass_settles.
        -- intros -> k.
           assert (rank_pass sorted ranks = (ranks, false)) as Hsame.
           { apply rank_fold_unchanged. unfold rank_pass in Hpass.
             by rewrite Hpass. }
           rewrite Hsame in Hpass. injection Hpass as <-.
           induction k as [|k IHk].
           ++ by apply (settled_upto_mono _ iterations); [lia|].
           ++ change ranks with (ranks, false).1. rewrite <- Hsame.
              by apply rank_pass_settles.
      * intros [= <- <-]. by apply (settled_upto_mono _ iterations).
    + intros [= <- <-]. by apply Hfix.
Qed.

Lemma init_roots_bounded sorted : bounded (init_roots sorted).
Proof. intros i r Hr. apply init_roots_inv in Hr as [-> _]. lia. Qed.

Lemma init_roots_settled sorted :
  (forall n, n ∈ sorted <-> n ∈ input) -> settled_upto 0 (init_roots sorted).
Proof.
  intros Hsorted n Hn Hd. unfold settled.
  assert (parentIds n = []) as Hroot.
  { rewrite (D_unfold n Hn) in Hd. destruct (parentIds n); [done|lia]. }
  rewrite init_roots_root; [|by apply Hsorted|done].
  f_equal. lia.
Qed.

(** The ranks computed for a well-formed input are the depths. *)
Lemma compute_ranks_settled fuel iterations ranks :
  compute_ranks fuel input = Some (iterations, ranks) ->
  forall n, n ∈ input -> settled ranks (id n).
Proof.
  unfold compute_ranks.
  destruct (rank_while fuel (sortedNodes input) (length input + 2) true 0
              (init_roots (sortedNodes input))) as [[its r]|] eqn:Hloop; simpl; [|done].
  intros [= <- <-].
  assert (forall n, n ∈ sortedNodes input <-> n ∈ input) as Hsorted
    by (intros n; apply sortedNodes_elem).
  assert (settled_upto (length input + 2) r) as Hall.
  { eapply (rank_while_settles _ _ _ Hsorted true 0%nat);
      [apply init_roots_bounded|by apply init_roots_settled|done|exact Hloop]. }
  assert (forall n, n ∈ input -> settled r (id n)) as Hset.
  { intros n Hn. apply Hall; [done|]. pose proof (D_lt n Hn). lia. }
  rewrite rank_fallback_id; [done|].
  intros n Hn. apply Hsorted in Hn. rewrite (Hset n Hn). by eexists.
Qed.
End RankInvariant.

(** Checkable forms of the two well-formedness conditions. *)
Lemma parents_present_check input :
  Forall (fun n => Forall (fun p => p ∈ id <$> input) (parentIds n)) input ->
  parents_present input.
Proof.
  intros H n p Hn Hp. rewrite Forall_forall in H.
  specialize (H n Hn). rewrite Forall_forall in H. by apply H.
Qed.

(** A numbering that grows from parent to child excludes cycles. *)
Lemma acyclic_check input (f : string -> nat) :
  Forall (fun n => Forall (fun p => (f p < f (id n))%nat) (parentIds n)) input ->
  acyclic input.
Proof.
  intros H.
  assert (forall a b, tc (parent_of input) a b -> (f a < f b)%nat) as Hlt.
  { intros a b Htc. induction Htc as [a b (n & Hn & <- & Hp)|a b c (n & Hn & <- & Hp) _ IH].
    - rewrite Forall_forall in H. specialize (H n Hn).
      rewrite Forall_forall in H. by apply H.
    - rewrite Forall_forall in H. specialize (H n Hn).
      rewrite Forall_forall in H. specialize (H a Hp). lia. }
  intros i Hi. apply Hlt in Hi. lia.
Qed.

Definition root_id_reused : list WorkflowNode :=
  [mk "a" 0 []; mk "b" 1 []; mk "a" 2 ["b"]]%string.

(** C1, as stated, fails when an id occurs twice: every parent is
    present and there is no cycle, yet a node without parents ends with
    rank 1. *)
Lemma C1_counterexample_duplicate_id :
  parents_present root_id_reused
  /\ acyclic root_id_reused
  /\ exists iterations ranks,
       compute_ranks 5 root_id_reused = Some (iterations, ranks)
       /\ mk "a" 0 [] ∈ root_id_reused
       /\ parentIds (mk "a" 0 []) = []
       /\ ranks !! id (mk "a" 0 []) = Some 1.
Proof.
  split; [|split].
  - apply parents_present_check. apply (bool_decide_unpack _). vm_compute. exact I.
  - apply (acyclic_check _ (fun i => if decide (i = "a"%string) then 1%nat else 0%nat)).
    apply (bool_decide_unpack _). vm_compute. exact I.
  - eexists _, _. split; [vm_compute; reflexivity|].
    split; [apply elem_of_cons; by left|]. split; [done|]. vm_compute. reflexivity.
Qed.

(** C1 (amended). When the ids are pairwise distinct, every listed parent
    id is the id of a node of the list and the parent relation has no
    cycle, every node without parents gets rank 0 and every other node
    gets one more than the greatest rank of its parents. *)
Theorem C1_rank_invariant fuel input :
  (length input + 2 <= fuel)%nat ->
  NoDup (id <$> input) ->
  parents_present input ->
  acyclic input ->
  exists iterations ranks,
    compute_ranks fuel input = Some (iterations, ranks)
    /\ forall n, n ∈ input ->
         match parentIds n with
         | [] => ranks !! id n = Some 0
         | _ :: _ =>
             exists r, ranks !! id n = Some r
                       /\ one_plus_max_rank ranks (parentIds n) r
         end.
Proof.
  intros Hfuel Hnd Hpres Hacyc.
  destruct (compute_ranks_total fuel input Hfuel) as (its & ranks & Hranks & _ & _).
  exists its, ranks. split; [done|].
  pose proof (compute_ranks_settled input Hnd Hpres Hacyc fuel its ranks Hranks) as Hset.
  intros n Hn. pose proof (Hset n Hn) as Hn_rank. unfold settled in Hn_rank.
  rewrite (D_unfold input Hnd Hpres Hacyc n Hn) in Hn_rank.
  destruct (parentIds n) as [|p0 ps] eqn:Hps; [done|].
  eexists. split; [exact Hn_rank|]. split.
  - intros p Hp.
    assert (p ∈ id <$> input) as Hpin by (apply (Hpres n); [done|by rewrite Hps]).
    apply list_elem_of_fmap in Hpin as (m & -> & Hm).
    eexists. split; [apply (Hset m Hm)|].
    assert (final_depth input (id m) <= max_list (final_depth input <$> p0 :: ps))%nat.
    { apply max_list_elem_of_le. by apply list_elem_of_fmap_2. }
    lia.
  - assert (final_depth input <$> p0 :: ps <> []) as Hne by done.
    apply max_list_elem_of in Hne.
    apply list_elem_of_fmap in Hne as (p & Hmax & Hp).
    assert (p ∈ id <$> input) as Hpin by (apply (Hpres n); [done|by rewrite Hps]).
    apply list_elem_of_fmap in Hpin as (m & -> & Hm).
    exists (id m). eexists. split; [done|]. split; [apply (Hset m Hm)|].
    rewrite Hmax. lia.
Qed.

Lemma C1_witness_diamond :
  (length diamond + 2 <= 6)%nat
  /\ NoDup (id <$> diamond)
  /\ parents_present diamond
  /\ acyclic diamond
  /\ exists iterations ranks,
       compute_ranks 6 diamond = Some (iterations, ranks)
       /\ forall n, n ∈ diamond ->
            match parentIds n with
            | [] => ranks !! id n = Some 0
            | _ :: _ =>
                exists r, ranks !! id n = Some r
                          /\ one_plus_max_rank ranks (parentIds n) r
            end.
Proof.
  assert (NoDup (id <$> diamond)) as Hnd.
  { apply (bool_decide_unpack _). vm_compute. exact I. }
  assert (parents_present diamond) as Hpres.
  { apply parents_present_check. apply (bool_decide_unpack _). vm_compute. exact I. }
  assert (acyclic diamond) as Hacyc.
  { apply (acyclic_check _ (final_depth diamond)).
    apply (bool_decide_unpack _). vm_compute. exact I. }
  split; [simpl; lia|]. split; [exact Hnd|]. split; [exact Hpres|]. split; [exact Hacyc|].
  apply (C1_rank_invariant 6 diamond); [simpl; lia|exact Hnd|exact Hpres|exact Hacyc].
Defined.

(** ** A node whose only parent is absent *)

Section DanglingParent.
Variable input : list WorkflowNode.
Variable n : WorkflowNode.
Variable p : string.
Hypothesis Hnd : NoDup (id <$> input).
Hypothesis Hn : n ∈ input.
Hypothesis Hps : parentIds n = [p].
Hypothesis Hp : p ∉ id <$> input.

(** Only ids of the input have ranks, and [n] has none. *)
Definition unranked (ranks : gmap string Z) : Prop :=
  (forall k, is_Some (ranks !! k) -> k ∈ id <$> input) /\ ranks !! id n = None.

Lemma init_roots_unranked sorted :
  (forall m, m ∈ sorted -> m ∈ input) -> unranked (init_roots sorted).
Proof.
  intros Hsub. split.
  - intros k [r Hr]. apply init_roots_inv in Hr as (_ & m & Hm & <- & _).
    apply list_elem_of_fmap_2. by apply Hsub.
  - destruct (init_roots sorted !! id n) as [r|] eqn:Hr; [|done].
    apply init_roots_inv in Hr as (_ & m & Hm & Hid & Hroot).
    assert (m = n) as -> by (apply (NoDup_fmap_eq id input); [done|by apply Hsub|done|done]).
    congruence.
Qed.

Lemma rank_visit_unranked (st : gmap string Z * bool) m :
  m ∈ input -> unranked st.1 -> unranked (rank_visit st m).1.
Proof.
  intros Hm [Hkeys Hnone].
  destruct (rank_visit_cases st m) as [->|(r & Hscan & _ & _ & ->)]; [done|].
  simpl. split.
  - intros k. destruct (decide (id m = k)) as [<-|Hne].
    + intros _. by apply list_elem_of_fmap_2.
    + rewrite lookup_insert_ne by done. apply Hkeys.
  - destruct (decide (id m = id n)) as [Heq|Hne].
    + assert (m = n) as -> by (by apply (NoDup_fmap_eq id input)).
      rewrite Hps in Hscan. unfold scan_parents in Hscan. simpl in Hscan.
      destruct (st.1 !! p) as [rp|] eqn:Hrp; [|done].
      exfalso. apply Hp, Hkeys. by eexists.
    + by rewrite lookup_insert_ne.
Qed.

Lemma rank_fold_unranked l (st : gmap string Z * bool) :
  (forall m, m ∈ l -> m ∈ input) -> unranked st.1 ->
  unranked (foldl rank_visit st l).1.
Proof.
  revert st. induction l as [|m l IH]; intros st Hsub Hst; simpl; [done|].
  apply IH.
  - intros m' Hm'. apply Hsub, elem_of_cons. by right.
  - apply rank_visit_unranked; [|done]. apply Hsub, elem_of_cons. by left.
Qed.

Lemma rank_while_unranked sorted maxIterations fuel :
  (forall m, m ∈ sorted -> m ∈ input) ->
  forall changed iterations ranks iterations' ranks',
    unranked ranks ->
    rank_while fuel sorted maxIterations changed iterations ranks
      = Some (iterations', ranks') ->
    unranked ranks'.
Proof.
  intros Hsub. induction fuel as [|fuel IH];
    intros changed iterations ranks iterations' ranks' Hst; simpl.
  - destruct (changed && (iterations <? maxIterations)%nat); [done|].
    by intros [= <- <-].
  - destruct (changed && (iterations <? maxIterations)%nat); [|by intros [= <- <-]].
    destruct (rank_pass sorted ranks) as [ranks1 changed1] eqn:Hpass.
    apply IH. change ranks1 with (ranks1, changed1).1. rewrite <- Hpass.
    by apply rank_fold_unranked.
Qed.

(** The fallback gives [n] its index in date order. *)
Lemma compute_ranks_dangling fuel iterations ranks i :
  sortedNodes input !! i = Some n ->
  compute_ranks fuel input = Some (iterations, ranks) ->
  ranks !! id n = Some (Z.of_nat i).
Proof.
  intros Hi. unfold compute_ranks.
  destruct (rank_while fuel (sortedNodes input) (length input + 2) true 0
              (init_roots (sortedNodes input))) as [[its r]|] eqn:Hloop; simpl; [|done].
  intros [= <- <-].
  assert (forall m, m ∈ sortedNodes input -> m ∈ input) as Hsub
    by (intros m; apply sortedNodes_elem).
  destruct (rank_while_unranked _ _ _ Hsub _ _ _ _ _
              (init_roots_unranked _ Hsub) Hloop) as [_ Hnone].
  apply (rank_fallback_index _ O); [done|done|].
  intros j m Hj Hm Heq.
  assert (NoDup (id <$> sortedNodes input)) as Hnd'.
  { unfold sortedNodes. by rewrite stable_sort_perm. }
  assert (j = i); [|lia].
  apply (NoDup_lookup (id <$> sortedNodes input) j i (id n)); [done| |].
  - rewrite list_lookup_fmap, Hm. simpl. by f_equal.
  - by rewrite list_lookup_fmap, Hi.
Qed.
End DanglingParent.

Definition dangling : list WorkflowNode :=
  [mk "r" 0 []; mk "n" 1 ["ghost"]]%string.

(** C5, as stated, fails: a node whose only parent is absent gets its
    index in date order, here 1. *)
Lemma C5_counterexample_rank_is_index :
  exists iterations ranks,
    compute_ranks 4 dangling = Some (iterations, ranks)
    /\ mk "n" 1 ["ghost"%string] ∈ dangling
    /\ ("ghost"%string ∉ id <$> dangling)
    /\ ranks !! id (mk "n" 1 ["ghost"%string]) = Some 1.
Proof.
  eexists _, _. split; [vm_compute; reflexivity|].
  split; [apply elem_of_cons; right; apply elem_of_cons; by left|].
  split; [|vm_compute; reflexivity].
  apply (bool_decide_unpack _). vm_compute. exact I.
Qed.

(** C5 (amended). With pairwise distinct ids, a node whose only parent
    id is the id of no node of the list gets as rank its index in date
    order (0 exactly when it sorts first), and pushes no edge. *)
Theorem C5_dangling_parent fuel innerWidth innerHeight input o n p i :
  (length input + 2 <= fuel)%nat ->
  NoDup (id <$> input) ->
  sortedNodes input !! i = Some n ->
  parentIds n = [p] ->
  p ∉ id <$> input ->
  exists iterations ranks nodeMap rn,
    compute_ranks fuel input = Some (iterations, ranks)
    /\ ranks !! id n = Some (Z.of_nat i)
    /\ calculateLayout fuel innerWidth innerHeight input o
       = Some (layout_of o innerWidth innerHeight nodeMap)
    /\ rn ∈ nodes (layout_of o innerWidth innerHeight nodeMap)
    /\ base rn = n
    /\ edges_of nodeMap rn = [].
Proof.
  intros Hfuel Hnd Hi Hps Hp.
  assert (n ∈ input) as Hn.
  { apply sortedNodes_elem. by apply list_elem_of_lookup_2 in Hi. }
  destruct (calculateLayout_total fuel innerWidth innerHeight input o Hfuel)
    as (its & ranks & nodeMap & la & K & Hranks & _ & _ & Hinv & HL).
  assert (id n ∈ nodeMap.*1) as Hkey.
  { apply (inv_keys _ _ _ _ _ Hinv). apply list_elem_of_fmap_2. by apply layoutNodes_elem. }
  destruct (nm_get nodeMap (id n)) as [rn|] eqn:Hget; [|by apply nm_get_None in Hget].
  apply nm_get_elem in Hget.
  pose proof (inv_entry _ _ _ _ _ Hinv _ _ Hget) as (Hid & Hbase & _).
  apply layoutNodes_elem in Hbase.
  assert (base rn = n) as Hrn by (by apply (NoDup_fmap_eq id input)).
  exists its, ranks, nodeMap, rn. split; [done|].
  split; [by apply (compute_ranks_dangling input n p Hnd Hn Hps Hp fuel its)|].
  split; [done|]. split; [simpl; apply nm_values_elem; by eexists|]. split; [done|].
  unfold edges_of. rewrite Hrn, Hps. simpl.
  assert (nm_get nodeMap p = None) as ->; [|done].
  apply nm_get_None. intros Hin. apply Hp.
  apply (inv_keys _ _ _ _ _ Hinv) in Hin. simpl in Hin.
  apply list_elem_of_fmap in Hin as (m & -> & Hm).
  apply list_elem_of_fmap_2. by apply layoutNodes_elem in Hm.
Qed.

Lemma C5_witness_dangling :
  (length dangling + 2 <= 4)%nat
  /\ NoDup (id <$> dangling)
  /\ sortedNodes dangling !! 1%nat = Some (mk "n" 1 ["ghost"%string])
  /\ ("ghost"%string ∉ id <$> dangling)
  /\ exists iterations ranks nodeMap rn,
       compute_ranks 4 dangling = Some (iterations, ranks)
       /\ ranks !! "n"%string = Some 1
       /\ calculateLayout 4 800 600 dangling vertical
          = Some (layout_of vertical 800 600 nodeMap)
       /\ rn ∈ nodes (layout_of vertical 800 600 nodeMap)
       /\ base rn = mk "n" 1 ["ghost"%string]
       /\ edges_of nodeMap rn = [].
Proof.
  assert (NoDup (id <$> dangling)) as Hnd.
  { apply (bool_decide_unpack _). vm_compute. exact I. }
  assert ("ghost"%string ∉ (id <$> dangling)) as Hp.
  { apply (bool_decide_unpack _). vm_compute. exact I. }
  split; [simpl; lia|]. split; [exact Hnd|]. split; [reflexivity|]. split; [exact Hp|].
  apply (C5_dangling_parent 4 800 600 dangling vertical (mk "n" 1 ["ghost"%string])
           "ghost"%string 1%nat);
    [simpl; lia|exact Hnd|reflexivity|reflexivity|exact Hp].
Defined.

(** ** The scenarios of the specification, evaluated *)

Definition summary (L : Layout) : list (string * Z * Z * Z) * nat * number * number :=
  ((fun rn => (id (base rn), lane rn, x rn, y rn)) <$> nodes L,
   length (edges L), width L, height L).

(** A, B and C children of A, D merging B and C: ranks 0, 1, 1, 2; B
    keeps A's lane, C opens lane 1, D follows B; four edges. *)
Example diamond_vertical :
  summary <$> calculateLayout 6 800 600 diamond vertical
  = Some ([("A", 0, 50, 50); ("B", 0, 50, 250); ("C", 1, 280, 250); ("D", 0, 50, 450)]%string,
          4%nat, Num 800, Num 630).
Proof. vm_compute. reflexivity. Qed.

Example diamond_horizontal :
  summary <$> calculateLayout 6 800 600 diamond horizontal
  = Some ([("A", 0, 50, 50); ("B", 0, 300, 50); ("C", 1, 300, 230); ("D", 0, 550, 50)]%string,
          4%nat, Num 850, Num 600).
Proof. vm_compute. reflexivity. Qed.

(** A single root: rank 0, lane 0, no edge, canvas of the viewport. *)
Example single_root :
  summary <$> calculateLayout 3 800 600 [mk "root" 0 []] vertical
  = Some ([("root"%string, 0, 50, 50)], 0%nat, Num 800, Num 600).
Proof. vm_compute. reflexivity. Qed.

(** The two nodes of a mutual-parent cycle get their date-order indices
    as ranks; the second inherits the lane of the first, and each is
    the other's parent, so two edges are drawn. *)
Example mutual_cycle_layout :
  summary <$> calculateLayout 4 800 600 mutual_cycle vertical
  = Some ([("a", 0, 50, 50); ("b", 0, 50, 250)]%string, 2%nat, Num 800, Num 600).
Proof. vm_compute. reflexivity. Qed.

(** * Further properties of the layout engine *)

(** ** Ranks are never negative *)

Definition ranks_nonneg (ranks : gmap string Z) : Prop :=
  forall i r, ranks !! i = Some r -> 0 <= r.

Lemma scan_parents_nonneg ranks pids m :
  ranks_nonneg ranks -> scan_parents ranks pids = (m, true) -> 0 <= m.
Proof.
  intros Hnn. unfold scan_parents.
  assert (forall acc : Z * bool,
            -1 <= acc.1 -> (acc.2 = true -> 0 <= acc.1) ->
            forall m, foldl (fun acc pid => match ranks !! pid with
                                            | Some r => (Z.max acc.1 r, true)
                                            | None => acc
                                            end) acc pids = (m, true) -> 0 <= m) as Hgen.
  { induction pids as [|p ps IH]; intros acc Hlow Hacc m'; simpl.
    - intros ->. by apply Hacc.
    - apply IH.
      + destruct (ranks !! p); simpl; lia.
      + destruct (ranks !! p) as [r|] eqn:Hr; simpl; [|done].
        intros _. apply Hnn in Hr. lia. }
  apply Hgen; simpl; [lia|done].
Qed.

Lemma rank_visit_nonneg (st : gmap string Z * bool) n :
  ranks_nonneg st.1 -> ranks_nonneg (rank_visit st n).1.
Proof.
  intros Hnn.
  destruct (rank_visit_cases st n) as [->|(m & Hscan & _ & _ & ->)]; [done|].
  simpl. intros i r. destruct (decide (id n = i)) as [<-|Hne].
  - rewrite lookup_insert_eq. intros [= <-].
    pose proof (scan_parents_nonneg _ _ _ Hnn Hscan). lia.
  - rewrite lookup_insert_ne by done. apply Hnn.
Qed.

Lemma rank_fold_nonneg l (st : gmap string Z * bool) :
  ranks_nonneg st.1 -> ranks_nonneg (foldl rank_visit st l).1.
Proof.
  revert st. induction l as [|n l IH]; intros st Hnn; simpl; [done|].
  by apply IH, rank_visit_nonneg.
Qed.

Lemma rank_while_nonneg fuel sorted maxIterations :
  forall changed iterations ranks iterations' ranks',
    ranks_nonneg ranks ->
    rank_while fuel sorted maxIterations changed iterations ranks
      = Some (iterations', ranks') ->
    ranks_nonneg ranks'.
Proof.
  induction fuel as [|fuel IH];
    intros changed iterations ranks iterations' ranks' Hnn; simpl.
  - destruct (changed && (iterations <? maxIterations)%nat); [done|].
    by intros [= <- <-].
  - destruct (changed && (iterations <? maxIterations)%nat); [|by intros [= <- <-]].
    destruct (rank_pass sorted ranks) as [ranks1 changed1] eqn:Hpass.
    apply IH. change ranks1 with (ranks1, changed1).1. rewrite <- Hpass.
    by apply rank_fold_nonneg.
Qed.

Lemma rank_fallback_nonneg sorted index ranks :
  ranks_nonneg ranks -> ranks_nonneg (rank_fallback sorted index ranks).
Proof.
  revert index ranks. induction sorted as [|n rest IH]; intros index ranks Hnn; simpl; [done|].
  apply IH. destruct (ranks !! id n) eqn:Hn; [done|].
  intros i r. destruct (decide (id n = i)) as [<-|Hne].
  - rewrite lookup_insert_eq. intros [= <-]. lia.
  - rewrite lookup_insert_ne by done. apply Hnn.
Qed.

Lemma compute_ranks_nonneg fuel input iterations ranks :
  compute_ranks fuel input = Some (iterations, ranks) -> ranks_nonneg ranks.
Proof.
  unfold compute_ranks.
  destruct (rank_while fuel (sortedNodes input) (length input + 2) true 0
              (init_roots (sortedNodes input))) as [[its r0]|] eqn:Hloop; simpl; [|done].
  intros [= <- <-]. apply rank_fallback_nonneg.
  eapply rank_while_nonneg; [|exact Hloop].
  intros i r Hr. apply init_roots_inv in Hr as [-> _]. lia.
Qed.

(** X1. Whatever the input (cycles, absent parents and repeated ids
    included), every rank that the engine assigns is at least 0. *)
Theorem rank_never_negative fuel input iterations ranks :
  compute_ranks fuel input = Some (iterations, ranks) ->
  forall i r, ranks !! i = Some r -> 0 <= r.
Proof. apply compute_ranks_nonneg. Qed.

Lemma rank_never_negative_witness :
  compute_ranks 4 mutual_cycle
    = Some (1%nat, <["b"%string := 1]> (<["a"%string := 0]> ∅))
  /\ forall i r,
       (<["b"%string := 1]> (<["a"%string := 0]> ∅) : gmap string Z) !! i = Some r ->
       0 <= r.
Proof.
  assert (compute_ranks 4 mutual_cycle
          = Some (1%nat, <["b"%string := 1]> (<["a"%string := 0]> ∅))) as H.
  { vm_compute. reflexivity. }
  split; [exact H|]. exact (rank_never_negative 4 mutual_cycle _ _ H).
Defined.

(** ** The canvas contains every node *)

Lemma Math_max_from (a : Z) (l : list Z) :
  exists m, foldl (fun acc v => number_max acc (Num v)) (Num a) l = Num m
            /\ a <= m /\ (m = a \/ m ∈ l) /\ forall v, v ∈ l -> v <= m.
Proof.
  revert a. induction l as [|v l IH]; intros a; simpl.
  - exists a. split; [done|]. split; [lia|]. split; [by left|].
    intros v Hv. by apply elem_of_nil in Hv.
  - destruct (IH (Z.max a v)) as (m & -> & Hle & Hin & Hall).
    exists m. split; [done|]. split; [lia|]. split.
    + destruct Hin as [->|Hin].
      * destruct (Z.max_spec a v) as [[_ ->]|[_ ->]]; [right; apply elem_of_cons; by left|by left].
      * right. apply elem_of_cons. by right.
    + intros w Hw. apply elem_of_cons in Hw as [->|Hw]; [lia|by apply Hall].
Qed.

Lemma Math_max_spec (l : list Z) :
  match Math_max l with
  | NegInfinity => l = []
  | Num m => m ∈ l /\ forall v, v ∈ l -> v <= m
  end.
Proof.
  unfold Math_max. destruct l as [|a l]; simpl; [done|].
  destruct (Math_max_from a l) as (m & -> & Hle & Hin & Hall).
  split.
  - destruct Hin as [->|Hin]; apply elem_of_cons; [by left|by right].
  - intros v Hv. apply elem_of_cons in Hv as [->|Hv]; [done|by apply Hall].
Qed.

(** The bound of one axis: the viewport size, or the far edge of the
    farthest node plus 100 when that is larger. *)
Lemma canvas_axis (coords : list Z) (extent inner : Z) :
  exists w,
    number_max (number_add (Math_max coords) (extent + 100)) (Num inner) = Num w
    /\ inner <= w
    /\ (forall c, c ∈ coords -> c + extent + 100 <= w)
    /\ (w = inner \/ exists c, c ∈ coords /\ w = c + extent + 100).
Proof.
  pose proof (Math_max_spec coords) as H.
  destruct (Math_max coords) as [|m]; simpl.
  - subst coords. exists inner. split; [done|]. split; [lia|]. split; [|by left].
    intros c Hc. by apply elem_of_nil in Hc.
  - destruct H as [Hin Hall]. exists (Z.max (m + (extent + 100)) inner).
    split; [done|]. split; [lia|]. split.
    + intros c Hc. apply Hall in Hc. lia.
    + destruct (Z.max_spec (m + (extent + 100)) inner) as [[_ ->]|[_ ->]]; [by left|].
      right. exists m. split; [done|lia].
Qed.

(** X2. For every input the returned canvas is at least the viewport,
    and every rendered node lies inside it: x and y are at least the
    margin 50, and the node's far edge plus 100 is within the width and
    the height.  Each bound is the viewport size or is reached by a node. *)
Theorem canvas_contains_every_node fuel innerWidth innerHeight input o :
  (length input + 2 <= fuel)%nat ->
  exists L w h,
    calculateLayout fuel innerWidth innerHeight input o = Some L
    /\ width L = Num w /\ height L = Num h
    /\ innerWidth <= w /\ innerHeight <= h
    /\ (forall rn, rn ∈ nodes L ->
          50 <= x rn /\ x rn + node_extent_x o + 100 <= w
          /\ 50 <= y rn /\ y rn + node_extent_y o + 100 <= h)
    /\ (w = innerWidth
        \/ exists rn, rn ∈ nodes L /\ w = x rn + node_extent_x o + 100)
    /\ (h = innerHeight
        \/ exists rn, rn ∈ nodes L /\ h = y rn + node_extent_y o + 100).
Proof.
  intros Hfuel.
  destruct (calculateLayout_total fuel innerWidth innerHeight input o Hfuel)
    as (its & ranks & nodeMap & la & K & Hranks & _ & _ & Hinv & HL).
  destruct (canvas_axis (x <$> nm_values nodeMap) (node_extent_x o) innerWidth)
    as (w & Hw & Hiw & Hxs & Hwtight).
  destruct (canvas_axis (y <$> nm_values nodeMap) (node_extent_y o) innerHeight)
    as (h & Hh & Hih & Hys & Hhtight).
  exists (layout_of o innerWidth innerHeight nodeMap), w, h.
  split; [done|]. split; [done|]. split; [done|]. split; [done|]. split; [done|].
  simpl. split; [|split].
  - intros rn Hrn.
    pose proof (Hxs (x rn) (list_elem_of_fmap_2 x _ _ Hrn)).
    pose proof (Hys (y rn) (list_elem_of_fmap_2 y _ _ Hrn)).
    apply nm_values_elem in Hrn as [k Hk].
    apply (inv_entry _ _ _ _ _ Hinv) in Hk as (_ & _ & Hlane & rank & Hrank & Hrn).
    pose proof (compute_ranks_nonneg _ _ _ _ Hranks _ _ Hrank) as Hnn.
    rewrite Hrn. simpl.
    assert (50 <= coord_x o rank (lane rn) /\ 50 <= coord_y o rank (lane rn)) as [? ?].
    { unfold coord_x, coord_y, NODE_WIDTH, NODE_HEIGHT, GAP_X, GAP_Y,
        H_NODE_HEIGHT, H_GAP_X, H_GAP_Y. destruct o; lia. }
    rewrite Hrn in H, H0. simpl in H, H0. lia.
  - destruct Hwtight as [->|(c & Hc & ->)]; [by left|]. right.
    apply list_elem_of_fmap in Hc as (rn & -> & Hrn). by exists rn.
  - destruct Hhtight as [->|(c & Hc & ->)]; [by left|]. right.
    apply list_elem_of_fmap in Hc as (rn & -> & Hrn). by exists rn.
Qed.

Lemma canvas_contains_every_node_witness :
  (length diamond + 2 <= 6)%nat /\
  exists L w h,
    calculateLayout 6 100 100 diamond horizontal = Some L
    /\ width L = Num w /\ height L = Num h
    /\ 100 <= w /\ 100 <= h
    /\ (forall rn, rn ∈ nodes L ->
          50 <= x rn /\ x rn + node_extent_x horizontal + 100 <= w
          /\ 50 <= y rn /\ y rn + node_extent_y horizontal + 100 <= h)
    /\ (w = 100
        \/ exists rn, rn ∈ nodes L /\ w = x rn + node_extent_x horizontal + 100)
    /\ (h = 100
        \/ exists rn, rn ∈ nodes L /\ h = y rn + node_extent_y horizontal + 100).
Proof.
  split; [simpl; lia|].
  apply (canvas_contains_every_node 6 100 100 diamond horizontal). simpl. lia.
Defined.

(** ** Edges *)


Lemma edges_of_elem nodeMap rn e :
  e ∈ edges_of nodeMap rn ->
  exists p P,
    p ∈ parentIds (base rn) /\ nm_get nodeMap p = Some P
    /\ e = {| edge_id := (id (base P) +:+ "-" +:+ id (base rn))%string;
              sourceX := x P; sourceY := y P;
              targetX := x rn; targetY := y rn;
              edge_color := edge_color_of P (status (base rn));
              edge_status := status (base rn) |}.
Proof.
  unfold edges_of. intros He. apply list_elem_of_omap in He as (p & Hp & He).
  destruct (nm_get nodeMap p) as [P|] eqn:HP; simpl in He; [|done].
  injection He as <-. by exists p, P.
Qed.



Lemma elem_of_concat {A} (a : A) (ls : list (list A)) :
  a ∈ concat ls -> exists l, a ∈ l /\ l ∈ ls.
Proof.
  induction ls as [|l ls IH]; simpl; [by intros ?%elem_of_nil|].
  rewrite elem_of_app. intros [Ha|Ha].
  - exists l. split; [done|]. apply elem_of_cons. by left.
  - destruct (IH Ha) as (l' & ? & ?). exists l'. split; [done|].
    apply elem_of_cons. by right.
Qed.

Lemma layout_edges_elem o innerWidth innerHeight nodeMap e :
  e ∈ edges (layout_of o innerWidth innerHeight nodeMap) ->
  exists k rn, (k, rn) ∈ nodeMap /\ e ∈ edges_of nodeMap rn.
Proof.
  simpl. intros He. apply elem_of_concat in He as (es & He & Hes).
  apply list_elem_of_fmap in Hes as (rn & -> & Hrn).
  apply nm_values_elem in Hrn as [k Hk]. by exists k, rn.
Qed.





(** ** Well-formed inputs: edges point forward and nodes do not overlap *)

Lemma choose_lane_cases fuel nodeMap la n l :
  choose_lane fuel nodeMap la n = Some l ->
  ~ claimed la l
  \/ exists p ps P,
       parentIds n = p :: ps /\ nm_get nodeMap p = Some P
       /\ la !! lane P = Some (Some (id (base P))) /\ l = lane P.
Proof.
  unfold choose_lane.
  destruct (inherit_lane_cases nodeMap la n) as [->|(p & ps & P & Hps & HP & Hla & Hl)].
  - rewrite decide_True by done. intros H. left.
    by apply first_free_lane_spec in H as (_ & ? & _).
  - destruct (decide (inherit_lane nodeMap la n = -1)) as [_|_].
    + intros H. left. by apply first_free_lane_spec in H as (_ & ? & _).
    + intros [= <-]. right. by exists p, ps, P.
Qed.

Lemma nm_set_new_elem m k v k' v' :
  k ∉ m.*1 ->
  (k', v') ∈ nm_set m k v <-> (k', v') ∈ m \/ (k', v') = (k, v).
Proof.
  intros Hk. rewrite nm_set_notin by done. rewrite elem_of_app, list_elem_of_singleton. done.
Qed.

Section WellFormedLayout.
Variable input : list WorkflowNode.
Hypothesis Hnd : NoDup (id <$> input).
Hypothesis Hpres : parents_present input.
Hypothesis Hacyc : acyclic input.
Variable ranks : gmap string Z.
Variable o : LayoutOrientation.
Hypothesis Hset : forall n, n ∈ input -> ranks !! id n = Some (Z.of_nat (final_depth input (id n))).

Local Abbreviation D := (final_depth input).

(** In every lane the claimant is the deepest node placed there, and
    the nodes of one lane have pairwise different depths. *)
Record lane_order (st : list (string * RenderedNode) * gmap Z (option string)) : Prop := {
  lo_claimant : forall l s, st.2 !! l = Some (Some s) ->
                            exists rs, (s, rs) ∈ st.1 /\ lane rs = l;
  lo_top : forall k rn s, (k, rn) ∈ st.1 -> st.2 !! lane rn = Some (Some s) ->
                          k = s \/ (D k < D s)%nat;
  lo_distinct : forall k1 r1 k2 r2,
      (k1, r1) ∈ st.1 -> (k2, r2) ∈ st.1 -> lane r1 = lane r2 -> D k1 = D k2 -> k1 = k2
}.

Lemma lane_order_init : lane_order ([], ∅).
Proof.
  split; simpl.
  - intros l s H. by rewrite lookup_empty in H.
  - intros k rn s H. by apply elem_of_nil in H.
  - intros k1 r1 k2 r2 H. by apply elem_of_nil in H.
Qed.

Lemma lane_order_step fuel processed K st n st' :
  lane_inv ranks o processed K st ->
  lane_order st ->
  n ∈ input ->
  id n ∉ id <$> processed ->
  lane_step fuel ranks o st n = Some st' ->
  lane_order st'.
Proof.
  intros Hinv Hord Hn Hfresh Hstep.
  apply (lane_step_preserves _ _ _ _ _ _ _ _ Hinv) in Hstep
    as (l & rank & Hrank & Hchoose & -> & _).
  assert (id n ∉ st.1.*1) as Hkey by (by rewrite (inv_keys _ _ _ _ _ Hinv)).
  assert (forall k rn, (k, rn) ∈ st.1 -> claimed st.2 (lane rn)) as Hold.
  { intros k rn Hk. apply (inv_claimed _ _ _ _ _ Hinv).
    by apply (inv_entry _ _ _ _ _ Hinv) in Hk as (_ & _ & ? & _). }
  assert (forall k rn, (k, rn) ∈ st.1 -> lane rn = l -> (D k < D (id n))%nat) as Hbelow.
  { intros k rn Hk Hlane.
    destruct (choose_lane_cases _ _ _ _ _ Hchoose)
      as [Hfree|(p & ps & P & Hps & HP & Hla & ->)].
    - exfalso. apply Hfree. rewrite <- Hlane. by apply (Hold k rn).
    - apply nm_get_elem in HP.
      pose proof (inv_entry _ _ _ _ _ Hinv _ _ HP) as (HidP & _).
      rewrite HidP in Hla.
      assert (D p < D (id n))%nat as Hp.
      { apply D_parent; [done|done|done|done|]. rewrite Hps. apply elem_of_cons. by left. }
      rewrite <- Hlane in Hla.
      destruct (lo_top _ Hord k rn p Hk Hla) as [->|?]; lia. }
  split; simpl.
  - intros l' s. destruct (decide (l = l')) as [<-|Hne].
    + rewrite lookup_insert_eq. intros [= <-]. exists (render o rank l n).
      split; [|done]. apply nm_set_new_elem; [done|]. by right.
    + rewrite lookup_insert_ne by done. intros Hs.
      destruct (lo_claimant _ Hord l' s Hs) as (rs & Hrs & Hl').
      exists rs. split; [|done]. apply nm_set_new_elem; [done|]. by left.
  - intros k rn s Hk. apply nm_set_new_elem in Hk as [Hk|[= -> ->]]; [| |done].
    + destruct (decide (l = lane rn)) as [Hl|Hne].
      * rewrite <- Hl, lookup_insert_eq. intros [= <-]. right. by apply (Hbelow k rn).
      * rewrite lookup_insert_ne by done. by apply (lo_top _ Hord).
    + simpl. rewrite lookup_insert_eq. intros [= <-]. by left.
  - intros k1 r1 k2 r2 H1 H2 Hlane HD.
    apply nm_set_new_elem in H1; [|done]. apply nm_set_new_elem in H2; [|done].
    destruct H1 as [H1|[= -> ->]], H2 as [H2|[= -> ->]]; [| | |done].
    + by apply (lo_distinct _ Hord k1 r1 k2 r2).
    + simpl in Hlane. pose proof (Hbelow k1 r1 H1 Hlane). lia.
    + simpl in Hlane. pose proof (Hbelow k2 r2 H2 (eq_sym Hlane)). lia.
Qed.

Lemma lane_order_pass fuel l :
  forall processed K st st',
    lane_inv ranks o processed K st ->
    lane_order st ->
    (forall n, n ∈ l -> n ∈ input) ->
    NoDup (id <$> processed ++ l) ->
    lane_pass fuel ranks o st l = Some st' ->
    lane_order st'.
Proof.
  induction l as [|n l IH]; intros processed K st st' Hinv Hord Hin Hnd'; simpl.
  - by intros [= <-].
  - destruct (lane_step fuel ranks o st n) as [st1|] eqn:Hstep; simpl; [|done].
    intros Hpass.
    assert (id n ∉ id <$> processed) as Hfresh.
    { rewrite fmap_app in Hnd'. apply NoDup_app in Hnd' as (_ & Hdisj & _).
      intros Hp. apply (Hdisj _ Hp). simpl. apply elem_of_cons. by left. }
    assert (n ∈ input) as Hn by (apply Hin, elem_of_cons; by left).
    pose proof (lane_order_step _ _ _ _ _ _ Hinv Hord Hn Hfresh Hstep) as Hord1.
    apply (lane_step_preserves _ _ _ _ _ _ _ _ Hinv) in Hstep
      as (a & rank & _ & _ & _ & Hinv1).
    apply (IH _ _ _ _ Hinv1 Hord1); [| |done].
    + intros m Hm. apply Hin, elem_of_cons. by right.
    + by rewrite <- app_assoc.
Qed.
End WellFormedLayout.

(** The entries of the final [nodeMap] of a well-formed input carry the
    depth of their node as rank. *)
Lemma entry_rank_is_depth input ranks o K nodeMap la k rn :
  (forall n, n ∈ input -> ranks !! id n = Some (Z.of_nat (final_depth input (id n)))) ->
  lane_inv ranks o (layoutNodes ranks (sortedNodes input)) K (nodeMap, la) ->
  (k, rn) ∈ nodeMap ->
  id (base rn) = k /\ base rn ∈ input
  /\ x rn = coord_x o (Z.of_nat (final_depth input k)) (lane rn)
  /\ y rn = coord_y o (Z.of_nat (final_depth input k)) (lane rn).
Proof.
  intros Hset Hinv Hk.
  apply (inv_entry _ _ _ _ _ Hinv) in Hk as (Hid & Hbase & _ & rank & Hrank & Hrn).
  apply layoutNodes_elem in Hbase.
  split; [done|]. split; [done|].
  rewrite <- Hid, (Hset _ Hbase) in Hrank. injection Hrank as <-.
  rewrite Hrn. simpl. by rewrite Hid.
Qed.

(** X4. For an input with pairwise distinct ids, all parents present and
    no cycle, every edge points forward: under vertical orientation the
    child lies at least one rank step (NODE_HEIGHT + GAP_Y) below its
    parent, otherwise at least H_GAP_X to the right of it. *)
Theorem edges_point_forward fuel innerWidth innerHeight input o :
  (length input + 2 <= fuel)%nat ->
  NoDup (id <$> input) ->
  parents_present input ->
  acyclic input ->
  exists L,
    calculateLayout fuel innerWidth innerHeight input o = Some L
    /\ forall e, e ∈ edges L ->
         match o with
         | vertical => sourceY e + NODE_HEIGHT + GAP_Y <= targetY e
         | _ => sourceX e + H_GAP_X <= targetX e
         end.
Proof.
  intros Hfuel Hnd Hpres Hacyc.
  destruct (calculateLayout_total fuel innerWidth innerHeight input o Hfuel)
    as (its & ranks & nodeMap & la & K & Hranks & _ & _ & Hinv & HL).
  pose proof (compute_ranks_settled input Hnd Hpres Hacyc fuel its ranks Hranks) as Hset.
  exists (layout_of o innerWidth innerHeight nodeMap). split; [done|].
  intros e He. apply layout_edges_elem in He as (k & rn & Hk & He).
  apply edges_of_elem in He as (p & P & Hp & HP & ->). simpl.
  apply nm_get_elem in HP.
  destruct (entry_rank_is_depth _ _ _ _ _ _ _ _ Hset Hinv Hk) as (Hid & Hbase & -> & ->).
  destruct (entry_rank_is_depth _ _ _ _ _ _ _ _ Hset Hinv HP) as (_ & _ & -> & ->).
  pose proof (D_parent input Hnd Hpres Hacyc (base rn) p Hbase Hp) as Hlt.
  rewrite Hid in Hlt.
  unfold coord_x, coord_y, NODE_HEIGHT, GAP_Y, H_GAP_X. destruct o; nia.
Qed.

Lemma edges_point_forward_witness :
  (length diamond + 2 <= 6)%nat
  /\ NoDup (id <$> diamond)
  /\ parents_present diamond
  /\ acyclic diamond
  /\ exists L,
       calculateLayout 6 800 600 diamond vertical = Some L
       /\ forall e, e ∈ edges L -> sourceY e + NODE_HEIGHT + GAP_Y <= targetY e.
Proof.
  assert (NoDup (id <$> diamond)) as Hnd.
  { apply (bool_decide_unpack _). vm_compute. exact I. }
  assert (parents_present diamond) as Hpres.
  { apply parents_present_check. apply (bool_decide_unpack _). vm_compute. exact I. }
  assert (acyclic diamond) as Hacyc.
  { apply (acyclic_check _ (final_depth diamond)).
    apply (bool_decide_unpack _). vm_compute. exact I. }
  split; [simpl; lia|]. split; [exact Hnd|]. split; [exact Hpres|]. split; [exact Hacyc|].
  apply (edges_point_forward 6 800 600 diamond vertical);
    [simpl; lia|exact Hnd|exact Hpres|exact Hacyc].
Defined.

(** X5. For an input with pairwise distinct ids, all parents present and
    no cycle, no two rendered nodes overlap: two different rendered nodes
    are farther apart than a node is wide, or farther apart than a node
    is high. *)
Theorem rendered_nodes_do_not_overlap fuel innerWidth innerHeight input o :
  (length input + 2 <= fuel)%nat ->
  NoDup (id <$> input) ->
  parents_present input ->
  acyclic input ->
  exists L,
    calculateLayout fuel innerWidth innerHeight input o = Some L
    /\ forall rn1 rn2, rn1 ∈ nodes L -> rn2 ∈ nodes L ->
         rn1 = rn2
         \/ node_extent_x o < Z.abs (x rn1 - x rn2)
         \/ node_extent_y o < Z.abs (y rn1 - y rn2).
Proof.
  intros Hfuel Hnd Hpres Hacyc.
  destruct (calculateLayout_total fuel innerWidth innerHeight input o Hfuel)
    as (its & ranks & nodeMap & la & K & Hranks & _ & Hpass & Hinv & HL).
  pose proof (compute_ranks_settled input Hnd Hpres Hacyc fuel its ranks Hranks) as Hset.
  assert (lane_order input (nodeMap, la)) as Hord.
  { apply (lane_order_pass input Hnd Hpres Hacyc ranks o fuel
             (layoutNodes ranks (sortedNodes input)) [] 0%nat ([], ∅) (nodeMap, la));
      [apply lane_inv_init|apply lane_order_init| | |done].
    - intros n. apply layoutNodes_elem.
    - simpl. unfold layoutNodes, sortedNodes. by rewrite !stable_sort_perm. }
  exists (layout_of o innerWidth innerHeight nodeMap). split; [done|].
  simpl. intros rn1 rn2 H1 H2.
  apply nm_values_elem in H1 as [k1 H1]. apply nm_values_elem in H2 as [k2 H2].
  destruct (decide (k1 = k2)) as [->|Hne].
  { left. pose proof (inv_nodup _ _ _ _ _ Hinv) as Hkeys. simpl in Hkeys.
    assert ((k2, rn1) = (k2, rn2)) as Heq by (by apply (NoDup_fmap_eq fst nodeMap)).
    by injection Heq. }
  right.
  destruct (entry_rank_is_depth _ _ _ _ _ _ _ _ Hset Hinv H1) as (_ & _ & -> & ->).
  destruct (entry_rank_is_depth _ _ _ _ _ _ _ _ Hset Hinv H2) as (_ & _ & -> & ->).
  assert (lane rn1 <> lane rn2 \/ final_depth input k1 <> final_depth input k2) as Hdiff.
  { destruct (decide (lane rn1 = lane rn2)) as [Hl|]; [|by left]. right.
    intros HD. apply Hne. by apply (lo_distinct input _ Hord k1 rn1 k2 rn2). }
  unfold coord_x, coord_y, node_extent_x, node_extent_y, NODE_WIDTH, NODE_HEIGHT,
    GAP_X, GAP_Y, H_NODE_WIDTH, H_NODE_HEIGHT, H_GAP_X, H_GAP_Y.
  destruct o; lia.
Qed.

Lemma rendered_nodes_do_not_overlap_witness :
  (length diamond + 2 <= 6)%nat
  /\ NoDup (id <$> diamond)
  /\ parents_present diamond
  /\ acyclic diamond
  /\ exists L,
       calculateLayout 6 800 600 diamond horizontal = Some L
       /\ forall rn1 rn2, rn1 ∈ nodes L -> rn2 ∈ nodes L ->
            rn1 = rn2
            \/ node_extent_x horizontal < Z.abs (x rn1 - x rn2)
            \/ node_extent_y horizontal < Z.abs (y rn1 - y rn2).
Proof.
  assert (NoDup (id <$> diamond)) as Hnd.
  { apply (bool_decide_unpack _). vm_compute. exact I. }
  assert (parents_present diamond) as Hpres.
  { apply parents_present_check. apply (bool_decide_unpack _). vm_compute. exact I. }
  assert (acyclic diamond) as Hacyc.
  { apply (acyclic_check _ (final_depth diamond)).
    apply (bool_decide_unpack _). vm_compute. exact I. }
  split; [simpl; lia|]. split; [exact Hnd|]. split; [exact Hpres|]. split; [exact Hacyc|].
  apply (rendered_nodes_do_not_overlap 6 800 600 diamond horizontal);
    [simpl; lia|exact Hnd|exact Hpres|exact Hacyc].
Defined.

(** * The visibility filter (components/GraphCanvas.tsx, TimelineView)

    Both views compute [visibleNodes] with the same code: one pass over
    the nodes in date order fills [visibleSet], then the node list is
    filtered by it. *)

(** The body of [sorted.forEach]; [visibleSet] is a [Set<string>]. *)
Definition visible_visit (collapsedNodeIds : list string) (visibleSet : gset string)
    (node : WorkflowNode) : gset string :=
  match parentIds node with
  | [] => {[id node]} ∪ visibleSet
  | _ :: _ =>
      let hasVisibleParent :=
        existsb (fun pid => bool_decide (pid ∈ visibleSet)
                            && negb (bool_decide (pid ∈ collapsedNodeIds)))
                (parentIds node) in
      if hasVisibleParent then {[id node]} ∪ visibleSet else visibleSet
  end.

Definition visibleSet_of (allNodes : list WorkflowNode) (collapsedNodeIds : list string)
  : gset string :=
  foldl (visible_visit collapsedNodeIds) ∅ (stable_sort by_date allNodes).

Definition visibleNodes (allNodes : list WorkflowNode) (collapsedNodeIds : list string)
  : list WorkflowNode :=
  filter (fun n => id n ∈ visibleSet_of allNodes collapsedNodeIds) allNodes.

(** TimelineView: the visible nodes, newest first. *)
Definition timeline_order (allNodes : list WorkflowNode) (collapsedNodeIds : list string)
  : list WorkflowNode :=
  stable_sort (fun a b => date b - date a) (visibleNodes allNodes collapsedNodeIds).

(** [node.parentIds.some(...)] of a node with parents. *)
Definition has_visible_parent (collapsed : list string) (S : gset string)
    (n : WorkflowNode) : Prop :=
  exists p, p ∈ parentIds n /\ p ∈ S /\ p ∉ collapsed.

Lemma visible_visit_spec collapsed S n i :
  i ∈ visible_visit collapsed S n
  <-> i ∈ S \/ (i = id n /\ (parentIds n = [] \/ has_visible_parent collapsed S n)).
Proof.
  unfold visible_visit, has_visible_parent.
  destruct (parentIds n) as [|p0 ps] eqn:Hps.
  - rewrite elem_of_union, elem_of_singleton. split; [|tauto].
    intros [->|?]; [right; split; [done|by left]|by left].
  - destruct (existsb _ (p0 :: ps)) eqn:Hex.
    + apply existsb_exists in Hex as (p & Hp & Hcond).
      apply andb_true_iff in Hcond as [HS Hc].
      apply bool_decide_eq_true in HS. apply negb_true_iff, bool_decide_eq_false in Hc.
      apply list_elem_of_In in Hp.
      rewrite elem_of_union, elem_of_singleton. split; [|tauto].
      intros [->|?]; [|by left]. right. split; [done|]. right. by exists p.
    + split; [by left|]. intros [?|(_ & [?|(p & Hp & HS & Hc)])]; [done|done|].
      exfalso. apply not_true_iff_false in Hex. apply Hex.
      apply existsb_exists. exists p. split; [by apply list_elem_of_In|].
      apply andb_true_iff. split; [by apply bool_decide_eq_true|].
      by apply negb_true_iff, bool_decide_eq_false.
Qed.

Lemma visible_fold_mono collapsed l S i :
  i ∈ S -> i ∈ foldl (visible_visit collapsed) S l.
Proof.
  revert S. induction l as [|n l IH]; intros S Hi; simpl; [done|].
  apply IH, visible_visit_spec. by left.
Qed.

(** An id enters the set when one of its nodes is visited with no
    parents or with a parent that is already in and not collapsed. *)
Lemma visible_fold_spec collapsed l i :
  i ∈ foldl (visible_visit collapsed) ∅ l
  <-> exists l1 n l2,
        l = l1 ++ n :: l2 /\ id n = i
        /\ (parentIds n = []
            \/ has_visible_parent collapsed (foldl (visible_visit collapsed) ∅ l1) n).
Proof.
  induction l as [|n l IH] using rev_ind.
  - simpl. split; [by intros ?%not_elem_of_empty|].
    intros (l1 & n & l2 & H & _). by destruct l1.
  - rewrite foldl_app. simpl. rewrite visible_visit_spec, IH. split.
    + intros [(l1 & m & l2 & -> & Hm)|(-> & Hn)].
      * exists l1, m, (l2 ++ [n]). by rewrite <- app_assoc.
      * exists l, n, []. done.
    + intros (l1 & m & l2 & Heq & Hid & Hm).
      destruct l2 as [|x l2 _] using rev_ind.
      * apply app_inj_tail in Heq as [-> ->]. right. done.
      * rewrite app_comm_cons, app_assoc in Heq. apply app_inj_tail in Heq as [-> _].
        left. by exists l1, m, l2.
Qed.

Lemma visibleNodes_elem allNodes collapsed n :
  n ∈ visibleNodes allNodes collapsed
  <-> n ∈ allNodes /\ id n ∈ visibleSet_of allNodes collapsed.
Proof. unfold visibleNodes. rewrite list_elem_of_filter. tauto. Qed.

(** X6. Whatever is collapsed, the visible list keeps the order of the
    node list and contains every node without parents. *)
Theorem roots_are_always_visible allNodes collapsed :
  visibleNodes allNodes collapsed `sublist_of` allNodes
  /\ forall n, n ∈ allNodes -> parentIds n = [] -> n ∈ visibleNodes allNodes collapsed.
Proof.
  split; [apply sublist_filter|].
  intros n Hn Hroot. apply visibleNodes_elem. split; [done|].
  unfold visibleSet_of.
  assert (n ∈ stable_sort by_date allNodes) as Hs by (by apply stable_sort_elem).
  apply list_elem_of_split in Hs as (l1 & l2 & ->).
  apply visible_fold_spec. exists l1, n, l2. split; [done|]. split; [done|by left].
Qed.

Lemma filter_all {A} (P : A -> Prop) `{forall a, Decision (P a)} (l : list A) :
  (forall a, a ∈ l -> P a) -> filter P l = l.
Proof.
  induction l as [|a l IH]; intros Hall; [done|].
  rewrite filter_cons_True by (apply Hall, elem_of_cons; by left).
  f_equal. apply IH. intros b Hb. apply Hall, elem_of_cons. by right.
Qed.

Lemma sorted_before_date l1 n l2 m allNodes :
  stable_sort by_date allNodes = l1 ++ n :: l2 -> m ∈ l1 -> date m <= date n.
Proof.
  intros Heq Hm. pose proof (sortedNodes_sorted allNodes) as Hs.
  unfold sortedNodes in Hs. rewrite Heq in Hs.
  apply (StronglySorted_app_1_elem_of _ _ _ m n Hs Hm). apply elem_of_cons. by left.
Qed.

Lemma visible_parent_exists allNodes collapsed n :
  NoDup (id <$> allNodes) ->
  n ∈ visibleNodes allNodes collapsed ->
  parentIds n <> [] ->
  exists m,
    m ∈ visibleNodes allNodes collapsed
    /\ id m ∈ parentIds n
    /\ (id m ∉ collapsed)
    /\ date m <= date n.
Proof.
  intros Hnd Hn Hne. apply visibleNodes_elem in Hn as [Hn Hvis].
  unfold visibleSet_of in Hvis.
  apply visible_fold_spec in Hvis as (l1 & n' & l2 & Hsplit & Hid & Hn').
  assert (n' ∈ allNodes) as Hn'in.
  { apply (stable_sort_elem by_date). rewrite Hsplit. apply elem_of_app. right.
    apply elem_of_cons. by left. }
  assert (n' = n) as -> by (by apply (NoDup_fmap_eq id allNodes)).
  destruct Hn' as [?|(p & Hp & HpS & Hpc)]; [done|].
  apply visible_fold_spec in HpS as (l1a & m & l1b & -> & <- & Hm).
  assert (m ∈ l1a ++ m :: l1b) as Hm1 by (apply elem_of_app; right; apply elem_of_cons; by left).
  exists m. split; [|split; [done|split; [done|]]].
  - apply visibleNodes_elem. split.
    + apply (stable_sort_elem by_date). rewrite Hsplit. apply elem_of_app. by left.
    + unfold visibleSet_of. rewrite Hsplit, <- app_assoc.
      apply visible_fold_spec. exists l1a, m, (l1b ++ n :: l2). done.
  - by apply (sorted_before_date _ _ _ _ _ Hsplit).
Qed.

(** X7. With pairwise distinct ids, every visible node that has parents
    has a visible parent that is not collapsed and is not dated later
    than the node: the layout engine never receives from this filter a
    node all of whose parents are absent. *)
Theorem visible_node_has_visible_parent allNodes collapsed n :
  NoDup (id <$> allNodes) ->
  n ∈ visibleNodes allNodes collapsed ->
  parentIds n <> [] ->
  exists m,
    m ∈ visibleNodes allNodes collapsed
    /\ id m ∈ parentIds n
    /\ (id m ∉ collapsed)
    /\ date m <= date n.
Proof. apply visible_parent_exists. Qed.

Definition collapse_example : list WorkflowNode :=
  [mk "A" 0 []; mk "B" 1 ["A"]; mk "C" 2 ["B"]; mk "E" 3 ["A"; "B"]]%string.

Lemma visible_node_has_visible_parent_witness :
  NoDup (id <$> collapse_example)
  /\ mk "E" 3 ["A"; "B"]%string ∈ visibleNodes collapse_example ["B"%string]
  /\ exists m,
       m ∈ visibleNodes collapse_example ["B"%string]
       /\ id m ∈ ["A"; "B"]%string
       /\ (id m ∉ ["B"%string])
       /\ date m <= 3.
Proof.
  assert (NoDup (id <$> collapse_example)) as Hnd.
  { apply (bool_decide_unpack _). vm_compute. exact I. }
  assert (mk "E" 3 ["A"; "B"]%string ∈ visibleNodes collapse_example ["B"%string]) as Hin.
  { vm_compute. repeat constructor. }
  split; [exact Hnd|]. split; [exact Hin|].
  apply (visible_node_has_visible_parent collapse_example ["B"%string]
           (mk "E" 3 ["A"; "B"]%string) Hnd Hin). discriminate.
Defined.

(** Collapsing B hides C, whose only parent is B, and keeps E, which has
    the visible parent A as well. *)
Example collapse_example_visible :
  id <$> visibleNodes collapse_example ["B"%string] = ["A"; "B"; "E"]%string.
Proof. vm_compute. reflexivity. Qed.

Lemma visible_visit_mono c c' S S' n :
  (forall i, i ∈ c -> i ∈ c') -> S' ⊆ S ->
  visible_visit c' S' n ⊆ visible_visit c S n.
Proof.
  intros Hc HS i. rewrite !visible_visit_spec.
  intros [?|(-> & [?|(p & Hp & HpS & Hpc)])].
  - left. by apply HS.
  - right. split; [done|by left].
  - right. split; [done|]. right. exists p. split; [done|]. split; [by apply HS|].
    intros ?. by apply Hpc, Hc.
Qed.

(** X8. Collapsing more never shows more: when every collapsed id stays
    collapsed, the new visible list is a sub-list of the old one. *)
Theorem collapsing_more_hides_more allNodes c c' :
  (forall i, i ∈ c -> i ∈ c') ->
  visibleNodes allNodes c' `sublist_of` visibleNodes allNodes c.
Proof.
  intros Hc.
  assert (visibleSet_of allNodes c' ⊆ visibleSet_of allNodes c) as Hsub.
  { unfold visibleSet_of.
    assert (forall l S S', S' ⊆ S ->
              foldl (visible_visit c') S' l ⊆ foldl (visible_visit c) S l) as Hgen.
    { induction l as [|n l IH]; intros S S' HS; simpl; [done|].
      by apply IH, visible_visit_mono. }
    by apply Hgen. }
  unfold visibleNodes.
  assert (filter (fun n => id n ∈ visibleSet_of allNodes c') allNodes
          = filter (fun n => id n ∈ visibleSet_of allNodes c')
              (filter (fun n => id n ∈ visibleSet_of allNodes c) allNodes)) as ->.
  { rewrite list_filter_filter. apply list_filter_iff. intros n. split; [|tauto].
    intros H. split; [done|]. by apply Hsub. }
  apply sublist_filter.
Qed.

Lemma collapsing_more_hides_more_witness :
  (forall i, i ∈ ["B"%string] -> i ∈ ["A"; "B"]%string)
  /\ visibleNodes collapse_example ["A"; "B"]%string
       `sublist_of` visibleNodes collapse_example ["B"%string].
Proof.
  assert (forall i, i ∈ ["B"%string] -> i ∈ ["A"; "B"]%string) as Hc.
  { intros i Hi. apply elem_of_cons. by right. }
  split; [exact Hc|].
  exact (collapsing_more_hides_more collapse_example ["B"%string] ["A"; "B"]%string Hc).
Defined.

(** X9. When nothing is collapsed and every node with parents has a
    parent that is the id of a node dated strictly earlier, every node
    is visible. *)
Theorem nothing_collapsed_all_visible allNodes :
  (forall n, n ∈ allNodes -> parentIds n <> [] ->
     exists m, m ∈ allNodes /\ id m ∈ parentIds n /\ date m < date n) ->
  visibleNodes allNodes [] = allNodes.
Proof.
  intros Hearlier.
  assert (forall l1 l2, stable_sort by_date allNodes = l1 ++ l2 ->
            forall m, m ∈ l1 -> id m ∈ foldl (visible_visit []) ∅ l1) as Hprefix.
  { induction l1 as [|n l1 IH] using rev_ind; intros l2 Heq m Hm.
    - by apply elem_of_nil in Hm.
    - rewrite <- app_assoc in Heq. simpl in Heq.
      rewrite foldl_app. simpl. apply visible_visit_spec.
      apply elem_of_app in Hm as [Hm|Hm].
      + left. by apply (IH (n :: l2)).
      + apply list_elem_of_singleton in Hm as ->. right. split; [done|].
        destruct (parentIds n) as [|p0 ps] eqn:Hps; [by left|]. right.
        assert (n ∈ allNodes) as Hn.
        { apply (stable_sort_elem by_date). rewrite Heq. apply elem_of_app. right.
          apply elem_of_cons. by left. }
        destruct (Hearlier n Hn) as (m & Hm & Hp & Hdate); [by rewrite Hps|].
        exists (id m). split; [done|]. split; [|apply not_elem_of_nil].
        apply (IH (n :: l2) Heq).
        apply (stable_sort_elem by_date) in Hm. rewrite Heq in Hm.
        apply elem_of_app in Hm as [Hm|Hm]; [done|]. exfalso.
        pose proof (sortedNodes_sorted allNodes) as Hs. unfold sortedNodes in Hs.
        rewrite Heq in Hs. apply StronglySorted_app_1_r in Hs.
        apply elem_of_cons in Hm as [->|Hm]; [lia|].
        apply StronglySorted_inv in Hs as [_ Hall].
        rewrite Forall_forall in Hall. specialize (Hall m Hm). simpl in Hall. lia. }
  unfold visibleNodes. apply filter_all. intros n Hn. unfold visibleSet_of.
  apply (Hprefix (stable_sort by_date allNodes) []); [by rewrite app_nil_r|].
  by apply stable_sort_elem.
Qed.

Lemma nothing_collapsed_all_visible_witness :
  (forall n, n ∈ diamond -> parentIds n <> [] ->
     exists m, m ∈ diamond /\ id m ∈ parentIds n /\ date m < date n)
  /\ visibleNodes diamond [] = diamond.
Proof.
  assert (forall n, n ∈ diamond -> parentIds n <> [] ->
            exists m, m ∈ diamond /\ id m ∈ parentIds n /\ date m < date n) as H.
  { intros n Hn Hne.
    assert (mk "A" 0 [] ∈ diamond) as HA by (vm_compute; repeat constructor).
    assert (mk "B" 1 ["A"%string] ∈ diamond) as HB by (vm_compute; repeat constructor).
    repeat (apply elem_of_cons in Hn as [->|Hn]); [| | |  |by apply elem_of_nil in Hn].
    - exists (mk "B" 1 ["A"%string]). split; [done|]. split; [|simpl; lia].
      simpl. apply elem_of_cons. by left.
    - exists (mk "A" 0 []). split; [done|]. split; [|simpl; lia].
      simpl. apply elem_of_cons. by left.
    - done.
    - exists (mk "A" 0 []). split; [done|]. split; [|simpl; lia].
      simpl. apply elem_of_cons. by left. }
  split; [exact H|]. exact (nothing_collapsed_all_visible diamond H).
Defined.

Lemma visible_fold_ids collapsed l i :
  i ∈ foldl (visible_visit collapsed) ∅ l -> i ∈ id <$> l.
Proof.
  intros (l1 & n & l2 & -> & <- & _)%visible_fold_spec.
  apply list_elem_of_fmap_2, elem_of_app. right. apply elem_of_cons. by left.
Qed.

Lemma split_unique (l1 l2 l1' l2' : list WorkflowNode) n n' :
  NoDup (id <$> l1 ++ n :: l2) ->
  l1 ++ n :: l2 = l1' ++ n' :: l2' ->
  id n = id n' ->
  l1 = l1'.
Proof.
  revert l1'. induction l1 as [|a l1 IH]; intros l1' Hnd Heq Hid;
    destruct l1' as [|b l1']; simpl in *.
  - done.
  - injection Heq as -> ->. apply NoDup_cons in Hnd as [Hn _]. exfalso. apply Hn.
    rewrite Hid. apply list_elem_of_fmap_2, elem_of_app. right. apply elem_of_cons. by left.
  - injection Heq as -> <-. apply NoDup_cons in Hnd as [Hn _]. exfalso. apply Hn.
    rewrite <- Hid. apply list_elem_of_fmap_2, elem_of_app. right. apply elem_of_cons. by left.
  - injection Heq as -> Heq. apply NoDup_cons in Hnd as [_ Hnd]. f_equal. by apply IH.
Qed.

(** Before the node [k] is visited, collapsing [k] changes nothing. *)
Lemma visible_fold_before c k l :
  id k ∉ id <$> l ->
  foldl (visible_visit (id k :: c)) ∅ l = foldl (visible_visit c) ∅ l.
Proof.
  induction l as [|n l IH] using rev_ind; intros Hk; [done|].
  rewrite fmap_app, not_elem_of_app in Hk. destruct Hk as [Hk _].
  rewrite !foldl_app. simpl. rewrite (IH Hk).
  apply set_eq. intros i. rewrite !visible_visit_spec.
  assert (has_visible_parent (id k :: c) (foldl (visible_visit c) ∅ l) n
          <-> has_visible_parent c (foldl (visible_visit c) ∅ l) n) as ->; [|done].
  unfold has_visible_parent. split; intros (p & Hp & HpS & Hpc); exists p;
    (split; [done|]; split; [done|]).
  - intros ?. apply Hpc, elem_of_cons. by right.
  - intros [->|?]%elem_of_cons; [|done]. by apply Hk, (visible_fold_ids c).
Qed.

(** X10. With pairwise distinct ids, collapsing a node changes nothing
    for the node itself or for any node dated earlier: each of them is
    visible after the collapse exactly when it was visible before. *)
Theorem collapsing_keeps_the_node_itself allNodes c k m :
  NoDup (id <$> allNodes) ->
  k ∈ allNodes ->
  m ∈ allNodes ->
  m = k \/ date m < date k ->
  (m ∈ visibleNodes allNodes (id k :: c) <-> m ∈ visibleNodes allNodes c).
Proof.
  intros Hnd Hk Hm Hbefore.
  assert (NoDup (id <$> stable_sort by_date allNodes)) as Hnds.
  { by rewrite stable_sort_perm. }
  pose proof Hk as Hks. apply (stable_sort_elem by_date) in Hks.
  apply list_elem_of_split in Hks as (l1 & l2 & Hsplit).
  (* the prefix [a] before [m] does not contain [k] *)
  assert (exists a b, stable_sort by_date allNodes = a ++ m :: b /\ id k ∉ id <$> a)
    as (a & b & Hsplit' & Hka).
  { destruct Hbefore as [->|Hdate].
    - exists l1, l2. split; [done|]. rewrite Hsplit, fmap_app in Hnds.
      apply NoDup_app in Hnds as (_ & Hdisj & _). intros Hin.
      apply (Hdisj _ Hin). simpl. apply elem_of_cons. by left.
    - pose proof Hm as Hms. apply (stable_sort_elem by_date) in Hms.
      rewrite Hsplit in Hms. apply elem_of_app in Hms as [Hms|Hms].
      + apply list_elem_of_split in Hms as (a & b & ->).
        exists a, (b ++ k :: l2). split; [by rewrite Hsplit, <- app_assoc|].
        rewrite Hsplit, !fmap_app in Hnds.
        apply NoDup_app in Hnds as (_ & Hdisj & _). intros Hin.
        apply (Hdisj (id k)); [apply elem_of_app; by left|].
        simpl. apply elem_of_cons. by left.
      + exfalso. pose proof (sortedNodes_sorted allNodes) as Hs. unfold sortedNodes in Hs.
        rewrite Hsplit in Hs. apply StronglySorted_app_1_r in Hs.
        apply elem_of_cons in Hms as [->|Hms]; [lia|].
        apply StronglySorted_inv in Hs as [_ Hall].
        rewrite Forall_forall in Hall. specialize (Hall m Hms). simpl in Hall. lia. }
  assert (forall c0, id m ∈ visibleSet_of allNodes c0
                     <-> parentIds m = []
                         \/ has_visible_parent c0 (foldl (visible_visit c0) ∅ a) m) as Hchar.
  { intros c0. unfold visibleSet_of. rewrite visible_fold_spec. split.
    - intros (a' & m' & b' & Heq & Hid & Hcond).
      rewrite Hsplit' in Heq, Hnds.
      assert (a = a') as <- by (by apply (split_unique a b a' b' m m')).
      apply app_inv_head in Heq. injection Heq as <- _. done.
    - intros Hcond. by exists a, m, b. }
  rewrite !visibleNodes_elem, !Hchar, (visible_fold_before c k a Hka).
  assert (has_visible_parent (id k :: c) (foldl (visible_visit c) ∅ a) m
          <-> has_visible_parent c (foldl (visible_visit c) ∅ a) m) as ->; [|done].
  unfold has_visible_parent. split; intros (p & Hp & HpS & Hpc); exists p;
    (split; [done|]; split; [done|]).
  - intros ?. apply Hpc, elem_of_cons. by right.
  - intros [->|?]%elem_of_cons; [|done]. by apply Hka, (visible_fold_ids c).
Qed.

Lemma collapsing_keeps_the_node_itself_witness :
  NoDup (id <$> collapse_example)
  /\ mk "B" 1 ["A"%string] ∈ collapse_example
  /\ (mk "B" 1 ["A"%string] ∈ visibleNodes collapse_example ["B"%string]
      <-> mk "B" 1 ["A"%string] ∈ visibleNodes collapse_example []).
Proof.
  assert (NoDup (id <$> collapse_example)) as Hnd.
  { apply (bool_decide_unpack _). vm_compute. exact I. }
  assert (mk "B" 1 ["A"%string] ∈ collapse_example) as HB.
  { vm_compute. repeat constructor. }
  split; [exact Hnd|]. split; [exact HB|].
  apply (collapsing_keeps_the_node_itself collapse_example [] (mk "B" 1 ["A"%string])
           (mk "B" 1 ["A"%string]) Hnd HB HB). by left.
Defined.

(** ** The filter feeds the layout engine *)

Section SortFilter.
Context {A : Type} (cmp : A -> A -> Z) (P : A -> Prop) `{forall a, Decision (P a)}.
Hypothesis cmp_total : forall a b, 0 < cmp a b -> cmp b a <= 0.
Hypothesis cmp_trans : forall a b c, cmp a b <= 0 -> cmp b c <= 0 -> cmp a c <= 0.

Lemma sort_insert_filter a l :
  StronglySorted (fun u v => cmp u v <= 0) l ->
  filter P (sort_insert cmp a l)
  = if decide (P a) then sort_insert cmp a (filter P l) else filter P l.
Proof.
  induction 1 as [|b l Hl IH Hb]; simpl.
  - rewrite filter_cons. by destruct (decide (P a)).
  - destruct (Z.leb_spec (cmp a b) 0) as [Hab|Hab].
    + rewrite (filter_cons P a). destruct (decide (P a)) as [Ha|Ha]; [|done].
      rewrite (filter_cons P b). destruct (decide (P b)) as [HPb|HPb].
      * simpl. destruct (Z.leb_spec (cmp a b) 0); [done|lia].
      * assert (forall k, Forall (fun v => cmp a v <= 0) k ->
                  sort_insert cmp a k = a :: k) as Hfront.
        { intros k Hk. destruct Hk as [|v k Hv Hk]; simpl; [done|].
          destruct (Z.leb_spec (cmp a v) 0); [done|lia]. }
        rewrite Hfront; [done|].
        apply Forall_forall. intros v Hv. apply list_elem_of_filter in Hv as [_ Hv].
        rewrite Forall_forall in Hb. apply (cmp_trans a b v Hab). by apply Hb.
    + rewrite !(filter_cons P b), IH. destruct (decide (P b)) as [HPb|HPb].
      * destruct (decide (P a)); [|done]. simpl.
        destruct (Z.leb_spec (cmp a b) 0); [lia|done].
      * done.
Qed.

(** Sorting and filtering commute: the sort is stable. *)
Lemma stable_sort_filter l :
  stable_sort cmp (filter P l) = filter P (stable_sort cmp l).
Proof.
  induction l as [|a l IH]; [done|].
  simpl. rewrite sort_insert_filter by (by apply stable_sort_sorted).
  rewrite filter_cons. destruct (decide (P a)); [|done]. simpl. by rewrite IH.
Qed.
End SortFilter.

Lemma rank_visit_keeps (st : gmap string Z * bool) n i :
  is_Some (st.1 !! i) -> is_Some ((rank_visit st n).1 !! i).
Proof.
  intros Hi. destruct (rank_visit_cases st n) as [->|(m & _ & _ & _ & ->)]; [done|].
  simpl. destruct (decide (id n = i)) as [<-|Hne].
  - rewrite lookup_insert_eq. by eexists.
  - by rewrite lookup_insert_ne.
Qed.

Lemma rank_fold_keeps l (st : gmap string Z * bool) i :
  is_Some (st.1 !! i) -> is_Some ((foldl rank_visit st l).1 !! i).
Proof.
  revert st. induction l as [|n l IH]; intros st Hi; simpl; [done|].
  by apply IH, rank_visit_keeps.
Qed.

Lemma rank_while_keeps fuel sorted maxIterations i :
  forall changed iterations ranks iterations' ranks',
    is_Some (ranks !! i) ->
    rank_while fuel sorted maxIterations changed iterations ranks
      = Some (iterations', ranks') ->
    is_Some (ranks' !! i).
Proof.
  induction fuel as [|fuel IH];
    intros changed iterations ranks iterations' ranks' Hi; simpl.
  - destruct (changed && (iterations <? maxIterations)%nat); [done|].
    by intros [= <- <-].
  - destruct (changed && (iterations <? maxIterations)%nat); [|by intros [= <- <-]].
    destruct (rank_pass sorted ranks) as [ranks1 changed1] eqn:Hpass.
    apply IH. change ranks1 with (ranks1, changed1).1. rewrite <- Hpass.
    by apply rank_fold_keeps.
Qed.

(** A ranked parent is enough for the visited node to end up ranked. *)
Lemma rank_visit_with_ranked_parent (st : gmap string Z * bool) n p :
  p ∈ parentIds n -> is_Some (st.1 !! p) -> is_Some ((rank_visit st n).1 !! id n).
Proof.
  intros Hp Hranked.
  assert (exists m, scan_parents st.1 (parentIds n) = (m, true) /\ -1 <= m) as (m & Hscan & Hm).
  { unfold scan_parents.
    assert (forall (pids : list string) (acc : Z * bool), -1 <= acc.1 ->
              (acc.2 = true \/ exists q, q ∈ pids /\ is_Some (st.1 !! q)) ->
              exists m, foldl (fun acc pid => match st.1 !! pid with
                                              | Some r => (Z.max acc.1 r, true)
                                              | None => acc
                                              end) acc pids = (m, true)
                        /\ -1 <= m) as Hgen.
    { induction pids as [|q qs IH]; intros acc Hlow Hacc; simpl.
      - destruct Hacc as [Hacc|(q & Hq & _)]; [|by apply elem_of_nil in Hq].
        exists acc.1. split; [|done]. destruct acc as [a b]. simpl in *. by subst.
      - apply IH.
        + destruct (st.1 !! q); simpl; lia.
        + destruct (st.1 !! q) as [r|] eqn:Hq; simpl; [by left|].
          destruct Hacc as [?|(q' & Hq' & Hsome)]; [by left|]. right.
          apply elem_of_cons in Hq' as [->|Hq'].
          * rewrite Hq in Hsome. by destruct Hsome.
          * by exists q'. }
    apply Hgen; simpl; [lia|]. right. by exists p. }
  unfold rank_visit. destruct (parentIds n) as [|q qs] eqn:Hqs; [by apply elem_of_nil in Hp|].
  rewrite Hscan.
  destruct (Z.ltb_spec (default (-1) (st.1 !! id n)) (m + 1)) as [Hlt|Hge]; simpl.
  - rewrite lookup_insert_eq. by eexists.
  - destruct (st.1 !! id n) as [r|]; [by eexists|]. simpl in Hge. lia.
Qed.

Lemma sortedNodes_visibleNodes allNodes c :
  sortedNodes (visibleNodes allNodes c)
  = filter (fun n => id n ∈ visibleSet_of allNodes c) (stable_sort by_date allNodes).
Proof.
  unfold sortedNodes, visibleNodes. apply stable_sort_filter; unfold by_date; intros; lia.
Qed.

(** After the nodes [l1] of the date order, every id made visible so far
    has a rank in the first pass of the rank loop over the visible nodes. *)
Lemma first_pass_ranks_visible allNodes c l1 l2 i :
  stable_sort by_date allNodes = l1 ++ l2 ->
  i ∈ foldl (visible_visit c) ∅ l1 ->
  is_Some ((foldl rank_visit
              (init_roots (sortedNodes (visibleNodes allNodes c)), false)
              (filter (fun n => id n ∈ visibleSet_of allNodes c) l1)).1 !! i).
Proof.
  revert l2 i. induction l1 as [|n l1 IH] using rev_ind; intros l2 i Heq Hi.
  - simpl in Hi. by apply not_elem_of_empty in Hi.
  - rewrite <- app_assoc in Heq. simpl in Heq.
    rewrite foldl_app in Hi. simpl in Hi. rewrite filter_app, foldl_app.
    apply visible_visit_spec in Hi as [Hi|(-> & Hcond)].
    + apply rank_fold_keeps. by apply (IH (n :: l2)).
    + assert (id n ∈ visibleSet_of allNodes c) as Hvis.
      { unfold visibleSet_of. rewrite Heq. apply visible_fold_spec. by exists l1, n, l2. }
      rewrite filter_cons_True by done. rewrite filter_nil. simpl.
      destruct Hcond as [Hroot|(p & Hp & HpS & _)].
      * apply rank_visit_keeps, rank_fold_keeps. simpl.
        rewrite init_roots_root; [by eexists| |done].
        rewrite sortedNodes_visibleNodes, Heq. apply list_elem_of_filter.
        split; [done|]. apply elem_of_app. right. apply elem_of_cons. by left.
      * apply (rank_visit_with_ranked_parent _ n p Hp).
        by apply (IH (n :: l2)).
Qed.

(** X11. On the list that the visibility filter passes to the layout
    engine, the rank loop alone ranks every node: the index fallback
    changes nothing, whatever is collapsed. *)
Theorem visible_nodes_rank_without_fallback fuel allNodes c :
  (length (visibleNodes allNodes c) + 2 <= fuel)%nat ->
  exists iterations ranks,
    rank_while fuel (sortedNodes (visibleNodes allNodes c))
      (length (visibleNodes allNodes c) + 2) true 0
      (init_roots (sortedNodes (visibleNodes allNodes c)))
    = Some (iterations, ranks)
    /\ (forall n, n ∈ visibleNodes allNodes c -> is_Some (ranks !! id n))
    /\ rank_fallback (sortedNodes (visibleNodes allNodes c)) 0 ranks = ranks
    /\ compute_ranks fuel (visibleNodes allNodes c) = Some (iterations, ranks).
Proof.
  intros Hfuel.
  destruct (rank_while_total fuel (sortedNodes (visibleNodes allNodes c))
              (length (visibleNodes allNodes c) + 2) true O
              (init_roots (sortedNodes (visibleNodes allNodes c))))
    as (its & ranks & Hloop & _); [lia|].
  exists its, ranks. split; [done|].
  assert (forall n, n ∈ visibleNodes allNodes c -> is_Some (ranks !! id n)) as Hall.
  { intros n Hn. apply visibleNodes_elem in Hn as [_ Hvis].
    destruct fuel as [|fuel]; [lia|].
    replace (length (visibleNodes allNodes c) + 2)%nat
      with (S (S (length (visibleNodes allNodes c)))) in Hloop by lia.
    simpl in Hloop.
    destruct (rank_pass _ _) as [ranks1 changed1] eqn:Hpass in Hloop.
    eapply rank_while_keeps; [|exact Hloop].
    change ranks1 with (ranks1, changed1).1. rewrite <- Hpass. unfold rank_pass.
    rewrite sortedNodes_visibleNodes at 2.
    apply (first_pass_ranks_visible allNodes c (stable_sort by_date allNodes) []).
    - by rewrite app_nil_r.
    - exact Hvis. }
  split; [done|].
  assert (rank_fallback (sortedNodes (visibleNodes allNodes c)) 0 ranks = ranks) as Hfb.
  { apply rank_fallback_id. intros n Hn. apply Hall.
    exact (proj1 (sortedNodes_elem _ _) Hn). }
  split; [done|].
  unfold compute_ranks. rewrite Hloop. simpl. by rewrite Hfb.
Qed.

Lemma visible_nodes_rank_without_fallback_witness :
  (length (visibleNodes collapse_example ["B"%string]) + 2 <= 5)%nat /\
  exists iterations ranks,
    rank_while 5 (sortedNodes (visibleNodes collapse_example ["B"%string]))
      (length (visibleNodes collapse_example ["B"%string]) + 2) true 0
      (init_roots (sortedNodes (visibleNodes collapse_example ["B"%string])))
    = Some (iterations, ranks)
    /\ (forall n, n ∈ visibleNodes collapse_example ["B"%string] ->
          is_Some (ranks !! id n))
    /\ rank_fallback (sortedNodes (visibleNodes collapse_example ["B"%string])) 0 ranks
       = ranks
    /\ compute_ranks 5 (visibleNodes collapse_example ["B"%string])
       = Some (iterations, ranks).
Proof.
  assert (length (visibleNodes collapse_example ["B"%string]) + 2 <= 5)%nat as H.
  { vm_compute. lia. }
  split; [exact H|].
  exact (visible_nodes_rank_without_fallback 5 collapse_example ["B"%string] H).
Defined.

(** X12. The timeline shows exactly the visible nodes, newest first. *)
Theorem timeline_is_newest_first allNodes c :
  timeline_order allNodes c ≡ₚ visibleNodes allNodes c
  /\ StronglySorted (fun a b => date b <= date a) (timeline_order allNodes c).
Proof.
  split; [apply stable_sort_perm|].
  assert (StronglySorted (fun a b => date b - date a <= 0) (timeline_order allNodes c)) as H.
  { unfold timeline_order.
    apply (stable_sort_sorted (fun a b : WorkflowNode => date b - date a)); intros; lia. }
  induction H as [|a l Hl IH Ha]; constructor; [done|].
  eapply Forall_impl; [exact Ha|]. intros b. simpl. lia.
Qed.

(** * The editor state (context/WorkflowContext.tsx)

    The provider's state is the sheets, the id of the active sheet and
    the collapsed ids; each operation is a function on that state.  The
    ids that the code draws from [uuidv4()] and the current time are
    parameters.  A [Partial<WorkflowNode>] is a record of optional
    fields. *)

Record Sheet := {
  sheet_id : string;
  sheet_name : string;
  sheet_nodes : list WorkflowNode
}.

Record AppState := {
  sheets : list Sheet;
  activeSheetId : string;
  collapsedNodeIds : list string
}.

Record PartialNode := {
  p_id : option string;
  p_title : option string;
  p_description : option string;
  p_date : option Z;
  p_status : option NodeStatus;
  p_parentIds : option (list string)
}.

(** Lines 57-59: the nodes of the active sheet, of the first sheet when
    the active id names none, and none when there is no sheet. *)
Definition current_nodes (st : AppState) : list WorkflowNode :=
  match List.find (fun s => bool_decide (sheet_id s = activeSheetId st)) (sheets st) with
  | Some s => sheet_nodes s
  | None => match sheets st with
            | s :: _ => sheet_nodes s
            | [] => []
            end
  end.

Definition updateActiveSheetNodes (newNodes : list WorkflowNode) (st : AppState) : AppState :=
  {| sheets := (fun s => if decide (sheet_id s = activeSheetId st)
                         then {| sheet_id := sheet_id s; sheet_name := sheet_name s;
                                 sheet_nodes := newNodes |}
                         else s) <$> sheets st;
     activeSheetId := activeSheetId st;
     collapsedNodeIds := collapsedNodeIds st |}.

(** [filtered] and [cleaned] of [deleteNode]. *)
Definition remove_node (i : string) (l : list WorkflowNode) : list WorkflowNode :=
  (fun n => {| id := id n; title := title n; description := description n;
               date := date n; status := status n;
               parentIds := filter (fun pid => pid <> i) (parentIds n) |})
    <$> filter (fun n => id n <> i) l.

Definition deleteNode (i : string) (st : AppState) : AppState :=
  if decide (i = "root"%string) then st
  else
    let st' := updateActiveSheetNodes (remove_node i (current_nodes st)) st in
    {| sheets := sheets st';
       activeSheetId := activeSheetId st';
       collapsedNodeIds := filter (fun cid => cid <> i) (collapsedNodeIds st) |}.

(** [a || b] on strings: the empty string is falsy. *)
Definition or_string (a : option string) (b : string) : string :=
  match a with
  | Some s => if decide (s = ""%string) then b else s
  | None => b
  end.

Definition new_node (newId : string) (now : Z) (parentId : option string)
    (data : PartialNode) : WorkflowNode :=
  {| id := newId;
     title := or_string (p_title data) "New Task";
     description := or_string (p_description data) "";
     date := default now (p_date data);
     status := default active (p_status data);
     parentIds := match parentId with
                  | Some p => if decide (p = ""%string) then [] else [p]
                  | None => []
                  end |}.

Definition addNode (newId : string) (now : Z) (parentId : option string)
    (data : PartialNode) (st : AppState) : AppState :=
  let st' := updateActiveSheetNodes
               (current_nodes st ++ [new_node newId now parentId data]) st in
  {| sheets := sheets st';
     activeSheetId := activeSheetId st';
     collapsedNodeIds :=
       match parentId with
       | Some p =>
           if decide (p = ""%string) then collapsedNodeIds st
           else if decide (p ∈ collapsedNodeIds st)
                then filter (fun i => i <> p) (collapsedNodeIds st)
                else collapsedNodeIds st
       | None => collapsedNodeIds st
       end |}.

(** The spread [{ ...n, ...data }]. *)
Definition merge_node (n : WorkflowNode) (data : PartialNode) : WorkflowNode :=
  {| id := default (id n) (p_id data);
     title := default (title n) (p_title data);
     description := default (description n) (p_description data);
     date := default (date n) (p_date data);
     status := default (status n) (p_status data);
     parentIds := default (parentIds n) (p_parentIds data) |}.

Definition updateNode (i : string) (data : PartialNode) (st : AppState) : AppState :=
  updateActiveSheetNodes
    ((fun n => if decide (id n = i) then merge_node n data else n) <$> current_nodes st) st.

Definition toggleNodeCollapse (i : string) (st : AppState) : AppState :=
  {| sheets := sheets st;
     activeSheetId := activeSheetId st;
     collapsedNodeIds :=
       if decide (i ∈ collapsedNodeIds st)
       then filter (fun pid => pid <> i) (collapsedNodeIds st)
       else collapsedNodeIds st ++ [i] |}.

Definition switchSheet (i : string) (st : AppState) : AppState :=
  if decide (i ∈ sheet_id <$> sheets st)
  then {| sheets := sheets st; activeSheetId := i; collapsedNodeIds := [] |}
  else st.

Definition renameSheet (i name : string) (st : AppState) : AppState :=
  {| sheets := (fun s => if decide (sheet_id s = i)
                         then {| sheet_id := sheet_id s; sheet_name := name;
                                 sheet_nodes := sheet_nodes s |}
                         else s) <$> sheets st;
     activeSheetId := activeSheetId st;
     collapsedNodeIds := collapsedNodeIds st |}.

(** [deleteSheet]; [None] is the [TypeError] of [newSheets[0].id] when
    no sheet is left. *)
Definition deleteSheet (i : string) (st : AppState) : option AppState :=
  if decide (length (sheets st) <= 1)%nat then Some st
  else
    let newSheets := filter (fun s => sheet_id s <> i) (sheets st) in
    if decide (activeSheetId st = i \/ activeSheetId st ∉ sheet_id <$> newSheets)
    then match newSheets with
         | s :: _ => Some {| sheets := newSheets; activeSheetId := sheet_id s;
                             collapsedNodeIds := [] |}
         | [] => None
         end
    else Some {| sheets := newSheets; activeSheetId := activeSheetId st;
                 collapsedNodeIds := collapsedNodeIds st |}.

(** ** Edits and the active sheet *)

Lemma find_sheet_Some (l : list Sheet) i :
  i ∈ sheet_id <$> l ->
  exists s, List.find (fun s => bool_decide (sheet_id s = i)) l = Some s /\ sheet_id s = i.
Proof.
  induction l as [|a l IH]; simpl; [by intros ?%elem_of_nil|].
  intros Hi. destruct (decide (sheet_id a = i)) as [Ha|Ha].
  - exists a. by rewrite bool_decide_eq_true_2.
  - rewrite bool_decide_eq_false_2 by done. apply IH.
    apply elem_of_cons in Hi as [?|?]; [congruence|done].
Qed.

Lemma find_sheet_None (l : list Sheet) i :
  i ∉ sheet_id <$> l ->
  List.find (fun s => bool_decide (sheet_id s = i)) l = None.
Proof.
  induction l as [|a l IH]; simpl; [done|].
  rewrite not_elem_of_cons. intros [Ha Hl].
  rewrite bool_decide_eq_false_2 by congruence. by apply IH.
Qed.

Lemma current_nodes_update newNodes st :
  activeSheetId st ∈ sheet_id <$> sheets st ->
  current_nodes (updateActiveSheetNodes newNodes st) = newNodes.
Proof.
  unfold current_nodes, updateActiveSheetNodes. simpl.
  generalize (activeSheetId st) as i. intros i.
  induction (sheets st) as [|a l IH]; simpl; [by intros ?%elem_of_nil|].
  intros Hi. destruct (decide (sheet_id a = i)) as [Ha|Ha]; simpl.
  - by rewrite bool_decide_eq_true_2.
  - rewrite bool_decide_eq_false_2 by done.
    apply elem_of_cons in Hi as [?|Hi]; [congruence|].
    specialize (IH Hi).
    destruct (List.find _ _) as [s|] eqn:Hfind; [done|].
    exfalso. revert Hfind. clear IH.
    destruct (find_sheet_Some
                ((fun s => if decide (sheet_id s = i)
                           then {| sheet_id := sheet_id s; sheet_name := sheet_name s;
                                   sheet_nodes := newNodes |}
                           else s) <$> l) i) as (s & -> & _); [|done].
    rewrite <- list_fmap_compose.
    apply list_elem_of_fmap in Hi as (s & -> & Hs).
    apply list_elem_of_fmap. exists s. split; [|done].
    simpl. by destruct (decide (sheet_id s = sheet_id s)).
Qed.


(** ** Deleting a node *)

Lemma remove_node_elem i l n' :
  n' ∈ remove_node i l
  <-> exists n, n ∈ l /\ id n <> i
                /\ n' = {| id := id n; title := title n; description := description n;
                           date := date n; status := status n;
                           parentIds := filter (fun pid => pid <> i) (parentIds n) |}.
Proof.
  unfold remove_node. rewrite list_elem_of_fmap. split.
  - intros (n & -> & Hn). apply list_elem_of_filter in Hn as [Hne Hn]. by exists n.
  - intros (n & Hn & Hne & ->). exists n. split; [done|]. by apply list_elem_of_filter.
Qed.

Lemma remove_node_ids i l :
  id <$> remove_node i l = filter (fun k => k <> i) (id <$> l).
Proof.
  unfold remove_node. induction l as [|n l IH]; [done|].
  rewrite (fmap_cons id), !filter_cons.
  destruct (decide (id n <> i)); [|done].
  rewrite !fmap_cons. simpl. by rewrite <- IH.
Qed.

Lemma remove_node_parent_of i l p c :
  parent_of (remove_node i l) p c -> parent_of l p c.
Proof.
  intros (n' & Hn' & <- & Hp). apply remove_node_elem in Hn' as (n & Hn & _ & ->).
  simpl in *. apply list_elem_of_filter in Hp as [_ Hp]. by exists n.
Qed.

Lemma tc_subrel {A} (R R' : relation A) a b :
  (forall u v, R u v -> R' u v) -> tc R a b -> tc R' a b.
Proof.
  intros Hsub. induction 1 as [a b HR|a b c HR _ IH].
  - by apply tc_once, Hsub.
  - eapply tc_l; [by apply Hsub|done].
Qed.

(** X14. Deleting a node other than "root" removes it from the active
    sheet together with every reference to it and un-collapses it; ids
    stay pairwise distinct, no cycle appears, and if every parent was
    present before, every parent is present after. *)
Theorem deleteNode_leaves_no_reference i st :
  activeSheetId st ∈ sheet_id <$> sheets st ->
  i <> "root"%string ->
  current_nodes (deleteNode i st) = remove_node i (current_nodes st)
  /\ (i ∉ id <$> current_nodes (deleteNode i st))
  /\ (forall n, n ∈ current_nodes (deleteNode i st) -> i ∉ parentIds n)
  /\ (i ∉ collapsedNodeIds (deleteNode i st))
  /\ (NoDup (id <$> current_nodes st) -> NoDup (id <$> current_nodes (deleteNode i st)))
  /\ (acyclic (current_nodes st) -> acyclic (current_nodes (deleteNode i st)))
  /\ (parents_present (current_nodes st) ->
        parents_present (current_nodes (deleteNode i st))).
Proof.
  intros Hactive Hne.
  assert (current_nodes (deleteNode i st) = remove_node i (current_nodes st)) as Hcur.
  { unfold deleteNode. rewrite decide_False by done.
    change (current_nodes _) with
      (current_nodes (updateActiveSheetNodes (remove_node i (current_nodes st)) st)) at 1.
    by apply current_nodes_update. }
  split; [done|]. rewrite Hcur. split; [|split; [|split; [|split; [|split]]]].
  - rewrite remove_node_ids. intros Hin. by apply list_elem_of_filter in Hin as [? _].
  - intros n' Hn'. apply remove_node_elem in Hn' as (n & _ & _ & ->). simpl.
    intros Hin. by apply list_elem_of_filter in Hin as [? _].
  - unfold deleteNode. rewrite decide_False by done. simpl.
    intros Hin. by apply list_elem_of_filter in Hin as [? _].
  - intros Hnd. rewrite remove_node_ids. by apply NoDup_filter.
  - intros Hacyc k Hk. apply (Hacyc k).
    eapply tc_subrel; [|exact Hk]. intros u v. apply remove_node_parent_of.
  - intros Hpres n' p Hn' Hp. apply remove_node_elem in Hn' as (n & Hn & Hn_ne & ->).
    simpl in Hp. apply list_elem_of_filter in Hp as [Hpi Hp].
    rewrite remove_node_ids. apply list_elem_of_filter. split; [done|].
    by apply (Hpres n).
Qed.

Definition one_sheet (l : list WorkflowNode) (collapsed : list string) : AppState :=
  {| sheets := [ {| sheet_id := "default-sheet"; sheet_name := "Main Roadmap";
                    sheet_nodes := l |} ];
     activeSheetId := "default-sheet";
     collapsedNodeIds := collapsed |}.

Definition diamond_state : AppState := one_sheet diamond ["B"%string].

Lemma deleteNode_leaves_no_reference_witness :
  activeSheetId diamond_state ∈ sheet_id <$> sheets diamond_state
  /\ "B"%string <> "root"%string
  /\ current_nodes (deleteNode "B" diamond_state)
     = remove_node "B" (current_nodes diamond_state)
  /\ ("B"%string ∉ id <$> current_nodes (deleteNode "B" diamond_state))
  /\ (forall n, n ∈ current_nodes (deleteNode "B" diamond_state) ->
        "B"%string ∉ parentIds n)
  /\ ("B"%string ∉ collapsedNodeIds (deleteNode "B" diamond_state))
  /\ (NoDup (id <$> current_nodes diamond_state) ->
        NoDup (id <$> current_nodes (deleteNode "B" diamond_state)))
  /\ (acyclic (current_nodes diamond_state) ->
        acyclic (current_nodes (deleteNode "B" diamond_state)))
  /\ (parents_present (current_nodes diamond_state) ->
        parents_present (current_nodes (deleteNode "B" diamond_state))).
Proof.
  assert (activeSheetId diamond_state ∈ sheet_id <$> sheets diamond_state) as Ha.
  { vm_compute. repeat constructor. }
  assert ("B"%string <> "root"%string) as Hne by discriminate.
  split; [exact Ha|]. split; [exact Hne|].
  exact (deleteNode_leaves_no_reference "B" diamond_state Ha Hne).
Defined.

(** Deleting B from the diamond leaves D with the single parent C. *)
Example delete_B_from_diamond :
  (fun n => (id n, parentIds n)) <$> current_nodes (deleteNode "B" diamond_state)
  = [("D", ["C"]); ("C", ["A"]); ("A", [])]%string.
Proof. vm_compute. reflexivity. Qed.

Lemma current_nodes_deleteNode i st :
  activeSheetId st ∈ sheet_id <$> sheets st ->
  i <> "root"%string ->
  current_nodes (deleteNode i st) = remove_node i (current_nodes st).
Proof.
  intros Hactive Hne. unfold deleteNode. rewrite decide_False by done.
  change (current_nodes _) with
    (current_nodes (updateActiveSheetNodes (remove_node i (current_nodes st)) st)) at 1.
  by apply current_nodes_update.
Qed.

(** X15. No call of [deleteNode] removes the node with id "root": if
    the active sheet has one before, it has one after. *)
Theorem root_node_is_never_deleted i st :
  activeSheetId st ∈ sheet_id <$> sheets st ->
  "root"%string ∈ id <$> current_nodes st ->
  "root"%string ∈ id <$> current_nodes (deleteNode i st).
Proof.
  intros Hactive Hroot. destruct (decide (i = "root"%string)) as [->|Hne].
  - unfold deleteNode. by rewrite decide_True.
  - rewrite (current_nodes_deleteNode i st Hactive Hne).
    rewrite remove_node_ids. apply list_elem_of_filter. split; [congruence|done].
Qed.

Definition initial_state (loadTime : Z) : AppState :=
  one_sheet [ {| id := "root"; title := "Project Kickoff";
                 description := "Initial brainstorming and requirement gathering (100% Focus)";
                 date := loadTime; status := completed; parentIds := [] |} ] [].

Lemma root_node_is_never_deleted_witness :
  activeSheetId (initial_state 0) ∈ sheet_id <$> sheets (initial_state 0)
  /\ "root"%string ∈ id <$> current_nodes (initial_state 0)
  /\ "root"%string ∈ id <$> current_nodes (deleteNode "root" (initial_state 0)).
Proof.
  assert (activeSheetId (initial_state 0) ∈ sheet_id <$> sheets (initial_state 0)) as Ha.
  { vm_compute. repeat constructor. }
  assert ("root"%string ∈ id <$> current_nodes (initial_state 0)) as Hr.
  { vm_compute. repeat constructor. }
  split; [exact Ha|]. split; [exact Hr|].
  exact (root_node_is_never_deleted "root" (initial_state 0) Ha Hr).
Defined.

(** ** Adding a node *)

Lemma new_node_parents newId now parentId data p :
  p ∈ parentIds (new_node newId now parentId data) -> parentId = Some p /\ p <> ""%string.
Proof.
  unfold new_node. simpl. destruct parentId as [q|]; [|by intros ?%elem_of_nil].
  destruct (decide (q = ""%string)); [by intros ?%elem_of_nil|].
  intros ->%list_elem_of_singleton. done.
Qed.

Lemma parent_of_snoc l x p c :
  parent_of (l ++ [x]) p c -> parent_of l p c \/ (c = id x /\ p ∈ parentIds x).
Proof.
  intros (n & Hn & <- & Hp). apply elem_of_app in Hn as [Hn|Hn].
  - left. by exists n.
  - apply list_elem_of_singleton in Hn as ->. by right.
Qed.

Lemma acyclic_snoc l x :
  acyclic l -> parents_present l ->
  id x ∉ id <$> l ->
  (forall p, p ∈ parentIds x -> p ∈ id <$> l) ->
  acyclic (l ++ [x]).
Proof.
  intros Hacyc Hpres Hfresh Hpx.
  assert (forall a b, parent_of (l ++ [x]) a b -> a <> id x) as Hsrc.
  { intros a b HR Heq. subst a.
    apply parent_of_snoc in HR as [(n & Hn & _ & Ha)|[_ Ha]].
    - apply Hfresh. by apply (Hpres n).
    - apply Hfresh. by apply Hpx. }
  assert (forall a b, tc (parent_of (l ++ [x])) a b ->
            a <> id x /\ (tc (parent_of l) a b \/ b = id x)) as Hgen.
  { intros a b Htc. induction Htc as [a b HR|a b c HR Htc [Hb IH]].
    - split; [by apply (Hsrc a b)|].
      apply parent_of_snoc in HR as [HR|[-> _]]; [left; by apply tc_once|by right].
    - split; [by apply (Hsrc a b)|].
      apply parent_of_snoc in HR as [HR|[-> _]]; [|done].
      destruct IH as [IH | ->]; [left; by eapply tc_l|by right]. }
  intros i Hi. destruct (Hgen i i Hi) as [Hne [Htc|Heq]]; [by apply (Hacyc i)|done].
Qed.

(** X16. [addNode] appends one node to the active sheet; it has the
    given parent as its only parent, or none (a [parentIds] field in
    [data] is ignored).  With a fresh id and a parent that is in the
    sheet, pairwise distinct ids, presence of all parents and absence of
    cycles are kept, and the parent is no longer collapsed. *)
Theorem addNode_keeps_well_formed newId now parentId data st :
  activeSheetId st ∈ sheet_id <$> sheets st ->
  newId ∉ id <$> current_nodes st ->
  (forall p, parentId = Some p -> p <> ""%string -> p ∈ id <$> current_nodes st) ->
  current_nodes (addNode newId now parentId data st)
    = current_nodes st ++ [new_node newId now parentId data]
  /\ (length (parentIds (new_node newId now parentId data)) <= 1)%nat
  /\ (forall p, parentId = Some p -> p <> ""%string ->
        p ∉ collapsedNodeIds (addNode newId now parentId data st))
  /\ (NoDup (id <$> current_nodes st) ->
        NoDup (id <$> current_nodes (addNode newId now parentId data st)))
  /\ (parents_present (current_nodes st) ->
        parents_present (current_nodes (addNode newId now parentId data st)))
  /\ (parents_present (current_nodes st) -> acyclic (current_nodes st) ->
        acyclic (current_nodes (addNode newId now parentId data st))).
Proof.
  intros Hactive Hfresh Hparent.
  assert (current_nodes (addNode newId now parentId data st)
          = current_nodes st ++ [new_node newId now parentId data]) as Hcur.
  { unfold addNode.
    change (current_nodes _) with
      (current_nodes (updateActiveSheetNodes
                        (current_nodes st ++ [new_node newId now parentId data]) st)) at 1.
    by apply current_nodes_update. }
  assert (forall p, p ∈ parentIds (new_node newId now parentId data) ->
            p ∈ id <$> current_nodes st) as Hpx.
  { intros p Hp. apply new_node_parents in Hp as [Hp Hne]. by apply Hparent. }
  split; [done|]. rewrite Hcur. split; [|split; [|split; [|split]]].
  - unfold new_node. simpl. destruct parentId as [q|]; [|simpl; lia].
    destruct (decide (q = ""%string)); simpl; lia.
  - intros p -> Hne. unfold addNode. simpl. rewrite decide_False by done.
    destruct (decide (p ∈ collapsedNodeIds st)); [|done].
    intros Hin. by apply list_elem_of_filter in Hin as [? _].
  - intros Hnd. rewrite fmap_app. apply NoDup_app. split; [done|].
    split; [|apply NoDup_singleton].
    intros k Hk Hk'. simpl in Hk'. apply list_elem_of_singleton in Hk' as ->. done.
  - intros Hpres n p Hn Hp. rewrite fmap_app, elem_of_app. left.
    apply elem_of_app in Hn as [Hn|Hn]; [by apply (Hpres n)|].
    apply list_elem_of_singleton in Hn as ->. by apply Hpx.
  - intros Hpres Hacyc. by apply acyclic_snoc.
Qed.

Definition no_data : PartialNode :=
  {| p_id := None; p_title := None; p_description := None;
     p_date := None; p_status := None; p_parentIds := None |}.

Lemma addNode_keeps_well_formed_witness :
  activeSheetId diamond_state ∈ sheet_id <$> sheets diamond_state
  /\ ("E"%string ∉ id <$> current_nodes diamond_state)
  /\ (forall p, Some "B"%string = Some p -> p <> ""%string ->
        p ∈ id <$> current_nodes diamond_state)
  /\ current_nodes (addNode "E" 9 (Some "B"%string) no_data diamond_state)
     = current_nodes diamond_state ++ [new_node "E" 9 (Some "B"%string) no_data]
  /\ (length (parentIds (new_node "E" 9 (Some "B"%string) no_data)) <= 1)%nat
  /\ (forall p, Some "B"%string = Some p -> p <> ""%string ->
        p ∉ collapsedNodeIds (addNode "E" 9 (Some "B"%string) no_data diamond_state))
  /\ (NoDup (id <$> current_nodes diamond_state) ->
        NoDup (id <$> current_nodes (addNode "E" 9 (Some "B"%string) no_data diamond_state)))
  /\ (parents_present (current_nodes diamond_state) ->
        parents_present
          (current_nodes (addNode "E" 9 (Some "B"%string) no_data diamond_state)))
  /\ (parents_present (current_nodes diamond_state) ->
      acyclic (current_nodes diamond_state) ->
        acyclic (current_nodes (addNode "E" 9 (Some "B"%string) no_data diamond_state))).
Proof.
  assert (activeSheetId diamond_state ∈ sheet_id <$> sheets diamond_state) as Ha.
  { vm_compute. repeat constructor. }
  assert ("E"%string ∉ id <$> current_nodes diamond_state) as Hfresh.
  { apply (bool_decide_unpack _). vm_compute. exact I. }
  assert (forall p, Some "B"%string = Some p -> p <> ""%string ->
            p ∈ id <$> current_nodes diamond_state) as Hp.
  { intros p [= <-] _. apply (bool_decide_unpack _). vm_compute. exact I. }
  split; [exact Ha|]. split; [exact Hfresh|]. split; [exact Hp|].
  exact (addNode_keeps_well_formed "E" 9 (Some "B"%string) no_data diamond_state
           Ha Hfresh Hp).
Defined.

(** ** Collapsing *)

(** X17. [toggleNodeCollapse] flips whether the id is collapsed and
    changes this for no other id; sheets and active sheet are untouched. *)
Theorem toggle_flips_one_id i st :
  (i ∈ collapsedNodeIds (toggleNodeCollapse i st) <-> i ∉ collapsedNodeIds st)
  /\ (forall j, j <> i ->
        (j ∈ collapsedNodeIds (toggleNodeCollapse i st) <-> j ∈ collapsedNodeIds st))
  /\ sheets (toggleNodeCollapse i st) = sheets st
  /\ activeSheetId (toggleNodeCollapse i st) = activeSheetId st.
Proof.
  unfold toggleNodeCollapse. simpl.
  destruct (decide (i ∈ collapsedNodeIds st)) as [Hin|Hnin]; (split; [|split; [|done]]).
  - rewrite list_elem_of_filter. split; [by intros [? _]|done].
  - intros j Hj. rewrite list_elem_of_filter. tauto.
  - rewrite elem_of_app, list_elem_of_singleton. tauto.
  - intros j Hj. rewrite elem_of_app, list_elem_of_singleton. tauto.
Qed.

(** ** Sheets *)

Lemma filter_sheet_ids i (l : list Sheet) :
  sheet_id <$> filter (fun s => sheet_id s <> i) l
  = filter (fun k => k <> i) (sheet_id <$> l).
Proof.
  induction l as [|s l IH]; [done|].
  rewrite fmap_cons, !filter_cons. destruct (decide (sheet_id s <> i)); [|done].
  rewrite fmap_cons. by rewrite IH.
Qed.

(** X18. With pairwise distinct sheet ids and an active id that names a
    sheet, [deleteSheet] returns normally, never removes the last sheet,
    removes the sheet with the given id when there are at least two, and
    leaves an active id that names a remaining sheet. *)
Theorem deleteSheet_keeps_a_valid_active_sheet i st :
  NoDup (sheet_id <$> sheets st) ->
  activeSheetId st ∈ sheet_id <$> sheets st ->
  exists st',
    deleteSheet i st = Some st'
    /\ sheets st' <> []
    /\ activeSheetId st' ∈ sheet_id <$> sheets st'
    /\ NoDup (sheet_id <$> sheets st')
    /\ sheets st' `sublist_of` sheets st
    /\ ((2 <= length (sheets st))%nat ->
          (i ∉ sheet_id <$> sheets st')
          /\ forall s, s ∈ sheets st -> sheet_id s <> i -> s ∈ sheets st').
Proof.
  intros Hnd Hactive. unfold deleteSheet.
  assert (sheets st <> []) as Hne.
  { intros Heq. rewrite Heq in Hactive. by apply elem_of_nil in Hactive. }
  destruct (decide (length (sheets st) <= 1)%nat) as [Hlen|Hlen].
  { exists st. split; [done|]. split; [done|]. split; [done|]. split; [done|].
    split; [done|]. lia. }
  set (newSheets := filter (fun s => sheet_id s <> i) (sheets st)).
  assert (newSheets <> []) as Hnew.
  { destruct (sheets st) as [|a [|b l]] eqn:Hs; simpl in Hlen; [lia|lia|].
    subst newSheets. simpl in Hnd.
    apply NoDup_cons in Hnd as [Hab _]. rewrite not_elem_of_cons in Hab.
    destruct (decide (sheet_id a = i)) as [Ha|Ha].
    - rewrite filter_cons_False by (intros ?; congruence).
      rewrite filter_cons_True by (intros ?; destruct Hab; congruence). done.
    - by rewrite filter_cons_True. }
  assert (NoDup (sheet_id <$> newSheets)) as Hnd'.
  { subst newSheets. rewrite filter_sheet_ids. by apply NoDup_filter. }
  assert (i ∉ sheet_id <$> newSheets) as Hgone.
  { subst newSheets. rewrite filter_sheet_ids. intros Hin.
    by apply list_elem_of_filter in Hin as [? _]. }
  assert (forall s, s ∈ sheets st -> sheet_id s <> i -> s ∈ newSheets) as Hkeep.
  { intros s Hs Hsi. subst newSheets. by apply list_elem_of_filter. }
  assert (newSheets `sublist_of` sheets st) as Hsub by apply sublist_filter.
  destruct (decide (activeSheetId st = i \/ activeSheetId st ∉ sheet_id <$> newSheets))
    as [Hsw|Hstay].
  - destruct newSheets as [|s rest] eqn:Hns; [done|].
    eexists. split; [done|]. simpl. split; [done|].
    split; [apply elem_of_cons; by left|]. split; [done|]. split; [done|]. done.
  - eexists. split; [done|]. simpl. split; [done|]. split.
    + destruct (decide (activeSheetId st ∈ sheet_id <$> newSheets)); [done|].
      exfalso. apply Hstay. by right.
    + split; [done|]. split; [done|]. done.
Qed.

Definition two_sheets : AppState :=
  {| sheets := [ {| sheet_id := "s1"; sheet_name := "One"; sheet_nodes := diamond |};
                 {| sheet_id := "s2"; sheet_name := "Two"; sheet_nodes := [] |} ];
     activeSheetId := "s1";
     collapsedNodeIds := [] |}.

Lemma deleteSheet_keeps_a_valid_active_sheet_witness :
  NoDup (sheet_id <$> sheets two_sheets)
  /\ activeSheetId two_sheets ∈ sheet_id <$> sheets two_sheets
  /\ exists st',
       deleteSheet "s1" two_sheets = Some st'
       /\ sheets st' <> []
       /\ activeSheetId st' ∈ sheet_id <$> sheets st'
       /\ NoDup (sheet_id <$> sheets st')
       /\ sheets st' `sublist_of` sheets two_sheets
       /\ ((2 <= length (sheets two_sheets))%nat ->
             ("s1"%string ∉ sheet_id <$> sheets st')
             /\ forall s, s ∈ sheets two_sheets -> sheet_id s <> "s1"%string ->
                          s ∈ sheets st').
Proof.
  assert (NoDup (sheet_id <$> sheets two_sheets)) as Hnd.
  { apply (bool_decide_unpack _). vm_compute. exact I. }
  assert (activeSheetId two_sheets ∈ sheet_id <$> sheets two_sheets) as Ha.
  { vm_compute. repeat constructor. }
  split; [exact Hnd|]. split; [exact Ha|].
  exact (deleteSheet_keeps_a_valid_active_sheet "s1" two_sheets Hnd Ha).
Defined.

(** Two sheets that share an id: deleting it leaves no sheet, and
    reading the first remaining sheet fails. *)
Example deleteSheet_shared_id_fails :
  deleteSheet "s"
    {| sheets := [ {| sheet_id := "s"; sheet_name := "One"; sheet_nodes := [] |};
                   {| sheet_id := "s"; sheet_name := "Two"; sheet_nodes := [] |} ];
       activeSheetId := "s"; collapsedNodeIds := [] |} = None.
Proof. vm_compute. reflexivity. Qed.

Lemma find_fmap_sheet (g : Sheet -> Sheet) a (l : list Sheet) :
  (forall s, sheet_id (g s) = sheet_id s) ->
  List.find (fun s => bool_decide (sheet_id s = a)) (g <$> l)
  = g <$> List.find (fun s => bool_decide (sheet_id s = a)) l.
Proof.
  intros Hg. induction l as [|s l IH]; [done|]. simpl. rewrite Hg.
  destruct (bool_decide (sheet_id s = a)); [done|apply IH].
Qed.

(** X19. [switchSheet] and [renameSheet] keep the active id valid:
    switching to an unknown id changes nothing, switching to a known one
    makes it active and clears the collapsed ids, and renaming changes
    neither the sheet ids nor any sheet's nodes. *)
Theorem switch_and_rename_keep_sheets i name st :
  (i ∉ sheet_id <$> sheets st -> switchSheet i st = st)
  /\ (i ∈ sheet_id <$> sheets st ->
        activeSheetId (switchSheet i st) = i
        /\ collapsedNodeIds (switchSheet i st) = []
        /\ sheets (switchSheet i st) = sheets st)
  /\ sheet_id <$> sheets (renameSheet i name st) = sheet_id <$> sheets st
  /\ sheet_nodes <$> sheets (renameSheet i name st) = sheet_nodes <$> sheets st
  /\ current_nodes (renameSheet i name st) = current_nodes st.
Proof.
  split; [|split; [|split; [|split]]].
  - intros Hi. unfold switchSheet. by rewrite decide_False.
  - intros Hi. unfold switchSheet. by rewrite decide_True.
  - unfold renameSheet. simpl. rewrite <- list_fmap_compose. apply list_fmap_ext.
    intros k s _. simpl. by destruct (decide (sheet_id s = i)).
  - unfold renameSheet. simpl. rewrite <- list_fmap_compose. apply list_fmap_ext.
    intros k s _. simpl. by destruct (decide (sheet_id s = i)).
  - unfold current_nodes, renameSheet. simpl.
    rewrite find_fmap_sheet by (intros s; by destruct (decide (sheet_id s = i))).
    destruct (List.find _ (sheets st)) as [s|]; simpl.
    + by destruct (decide (sheet_id s = i)).
    + destruct (sheets st) as [|s l]; simpl; [done|].
      by destruct (decide (sheet_id s = i)).
Qed.

(** ** A node just added and the visibility filter *)

Lemma sort_insert_before_or_at l1 x l2 a :
  date a <= date x ->
  (forall b, b ∈ l2 -> date x < date b) ->
  exists l1',
    sort_insert by_date a (l1 ++ x :: l2) = l1' ++ x :: l2
    /\ sort_insert by_date a (l1 ++ l2) = l1' ++ l2
    /\ forall b, b ∈ l1' -> b = a \/ b ∈ l1.
Proof.
  intros Hax Hl2. induction l1 as [|b l1 IH]; simpl.
  - exists [a]. assert ((by_date a x <=? 0) = true) as ->.
    { apply Z.leb_le. unfold by_date. lia. }
    split; [done|]. split.
    + destruct l2 as [|b l2]; [done|]. simpl.
      assert (date x < date b) by (apply Hl2, elem_of_cons; by left).
      assert ((by_date a b <=? 0) = true) as ->; [|done].
      apply Z.leb_le. unfold by_date. lia.
    + intros b ->%list_elem_of_singleton. by left.
  - destruct (by_date a b <=? 0).
    + exists (a :: b :: l1). split; [done|]. split; [done|].
      intros k [->|Hk]%elem_of_cons; [by left|by right].
    + destruct IH as (l1' & -> & -> & Hl1'). exists (b :: l1'). split; [done|].
      split; [done|]. intros k [->|Hk]%elem_of_cons.
      * right. apply elem_of_cons. by left.
      * destruct (Hl1' k Hk) as [?|?]; [by left|right; apply elem_of_cons; by right].
Qed.

Lemma sort_insert_after l1 x l2 a :
  date x < date a ->
  (forall b, b ∈ l1 -> date b <= date x) ->
  sort_insert by_date a (l1 ++ x :: l2) = l1 ++ x :: sort_insert by_date a l2
  /\ sort_insert by_date a (l1 ++ l2) = l1 ++ sort_insert by_date a l2.
Proof.
  intros Hxa Hl1. induction l1 as [|b l1 IH]; simpl.
  - assert ((by_date a x <=? 0) = false) as ->; [|done].
    apply Z.leb_gt. unfold by_date. lia.
  - assert (date b <= date x) by (apply Hl1, elem_of_cons; by left).
    assert ((by_date a b <=? 0) = false) as ->.
    { apply Z.leb_gt. unfold by_date. lia. }
    destruct IH as [-> ->]; [|done].
    intros k Hk. apply Hl1, elem_of_cons. by right.
Qed.

(** The node appended last sorts behind every node that is not dated
    later, and the other nodes keep their order. *)
Lemma sorted_snoc_split l x :
  exists l1 l2,
    stable_sort by_date (l ++ [x]) = l1 ++ x :: l2
    /\ stable_sort by_date l = l1 ++ l2
    /\ (forall b, b ∈ l1 -> date b <= date x)
    /\ (forall b, b ∈ l2 -> date x < date b).
Proof.
  induction l as [|a l (l1 & l2 & Hx & Hl & H1 & H2)]; simpl.
  - exists [], []. split; [done|]. split; [done|].
    split; intros b Hb; by apply elem_of_nil in Hb.
  - rewrite Hx, Hl. destruct (Z.le_gt_cases (date a) (date x)) as [Hle|Hgt].
    + destruct (sort_insert_before_or_at l1 x l2 a Hle H2) as (l1' & -> & -> & Hl1').
      exists l1', l2. split; [done|]. split; [done|]. split; [|done].
      intros b Hb. destruct (Hl1' b Hb) as [->|?]; [done|by apply H1].
    + destruct (sort_insert_after l1 x l2 a) as [-> ->]; [lia|done|].
      exists l1, (sort_insert by_date a l2). split; [done|]. split; [done|].
      split; [done|]. intros b Hb. rewrite sort_insert_perm in Hb.
      apply elem_of_cons in Hb as [->|Hb]; [lia|by apply H2].
Qed.

Lemma visible_fold_less_collapsed c c' l :
  (forall i, i ∈ c' -> i ∈ c) ->
  foldl (visible_visit c) ∅ l ⊆ foldl (visible_visit c') ∅ l.
Proof.
  intros Hc.
  assert (forall S S' : gset string, S ⊆ S' ->
            foldl (visible_visit c) S l ⊆ foldl (visible_visit c') S' l) as Hgen.
  { induction l as [|n l IH]; intros S S' HS; simpl; [done|].
    by apply IH, visible_visit_mono. }
  by apply Hgen.
Qed.

Lemma added_node_visible l c c' x m :
  NoDup (id <$> l) ->
  m ∈ visibleNodes l c ->
  id m ∈ parentIds x ->
  id m ∉ c' ->
  (forall i, i ∈ c' -> i ∈ c) ->
  date m <= date x ->
  x ∈ visibleNodes (l ++ [x]) c'.
Proof.
  intros Hnd Hm Hp Hpc Hc Hdate.
  destruct (sorted_snoc_split l x) as (l1 & l2 & Hx & Hl & H1 & H2).
  apply visibleNodes_elem in Hm as [Hm Hvis].
  assert (m ∈ l1) as Hm1.
  { apply (stable_sort_elem by_date) in Hm. rewrite Hl in Hm.
    apply elem_of_app in Hm as [?|Hm2]; [done|]. apply H2 in Hm2. lia. }
  apply list_elem_of_split in Hm1 as (a0 & b0 & ->).
  assert (id m ∈ foldl (visible_visit c') ∅ (a0 ++ m :: b0)) as Hm'.
  { unfold visibleSet_of in Hvis. rewrite Hl, <- app_assoc in Hvis. simpl in Hvis.
    apply visible_fold_spec in Hvis as (a & m' & b & Heq & Hid & Hcond).
    assert (NoDup (id <$> a0 ++ m :: b0 ++ l2)) as Hnds.
    { rewrite <- (stable_sort_perm by_date l), Hl, <- app_assoc in Hnd. done. }
    assert (a0 = a) as <- by (by apply (split_unique a0 (b0 ++ l2) a b m m')).
    apply app_inv_head in Heq. injection Heq as <- _.
    apply visible_fold_spec. exists a0, m, b0. split; [done|]. split; [done|].
    destruct Hcond as [?|(p & Hp' & HpS & Hpc')]; [by left|]. right.
    exists p. split; [done|]. split.
    - by apply (visible_fold_less_collapsed c c').
    - intros ?. by apply Hpc', Hc. }
  apply visibleNodes_elem. split.
  - apply elem_of_app. right. by apply list_elem_of_singleton.
  - unfold visibleSet_of. rewrite Hx. apply visible_fold_spec.
    exists (a0 ++ m :: b0), x, l2. split; [done|]. split; [done|]. right.
    by exists (id m).
Qed.

(** X20. A node added under a visible parent is shown at once exactly
    when it is not dated before that parent: the filter visits the nodes
    in date order, so a child dated earlier than its only parent stays
    hidden although nothing is collapsed above it. *)
Theorem added_node_visible_iff_not_dated_before_parent newId now p data st m :
  activeSheetId st ∈ sheet_id <$> sheets st ->
  NoDup (id <$> current_nodes st) ->
  newId ∉ id <$> current_nodes st ->
  p <> ""%string ->
  m ∈ visibleNodes (current_nodes st) (collapsedNodeIds st) ->
  id m = p ->
  (new_node newId now (Some p) data
     ∈ visibleNodes (current_nodes (addNode newId now (Some p) data st))
         (collapsedNodeIds (addNode newId now (Some p) data st))
   <-> date m <= date (new_node newId now (Some p) data)).
Proof.
  intros Hactive Hnd Hfresh Hne Hm Hid.
  assert (current_nodes (addNode newId now (Some p) data st)
          = current_nodes st ++ [new_node newId now (Some p) data]) as Hcur.
  { unfold addNode.
    change (current_nodes _) with
      (current_nodes (updateActiveSheetNodes
                        (current_nodes st ++ [new_node newId now (Some p) data]) st)) at 1.
    by apply current_nodes_update. }
  assert (parentIds (new_node newId now (Some p) data) = [p]) as Hps.
  { unfold new_node. simpl. by rewrite decide_False. }
  assert ((p ∉ collapsedNodeIds (addNode newId now (Some p) data st))
          /\ forall i, i ∈ collapsedNodeIds (addNode newId now (Some p) data st) ->
                       i ∈ collapsedNodeIds st) as [Hpc Hc].
  { unfold addNode. simpl. rewrite decide_False by done.
    destruct (decide (p ∈ collapsedNodeIds st)); [|done]. split.
    - intros Hin. by apply list_elem_of_filter in Hin as [? _].
    - intros i Hi. by apply list_elem_of_filter in Hi as [_ ?]. }
  rewrite Hcur. split.
  - intros Hvis.
    assert (NoDup (id <$> current_nodes st ++ [new_node newId now (Some p) data])) as Hnd'.
    { rewrite fmap_app. apply NoDup_app. split; [done|]. split; [|apply NoDup_singleton].
      intros k Hk Hk'. simpl in Hk'. apply list_elem_of_singleton in Hk' as ->. done. }
    destruct (visible_parent_exists _ _ _ Hnd' Hvis) as (m' & Hm' & Hm'p & _ & Hdate).
    { by rewrite Hps. }
    rewrite Hps in Hm'p. apply list_elem_of_singleton in Hm'p.
    assert (m' = m) as ->; [|done].
    apply visibleNodes_elem in Hm' as [Hm' _]. apply visibleNodes_elem in Hm as [Hm _].
    apply (NoDup_fmap_eq id _ _ _ Hnd' Hm'); [|congruence].
    apply elem_of_app. by left.
  - intros Hdate.
    apply (added_node_visible _ (collapsedNodeIds st) _ _ m); try done.
    + rewrite Hps, Hid. by apply list_elem_of_singleton.
    + by rewrite Hid.
Qed.

Lemma added_node_visible_iff_not_dated_before_parent_witness :
  activeSheetId diamond_state ∈ sheet_id <$> sheets diamond_state
  /\ NoDup (id <$> current_nodes diamond_state)
  /\ ("E"%string ∉ id <$> current_nodes diamond_state)
  /\ "A"%string <> ""%string
  /\ mk "A" 0 [] ∈ visibleNodes (current_nodes diamond_state)
                    (collapsedNodeIds diamond_state)
  /\ id (mk "A" 0 []) = "A"%string
  /\ (new_node "E" 9 (Some "A"%string) no_data
        ∈ visibleNodes (current_nodes (addNode "E" 9 (Some "A"%string) no_data diamond_state))
            (collapsedNodeIds (addNode "E" 9 (Some "A"%string) no_data diamond_state))
      <-> date (mk "A" 0 []) <= date (new_node "E" 9 (Some "A"%string) no_data)).
Proof.
  assert (activeSheetId diamond_state ∈ sheet_id <$> sheets diamond_state) as Ha.
  { vm_compute. repeat constructor. }
  assert (NoDup (id <$> current_nodes diamond_state)) as Hnd.
  { apply (bool_decide_unpack _). vm_compute. exact I. }
  assert ("E"%string ∉ id <$> current_nodes diamond_state) as Hfresh.
  { apply (bool_decide_unpack _). vm_compute. exact I. }
  assert ("A"%string <> ""%string) as Hne by discriminate.
  assert (mk "A" 0 [] ∈ visibleNodes (current_nodes diamond_state)
                         (collapsedNodeIds diamond_state)) as Hm.
  { vm_compute. repeat constructor. }
  split; [exact Ha|]. split; [exact Hnd|]. split; [exact Hfresh|]. split; [exact Hne|].
  split; [exact Hm|]. split; [reflexivity|].
  exact (added_node_visible_iff_not_dated_before_parent "E" 9 "A" no_data diamond_state
           (mk "A" 0 []) Ha Hnd Hfresh Hne Hm eq_refl).
Defined.

(** ** Updating a node *)

(** X21. [updateNode] with data that carries no id keeps the ids of the
    active sheet, in order, and leaves every node with another id as it
    is; with an id that no node has it changes no node. *)
Theorem updateNode_keeps_ids i data st :
  activeSheetId st ∈ sheet_id <$> sheets st ->
  p_id data = None ->
  id <$> current_nodes (updateNode i data st) = id <$> current_nodes st
  /\ (forall n, n ∈ current_nodes st -> id n <> i -> n ∈ current_nodes (updateNode i data st))
  /\ (i ∉ id <$> current_nodes st -> current_nodes (updateNode i data st) = current_nodes st).
Proof.
  intros Hactive Hid.
  assert (current_nodes (updateNode i data st)
          = (fun n => if decide (id n = i) then merge_node n data else n)
              <$> current_nodes st) as ->.
  { unfold updateNode. by apply current_nodes_update. }
  split; [|split].
  - rewrite <- list_fmap_compose. apply list_fmap_ext. intros k n _. simpl.
    destruct (decide (id n = i)); [|done]. unfold merge_node. simpl. by rewrite Hid.
  - intros n Hn Hne. apply list_elem_of_fmap. exists n. split; [|done].
    by rewrite decide_False.
  - intros Hi. rewrite <- (list_fmap_id (current_nodes st)) at 2.
    apply list_fmap_ext. intros k n Hn. simpl. rewrite decide_False; [done|].
    intros Heq. apply Hi. rewrite <- Heq.
    apply list_elem_of_fmap_2. by apply list_elem_of_lookup_2 in Hn.
Qed.

Lemma updateNode_keeps_ids_witness :
  activeSheetId diamond_state ∈ sheet_id <$> sheets diamond_state
  /\ p_id no_data = None
  /\ id <$> current_nodes (updateNode "B" no_data diamond_state)
     = id <$> current_nodes diamond_state
  /\ (forall n, n ∈ current_nodes diamond_state -> id n <> "B"%string ->
        n ∈ current_nodes (updateNode "B" no_data diamond_state))
  /\ ("B"%string ∉ id <$> current_nodes diamond_state ->
        current_nodes (updateNode "B" no_data diamond_state) = current_nodes diamond_state).
Proof.
  assert (activeSheetId diamond_state ∈ sheet_id <$> sheets diamond_state) as Ha.
  { vm_compute. repeat constructor. }
  split; [exact Ha|]. split; [reflexivity|].
  exact (updateNode_keeps_ids "B" no_data diamond_state Ha eq_refl).
Defined.

(** * The parent list of the node form (components/NodeEditor.tsx) *)

(** [handleMergeSelect] on [formData.parentIds]. *)
Definition handleMergeSelect (pid : string) (formParentIds : list string) : list string :=
  if decide (pid <> ""%string /\ pid ∉ formParentIds)
  then formParentIds ++ [pid]
  else formParentIds.

(** [removeParent]; [editing] says that the form edits a node. *)
Definition removeParent (pid : string) (editing : bool) (formParentIds : list string)
  : list string :=
  if decide ((length formParentIds <= 1)%nat /\ editing = false)
  then formParentIds
  else filter (fun i => i <> pid) formParentIds.

(** [potentialParents]; [nodeId] is [node?.id]. *)
Definition potentialParents (allNodes : list WorkflowNode) (nodeId : option string)
    (formParentIds : list string) : list WorkflowNode :=
  filter (fun n => Some (id n) <> nodeId /\ id n ∉ formParentIds) allNodes.

(** X22. The merge candidates offered for a node never contain the node
    itself or one of its current parents, and selecting a candidate with
    a non-empty id appends it: the parent list stays free of duplicates
    and of the node's own id.  While a node is being created its last
    parent cannot be removed. *)
Theorem merge_select_keeps_parents_distinct allNodes i ps n :
  NoDup ps ->
  i ∉ ps ->
  n ∈ potentialParents allNodes (Some i) ps ->
  id n <> ""%string ->
  id n <> i
  /\ handleMergeSelect (id n) ps = ps ++ [id n]
  /\ NoDup (handleMergeSelect (id n) ps)
  /\ (i ∉ handleMergeSelect (id n) ps)
  /\ (forall pid, (length ps <= 1)%nat -> removeParent pid false ps = ps).
Proof.
  intros Hnd Hi Hn Hne.
  apply list_elem_of_filter in Hn as [[Hself Hnew] Hn].
  assert (id n <> i) as Hni by congruence.
  assert (handleMergeSelect (id n) ps = ps ++ [id n]) as Hsel.
  { unfold handleMergeSelect. by rewrite decide_True. }
  split; [done|]. split; [done|]. rewrite Hsel. split; [|split].
  - apply NoDup_app. split; [done|]. split; [|apply NoDup_singleton].
    intros k Hk Hk'. apply list_elem_of_singleton in Hk' as ->. done.
  - rewrite not_elem_of_app. split; [done|].
    intros Hin. apply list_elem_of_singleton in Hin. congruence.
  - intros pid Hlen. unfold removeParent. by rewrite decide_True.
Qed.

Lemma merge_select_keeps_parents_distinct_witness :
  NoDup ["B"%string]
  /\ ("D"%string ∉ ["B"%string])
  /\ mk "C" 2 ["A"%string] ∈ potentialParents diamond (Some "D"%string) ["B"%string]
  /\ id (mk "C" 2 ["A"%string]) <> ""%string
  /\ id (mk "C" 2 ["A"%string]) <> "D"%string
  /\ handleMergeSelect (id (mk "C" 2 ["A"%string])) ["B"%string]
     = ["B"%string] ++ [id (mk "C" 2 ["A"%string])]
  /\ NoDup (handleMergeSelect (id (mk "C" 2 ["A"%string])) ["B"%string])
  /\ ("D"%string ∉ handleMergeSelect (id (mk "C" 2 ["A"%string])) ["B"%string])
  /\ (forall pid, (length ["B"%string] <= 1)%nat ->
        removeParent pid false ["B"%string] = ["B"%string]).
Proof.
  assert (NoDup ["B"%string]) as Hnd.
  { apply (bool_decide_unpack _). vm_compute. exact I. }
  assert ("D"%string ∉ ["B"%string]) as Hi.
  { apply (bool_decide_unpack _). vm_compute. exact I. }
  assert (mk "C" 2 ["A"%string] ∈ potentialParents diamond (Some "D"%string) ["B"%string])
    as Hn.
  { vm_compute. repeat constructor. }
  assert (id (mk "C" 2 ["A"%string]) <> ""%string) as Hne by discriminate.
  split; [exact Hnd|]. split; [exact Hi|]. split; [exact Hn|]. split; [exact Hne|].
  exact (merge_select_keeps_parents_distinct diamond "D" ["B"%string]
           (mk "C" 2 ["A"%string]) Hnd Hi Hn Hne).
Defined.
